(** * sieve/script.c: script loading, notification templates and action dispatch

    A shallow embedding of the bytecode cache ([sieve_script_load]), the
    notification builder ([add_header], [build_notify_message],
    [send_notify_callback]) and the action dispatcher ([do_action_list],
    [do_sieve_error], [sieve_execute_bytecode]) of sieve/script.c.

    Conventions.
    - A C string is a [string]: the bytes before the terminating NUL.  A
      pointer that may be NULL is an [option].
    - A linked list ([bc_list], [action_list_t], [notify_list_t],
      [duptrack_list_t]) is a [list]; the NULL list is [nil].
    - A callback slot of the interpreter is an [option], [None] for a NULL
      pointer.  Where the code tests a slot before calling it the model
      branches; where it calls without testing ([getheader], [getenvelope],
      [getheadersection]) a NULL slot is a [Fault].
    - Status codes other than [SIEVE_OK] come from sieve_err.h, which is
      generated at build time; they are the fields of a [sieve_err] the
      functions are parameterised by.
    - Host callbacks transform an abstract [World]; every call is recorded,
      with its return value, in a ghost [log] so that the order and number
      of invocations can be stated. *)

From Stdlib Require Import ZArith List String Ascii Bool Lia Permutation.
Import ListNotations.
Open Scope string_scope.
Open Scope list_scope.
Open Scope Z_scope.

(** String concatenation; [++] is kept for lists. *)
Infix "+++" := String.append (right associativity, at level 60).

(** ** Outcomes *)

(** [Ret] is a normal return.  [Fault] is a step with no defined behaviour
    in C (a call through a NULL function pointer, a read past the end of a
    string) or a failed [assert].  [OutOfFuel] only arises in the fuel-indexed loops below and is
    shown never to be produced by the entry points. *)
Inductive result (A : Type) : Type :=
| Ret (a : A)
| Fault
| OutOfFuel.
Arguments Ret {A} a.
Arguments Fault {A}.
Arguments OutOfFuel {A}.

Definition bind {A B : Type} (m : result A) (k : A -> result B) : result B :=
  match m with
  | Ret a => k a
  | Fault => Fault
  | OutOfFuel => OutOfFuel
  end.

Notation "x <- m ;; k" := (bind m (fun x => k))
  (at level 61, m at next level, right associativity).

(** [SIEVE_OK] is 0 (sieve_interface.h; the code also writes [int ret = 0]). *)
Definition SIEVE_OK : Z := 0.

(** ** Status codes *)

(** The codes of sieve_err.h (generated from sieve_err.et at build time). *)
Record sieve_err := {
  SIEVE_FAIL : Z;
  SIEVE_NOT_FINALIZED : Z;
  SIEVE_PARSE_ERROR : Z;
  SIEVE_RUN_ERROR : Z;
  SIEVE_INTERNAL_ERROR : Z;
  SIEVE_NOMEM : Z;
  SIEVE_DONE : Z;
  SIEVE_SCRIPT_RELOADED : Z
}.

(** ** Bytecode cache: data *)

(** The fields of [struct stat] the loader reads. *)
Record stat_t := { st_ino : Z; st_size : Z }.

Record sieve_bytecode_t := {
  inode : Z;
  data : string;
  len : Z;
  fd : Z
}.

(** [bc_cur] points at a node of [bc_list]: it is the position of that node,
    [None] for NULL (a zeroed handle). *)
Record sieve_execute_t := {
  bc_list : list sieve_bytecode_t;
  bc_cur : option nat
}.

(** The file system as the loader sees it.  [fs_map fd size] is what
    [map_refresh] maps for descriptor [fd]. *)
Record filesystem := {
  fs_stat : string -> option stat_t;
  fs_open : string -> option Z;
  fs_fstat : Z -> option stat_t;
  fs_map : Z -> Z -> string
}.

(** System calls and allocations made by one call, in order. *)
Inductive io_event :=
| IoStat (fname : string)
| IoOpen (fname : string)
| IoFstat (fd : Z)
| IoClose (fd : Z)
| IoMap (fd : Z)
| IoAllocHandle
| IoFreeHandle.

Definition is_mapping (e : io_event) : bool :=
  match e with
  | IoOpen _ | IoMap _ => true
  | _ => false
  end.

(** [while (bc) { if (sbuf.st_ino == bc->inode) break; bc = bc->next; }]:
    the position of the first node with that inode. *)
Fixpoint find_inode (ino : Z) (l : list sieve_bytecode_t) : option nat :=
  match l with
  | [] => None
  | bc :: rest =>
      if Z.eqb ino (inode bc) then Some 0%nat
      else option_map S (find_inode ino rest)
  end.

(** The blobs held by the caller's handle variable, and the blob its cursor
    names. *)
Definition handle_blobs (h : option sieve_execute_t) : list sieve_bytecode_t :=
  match h with
  | None => []
  | Some ex => bc_list ex
  end.

Definition handle_cur (h : option sieve_execute_t) : option sieve_bytecode_t :=
  match h with
  | None => None
  | Some ex =>
      match bc_cur ex with
      | None => None
      | Some k => nth_error (bc_list ex) k
      end
  end.

(** ** C strings *)

(** [tolower] in the C locale. *)
Definition tolower (a : ascii) : ascii :=
  let n := nat_of_ascii a in
  if andb (Nat.leb 65 n) (Nat.leb n 90) then ascii_of_nat (n + 32) else a.

(** [!strncasecmp(c, tok, strlen(tok))]: [c] starts with [tok], letter case
    apart.  A [c] shorter than [tok] differs at its terminating NUL. *)
Fixpoint caseprefix (tok c : string) : bool :=
  match tok with
  | EmptyString => true
  | String t tok' =>
      match c with
      | EmptyString => false
      | String x c' => Ascii.eqb (tolower t) (tolower x) && caseprefix tok' c'
      end
  end.

(** [c + n], for [n] within the string. *)
Fixpoint drop (n : nat) (c : string) : string :=
  match n, c with
  | O, _ => c
  | S n', String _ c' => drop n' c'
  | S _, EmptyString => EmptyString
  end.

(** The first [n] bytes at [c]. *)
Fixpoint take (n : nat) (c : string) : string :=
  match n, c with
  | O, _ => EmptyString
  | S n', String x c' => String x (take n' c')
  | S _, EmptyString => EmptyString
  end.

(** [strcspn(c, "$")]. *)
Fixpoint strcspn_dollar (c : string) : nat :=
  match c with
  | EmptyString => O
  | String x c' => if Ascii.eqb x "$" then O else S (strcspn_dollar c')
  end.

(** [c[k]]: the byte at offset [k], the terminating NUL at the end. *)
Definition char_at (k : nat) (c : string) : ascii :=
  match String.get k c with
  | Some x => x
  | None => zero
  end.

(** ** Output buffer *)

(** Modelled from the spec: [struct buf] and [buf_appendcstr],
    [buf_appendmap], [buf_cstring] live in lib/util.c, not in script.c.  A
    buffer is its [len] bytes of content and whether [s[len]] holds the
    terminating NUL; only [buf_cstring] writes it, an append moves [len]
    past it. *)
Record buf := { buf_s : string; buf_terminated : bool }.

Definition BUF_INITIALIZER : buf := {| buf_s := ""; buf_terminated := false |}.

Definition buf_appendcstr (b : buf) (s : string) : buf :=
  {| buf_s := buf_s b +++ s; buf_terminated := false |}.

Definition buf_appendmap (b : buf) (base : string) (n : nat) : buf :=
  {| buf_s := buf_s b +++ take n base; buf_terminated := false |}.

Definition buf_cstring (b : buf) : buf :=
  {| buf_s := buf_s b; buf_terminated := true |}.

(** ** Interpreter, actions, notifications: data *)

Record sieve_bodypart_t := { decoded_body : option string }.

(** What a callback leaves behind: its return value, [*errmsg], and the
    host's state. *)
Record cb_result (World : Type) := {
  cb_ret : Z;
  cb_errmsg : option string;
  cb_world : World
}.
Arguments cb_ret {World} _.
Arguments cb_errmsg {World} _.
Arguments cb_world {World} _.

(** [sieve_callback]: the action's context, the current [*errmsg] and the
    host's state.  The three opaque context pointers are part of [World]. *)
Definition sieve_callback (World Ctx : Type) : Type :=
  Ctx -> option string -> World -> cb_result World.

Record sieve_reject_context_t := { rej_msg : string }.
Record sieve_fileinto_context_t := {
  mailbox : string;
  fil_imapflags : list string
}.
Record sieve_redirect_context_t := { addr : string }.
Record sieve_keep_context_t := {
  keep_imapflags : list string;
  keep_headers : option string
}.
Record sieve_snooze_context_t := { snz_mailbox : option string }.
Record sieve_autorespond_context_t := {
  ar_hash : string;
  ar_seconds : Z
}.
Record sieve_send_response_context_t := {
  sr_addr : string;
  sr_subj : string;
  sr_msg : string
}.
(** [strarray_t], as far as a callback can see it: [count] and [data]
    ([None] for a NULL array).  The fields carry a prefix because [count]
    and [data] name other things below. *)
Record strarray_t := {
  sa_count : nat;
  sa_data : option (list string)
}.

(** An array built by the strarray functions: [count] is the number of its
    elements. *)
Definition strarray_of (l : list string) : strarray_t :=
  {| sa_count := List.length l; sa_data := Some l |}.

Record sieve_notify_context_t := {
  nc_method : string;
  nc_from : option string;
  nc_options : strarray_t;
  nc_priority : string;
  nc_message : string;
  nc_fname : option string
}.
Record sieve_duplicate_context_t := { dc_id : string; dc_seconds : Z }.

Record sieve_vacation_t (World : Type) := {
  autorespond : sieve_callback World sieve_autorespond_context_t;
  send_response : sieve_callback World sieve_send_response_context_t
}.
Arguments autorespond {World} _.
Arguments send_response {World} _.

Record sieve_duplicate_t (World : Type) := {
  dup_check : sieve_callback World sieve_duplicate_context_t;
  dup_track : sieve_callback World sieve_duplicate_context_t
}.
Arguments dup_check {World} _.
Arguments dup_track {World} _.

(** The slots of [sieve_interp_t] that script.c reads; every function
    pointer is an [option], [None] for NULL.  The message accessors
    ([getheader], [getenvelope], [getbody], [getfname], [getheadersection])
    are read at the message of the run: a registered [getheader] applied to
    [h] is the array the accessor stores for header [h], [None] for NULL;
    a registered [getfname] or [getheadersection] is the value the accessor
    stores. *)
Record sieve_interp_t (World : Type) := {
  redirect : option (sieve_callback World sieve_redirect_context_t);
  discard : option (sieve_callback World unit);
  reject : option (sieve_callback World sieve_reject_context_t);
  fileinto : option (sieve_callback World sieve_fileinto_context_t);
  snooze : option (sieve_callback World sieve_snooze_context_t);
  keep : option (sieve_callback World sieve_keep_context_t);
  notify : option (sieve_callback World sieve_notify_context_t);
  vacation : option (sieve_vacation_t World);
  duplicate : option (sieve_duplicate_t World);
  execute_err : option (string -> World -> Z * World);
  getheader : option (string -> option (list string));
  getenvelope : option (string -> option (list string));
  getbody : option (list string -> option (list sieve_bodypart_t));
  getfname : option (option string);
  getheadersection : option (option string);
  edited_headers : bool
}.
Arguments redirect {World} _.
Arguments discard {World} _.
Arguments reject {World} _.
Arguments fileinto {World} _.
Arguments snooze {World} _.
Arguments keep {World} _.
Arguments notify {World} _.
Arguments vacation {World} _.
Arguments duplicate {World} _.
Arguments execute_err {World} _.
Arguments getheader {World} _.
Arguments getenvelope {World} _.
Arguments getbody {World} _.
Arguments getfname {World} _.
Arguments getheadersection {World} _.
Arguments edited_headers {World} _.

(** [action_t].  Its first enumerator, [ACTION_NULL], has the value -1, so
    that the test [lastaction == -1] of [do_sieve_error] holds both for the
    initial [int lastaction = -1], which is [None] of [option action_t], and
    for [Some ACTION_NULL]: see [never_acted]. *)
Inductive action_t :=
| ACTION_NULL | ACTION_NONE | ACTION_REJECT | ACTION_EREJECT
| ACTION_FILEINTO | ACTION_SNOOZE | ACTION_KEEP | ACTION_REDIRECT
| ACTION_DISCARD | ACTION_VACATION | ACTION_SETFLAG | ACTION_ADDFLAG
| ACTION_REMOVEFLAG | ACTION_MARK | ACTION_UNMARK | ACTION_NOTIFY
| ACTION_DENOTIFY.

(** The members of the union [u] that the dispatcher reads; the member that
    matters is the one named by the tag [a]. *)
Record action_union := {
  u_rej : sieve_reject_context_t;
  u_fil : sieve_fileinto_context_t;
  u_snz : sieve_snooze_context_t;
  u_keep : sieve_keep_context_t;
  u_red : sieve_redirect_context_t;
  u_vac_autoresp : sieve_autorespond_context_t;
  u_vac_send : sieve_send_response_context_t
}.

(** One node of [action_list_t]. *)
Record action_entry := {
  a : action_t;
  cancel_keep : bool;
  u : action_union
}.

(** One node of [notify_list_t]. *)
Record notify_entry := {
  isactive : bool;
  method : option string;
  from : option string;
  options : option (list string);
  priority : option string;
  message : option string
}.

(** One node of [duptrack_list_t]. *)
Record duptrack_entry := { id : option string; seconds : Z }.

(** ** Ghost trace of host calls *)

(** Which call site invoked which callback, with its argument. *)
Inductive call :=
| CallReject (c : sieve_reject_context_t)
| CallFileinto (c : sieve_fileinto_context_t)
| CallSnooze (c : sieve_snooze_context_t)
| CallKeep (c : sieve_keep_context_t)
| CallRedirect (c : sieve_redirect_context_t)
| CallDiscard
| CallAutorespond (c : sieve_autorespond_context_t)
| CallSendResponse (c : sieve_send_response_context_t)
| CallNotify (c : sieve_notify_context_t)
| CallExecuteErr (msg : string)
| CallImplicitKeep (c : sieve_keep_context_t)
| CallTrack (c : sieve_duplicate_context_t).

(** A trace entry: a host call with the value it returned, or the entry
    into one pass of [do_sieve_error] with the arguments that drive its
    recursion (whether a notify list is still attached, and whether implicit
    keep is still enabled). *)
Inductive event :=
| EvCall (c : call) (r : Z)
| EvHandler (notify_attached implicit_keep : bool).

(** The dispatcher's mutable surroundings: the host, the trace, the
    [actions_string] buffer and [interp->lastitem]. *)
Record dstate (World : Type) := {
  world : World;
  log : list event;
  actions_string : string;
  lastitem : option string
}.
Arguments world {World} _.
Arguments log {World} _.
Arguments actions_string {World} _.
Arguments lastitem {World} _.

Definition set_world {World : Type} (st : dstate World) (w : World)
    (e : event) : dstate World :=
  {| world := w; log := log st ++ [e];
     actions_string := actions_string st; lastitem := lastitem st |}.

Definition add_event {World : Type} (st : dstate World) (e : event)
  : dstate World :=
  set_world st (world st) e.

(** [free(interp->lastitem); interp->lastitem = v;] *)
Definition set_lastitem {World : Type} (st : dstate World)
    (v : option string) : dstate World :=
  {| world := world st; log := log st;
     actions_string := actions_string st; lastitem := v |}.

Definition ACTIONS_STRING_LEN : nat := 4096.
Definition ERR_BUF_SIZE : nat := 1024.

(** [snprintf(actions_string + strlen(actions_string),
              ACTIONS_STRING_LEN - strlen(actions_string), ...)]
    with [line] the formatted text: at most the remaining capacity, less the
    terminating NUL, is written. *)
Definition trace_append (s line : string) : string :=
  s +++ take (ACTIONS_STRING_LEN - 1 - String.length s) line.

Definition add_trace {World : Type} (st : dstate World) (line : string)
  : dstate World :=
  {| world := world st; log := log st;
     actions_string := trace_append (actions_string st) line;
     lastitem := lastitem st |}.

Definition set_actions_string {World : Type} (st : dstate World)
    (s : string) : dstate World :=
  {| world := world st; log := log st;
     actions_string := s; lastitem := lastitem st |}.

Definition newline : string := String (ascii_of_nat 10) EmptyString.

(** [lastaction == -1]: no action has been carried out.  The value -1 is
    the initial [lastaction] and also the enumerator [ACTION_NULL]. *)
Definition never_acted (lastaction : option action_t) : bool :=
  match lastaction with
  | None | Some ACTION_NULL => true
  | Some _ => false
  end.

Definition action_to_string (action : option action_t) : string :=
  match action with
  | Some ACTION_NULL => "NULL"
  | Some ACTION_NONE => "None"
  | Some ACTION_REJECT => "Reject"
  | Some ACTION_EREJECT => "eReject"
  | Some ACTION_FILEINTO => "Fileinto"
  | Some ACTION_SNOOZE => "Snooze"
  | Some ACTION_KEEP => "Keep"
  | Some ACTION_REDIRECT => "Redirect"
  | Some ACTION_DISCARD => "Discard"
  | Some ACTION_VACATION => "Vacation"
  | Some ACTION_SETFLAG => "Setflag"
  | Some ACTION_ADDFLAG => "Addflag"
  | Some ACTION_REMOVEFLAG => "Removeflag"
  | Some ACTION_MARK => "Mark"
  | Some ACTION_UNMARK => "Unmark"
  | Some ACTION_NOTIFY => "Notify"
  | Some ACTION_DENOTIFY => "Denotify"
  | None => "NULL" (* -1 is ACTION_NULL *)
  end.

(** The result of one pass through the body of the action loop: the
    [return] in the middle of the switch, or falling out of the switch with
    [ret] and [errmsg]. *)
Inductive step_result (World : Type) :=
| StepReturn (r : Z) (st : dstate World)
| StepBreak (ret : Z) (errmsg : option string) (st : dstate World).
Arguments StepReturn {World} r st.
Arguments StepBreak {World} ret errmsg st.

(** How the action loop is left: by the [return] inside the switch, or at
    its end (list exhausted or [break]) with the values handed to
    [do_sieve_error]. *)
Inductive loop_result (World : Type) :=
| LoopReturn (r : Z) (st : dstate World)
| LoopDone (lastaction : option action_t) (ret : Z) (implicit_keep : bool)
           (errmsg : option string) (st : dstate World).
Arguments LoopReturn {World} r st.
Arguments LoopDone {World} lastaction ret implicit_keep errmsg st.

(** What [sieve_eval_bc] leaves behind: its return value, the three lists
    it filled, [*errmsg], the flag list, [interp->lastitem] and the host's
    state. *)
Record eval_result (World : Type) := {
  ev_ret : Z;
  ev_actions : list action_entry;
  ev_notify : list notify_entry;
  ev_duptrack : list duptrack_entry;
  ev_errmsg : option string;
  ev_imapflags : list string;
  ev_lastitem : option string;
  ev_world : World
}.
Arguments ev_ret {World} _.
Arguments ev_actions {World} _.
Arguments ev_notify {World} _.
Arguments ev_duptrack {World} _.
Arguments ev_errmsg {World} _.
Arguments ev_imapflags {World} _.
Arguments ev_lastitem {World} _.
Arguments ev_world {World} _.

(** What lies outside script.c: the MIME-word decoder, the list allocators
    (what they return; NULL is [nil]) and the bytecode evaluator. *)
Record externals (World : Type) := {
  charset_parse_mimeheader : string -> string;
  new_action_list : list action_entry;
  new_notify_list : list notify_entry;
  new_duptrack_list : list duptrack_entry;
  sieve_eval_bc :
    sieve_interp_t World -> list action_entry -> list notify_entry ->
    list duptrack_entry -> World -> eval_result World
}.
Arguments charset_parse_mimeheader {World} _.
Arguments new_action_list {World} _.
Arguments new_notify_list {World} _.
Arguments new_duptrack_list {World} _.
Arguments sieve_eval_bc {World} _.

(** The variables the notification loop of [do_sieve_error] updates. *)
Record notify_vars (World : Type) := {
  nv_lastaction : option action_t;
  nv_notify_ret : Z;
  nv_ret : Z;
  nv_errmsg : option string;
  nv_state : dstate World
}.
Arguments nv_lastaction {World} _.
Arguments nv_notify_ret {World} _.
Arguments nv_ret {World} _.
Arguments nv_errmsg {World} _.
Arguments nv_state {World} _.

Definition is_nil {A : Type} (l : list A) : bool :=
  match l with
  | [] => true
  | _ => false
  end.

Definition is_some {A : Type} (o : option A) : bool :=
  match o with
  | Some _ => true
  | None => false
  end.

(** ** The functions of script.c *)

Section Functions.

Variable World : Type.
Variable E : sieve_err.
Variable X : externals World.

Abbreviation interp := (sieve_interp_t World).
Abbreviation state := (dstate World).

Definition sieve_errstr (code : Z) : string :=
  if Z.eqb code (SIEVE_FAIL E) then "Generic Error"
  else if Z.eqb code (SIEVE_NOT_FINALIZED E) then "Sieve not finalized"
  else if Z.eqb code (SIEVE_PARSE_ERROR E) then "Parse error"
  else if Z.eqb code (SIEVE_RUN_ERROR E) then "Run error"
  else if Z.eqb code (SIEVE_INTERNAL_ERROR E) then "Internal Error"
  else if Z.eqb code (SIEVE_NOMEM E) then "No memory"
  else "Unknown error".

(** *** Bytecode cache *)

(** [sieve_script_load(fname, ret)].  [ret = None] is a NULL out-pointer;
    [ret = Some h] points at the caller's handle variable, which holds [h].
    The result is the status, the caller's handle variable after the call,
    and the system calls made. *)
Definition sieve_script_load (fs : filesystem) (fname : option string)
    (ret : option (option sieve_execute_t))
  : Z * option (option sieve_execute_t) * list io_event :=
  match fname, ret with
  | Some fname, Some h =>
      match fs_stat fs fname with
      | None => (SIEVE_FAIL E, ret, [IoStat fname])
      | Some sbuf =>
          let '(ex, dofree, ev0) :=
            match h with
            | None => ({| bc_list := []; bc_cur := None |}, true,
                       [IoStat fname; IoAllocHandle])
            | Some ex => (ex, false, [IoStat fname])
            end in
          let free := if dofree then [IoFreeHandle] else [] in
          match find_inode (st_ino sbuf) (bc_list ex) with
          | None =>
              match fs_open fs fname with
              | None => (SIEVE_FAIL E, ret, ev0 ++ IoOpen fname :: free)
              | Some fd =>
                  match fs_fstat fs fd with
                  | None =>
                      (SIEVE_FAIL E, ret,
                       ev0 ++ [IoOpen fname; IoFstat fd; IoClose fd] ++ free)
                  | Some sbuf' =>
                      let bc := {| inode := st_ino sbuf';
                                   data := fs_map fs fd (st_size sbuf');
                                   len := st_size sbuf';
                                   fd := fd |} in
                      (SIEVE_OK,
                       Some (Some {| bc_list := bc :: bc_list ex;
                                     bc_cur := Some 0%nat |}),
                       ev0 ++ [IoOpen fname; IoFstat fd; IoMap fd])
                  end
              end
          | Some k =>
              (SIEVE_SCRIPT_RELOADED E,
               Some (Some {| bc_list := bc_list ex; bc_cur := Some k |}),
               ev0)
          end
      end
  | _, _ => (SIEVE_FAIL E, ret, [])
  end.

(** *** Notification builder *)

(** [add_header]; [i->getenvelope] and [i->getheader] are called without a
    test, so a NULL accessor is a fault. *)
Definition add_header (i : interp) (isenv : bool) (header : string)
    (out : buf) : result buf :=
  match (if isenv then getenvelope i else getheader i) with
  | None => Fault
  | Some get =>
      match get header with
      | None | Some [] => Ret out
      | Some (h0 :: _) =>
          Ret (buf_appendcstr out (charset_parse_mimeheader X h0))
      end
  end.

(** The value of a byte read through [char], which is signed on the
    platforms Cyrus is built for: bytes from 0x80 on are negative. *)
Definition char_value (x : ascii) : Z :=
  let v := Z.of_nat (nat_of_ascii x) in
  if Z.ltb v 128 then v else v - 256.

(** [while ( *c != ']') n = n * 10 + ( *c++ - '0');] in [size_t] arithmetic
    (64 bits).  The loop has no test for the end of the string: without a
    [']'] it walks past the terminating NUL.  On success the result is [n]
    and the rest of the string from the [']'] on. *)
Fixpoint scan_count (c : string) (n : Z) : result (Z * string) :=
  match c with
  | EmptyString => Fault
  | String x c' =>
      if Ascii.eqb x "]" then Ret (n, c)
      else scan_count c' ((n * 10 + (char_value x - 48)) mod 2 ^ 64)
  end.

(** The [$text] branch: [parts && parts[0] && parts[0]->decoded_body], cut
    to [n] bytes when [n] is not 0. *)
Definition append_text (getb : list string -> option (list sieve_bodypart_t))
    (n : Z) (out : buf) : buf :=
  match getb ["text"] with
  | Some (part :: _) =>
      match decoded_body part with
      | Some body =>
          let size := String.length body in
          let size :=
            if andb (negb (Z.eqb n 0)) (Z.ltb n (Z.of_nat size))
            then Z.to_nat n else size in
          buf_appendmap out body size
      | None => out
      end
  | _ => out
  end.

(** The [while ( *c)] loop of [build_notify_message].  Every pass consumes at
    least one byte, so [fuel = strlen(msg)] passes are enough. *)
Fixpoint build_loop (i : interp) (fuel : nat) (c : string) (out : buf)
  : result buf :=
  match c with
  | EmptyString => Ret out
  | String _ _ =>
      match fuel with
      | O => OutOfFuel
      | S fuel' =>
          if caseprefix "$from$" c then
            out' <- add_header i false "From" out ;;
            build_loop i fuel' (drop 6 c) out'
          else if caseprefix "$env-from$" c then
            out' <- add_header i true "From" out ;;
            build_loop i fuel' (drop 10 c) out'
          else if caseprefix "$subject$" c then
            out' <- add_header i false "Subject" out ;;
            build_loop i fuel' (drop 9 c) out'
          else
            match getbody i with
            | Some getb =>
                if caseprefix "$text" c &&
                   (Ascii.eqb (char_at 5 c) "[" || Ascii.eqb (char_at 5 c) "$")
                then
                  (* c += 5; n = 0; if ( *c++ == '[') { ...; c += 2; } *)
                  if Ascii.eqb (char_at 5 c) "[" then
                    match scan_count (drop 6 c) 0 with
                    | Ret (n, String _ (String _ c')) =>
                        build_loop i fuel' c' (append_text getb n out)
                    | Ret (_, _) => Fault
                    | Fault => Fault
                    | OutOfFuel => OutOfFuel
                    end
                  else
                    build_loop i fuel' (drop 6 c) (append_text getb 0 out)
                else
                  let n := S (strcspn_dollar (drop 1 c)) in
                  build_loop i fuel' (drop n c) (buf_appendmap out c n)
            | None =>
                let n := S (strcspn_dollar (drop 1 c)) in
                build_loop i fuel' (drop n c) (buf_appendmap out c n)
            end
      end
  end.

Definition build_notify_message (i : interp) (msg : option string)
    (out : buf) : result (Z * buf) :=
  match msg with
  | None => Ret (SIEVE_OK, out)
  | Some m =>
      out' <- build_loop i (String.length m) m out ;;
      Ret (SIEVE_OK, buf_cstring out')
  end.

(** [strcmpsafe("$env-from$", strarray_nth(options, 0)) == 0]; a missing
    first element compares as the empty string. *)
Definition first_is_env_from (opts : list string) : bool :=
  match opts with
  | [] => false
  | o :: _ => String.eqb "$env-from$" o
  end.

(** [send_notify_callback]: the status, [*errmsg] and the state after it. *)
Definition send_notify_callback (i : interp)
    (cb : sieve_callback World sieve_notify_context_t) (n : notify_entry)
    (errmsg : option string) (st : state)
  : result (Z * option string * state) :=
  if negb (isactive n) then Fault (* assert(notify->isactive) *)
  else
    match method n, options n, priority n, message n with
    | Some m, Some opts, Some prio, Some msg =>
        (* the static [options] of the mailto branch: [getenvelope] stores
           into its [data], its [count] stays 0 *)
        opts' <- (if String.eqb m "mailto" && first_is_env_from opts
                  then match getenvelope i with
                       | Some get =>
                           Ret {| sa_count := 0; sa_data := get "From" |}
                       | None => Fault
                       end
                  else Ret (strarray_of opts)) ;;
        r <- build_notify_message i (Some msg) BUF_INITIALIZER ;;
        let out := buf_appendcstr (snd r) (newline +++ newline) in
        let out := buf_cstring (buf_appendcstr out (actions_string st)) in
        let nc := {| nc_method := m; nc_from := from n; nc_options := opts';
                     nc_priority := prio; nc_message := buf_s out;
                     nc_fname := match getfname i with
                                 | Some f => f
                                 | None => None
                                 end |} in
        let res := cb nc errmsg (world st) in
        Ret (cb_ret res, cb_errmsg res,
             set_world st (cb_world res) (EvCall (CallNotify nc) (cb_ret res)))
    | _, _, _, _ => Ret (SIEVE_RUN_ERROR E, errmsg, st)
    end.

(** The [while (n != NULL)] loop over the notify list, started from [v]. *)
Fixpoint notify_loop (i : interp)
    (cb : sieve_callback World sieve_notify_context_t)
    (l : list notify_entry) (v : notify_vars World)
  : result (notify_vars World) :=
  match l with
  | [] => Ret v
  | n :: rest =>
      if isactive n then
        r <- send_notify_callback i cb n (nv_errmsg v) (nv_state v) ;;
        let '(notify_ret, errmsg, st) := r in
        notify_loop i cb rest
          {| nv_lastaction := Some ACTION_NOTIFY;
             nv_notify_ret := notify_ret;
             nv_ret := Z.lor (nv_ret v) notify_ret;
             nv_errmsg := errmsg;
             nv_state := st |}
      else notify_loop i cb rest v
  end.

(** [errmsg ? errmsg : sieve_errstr(ret)] *)
Definition reason (errmsg : option string) (ret : Z) : string :=
  match errmsg with
  | Some m => m
  | None => sieve_errstr ret
  end.

(** The text handed to [execute_err], cut to [ERR_BUF_SIZE]. *)
Definition execute_err_text (lastaction : option action_t)
    (item : option string) (errmsg : option string) (ret : Z) : string :=
  take (ERR_BUF_SIZE - 1)
    (if never_acted lastaction then reason errmsg ret
     else
       match item with
       | Some it =>
           action_to_string lastaction +++ " (" +++ it +++ "): " +++
           reason errmsg ret
       | None => action_to_string lastaction +++ ": " +++ reason errmsg ret
       end).

(** The opening block of [do_sieve_error]: [if (ret != SIEVE_OK)
    snprintf(...)]. *)
Definition failure_line (ret : Z) (lastaction : option action_t)
    (errmsg : option string) (st : state) : state :=
  if Z.eqb ret SIEVE_OK then st
  else if never_acted lastaction then
    (* we never executed an action *)
    add_trace st ("script execution failed: " +++ reason errmsg ret +++
                  newline)
  else
    add_trace st (action_to_string lastaction +++ " action failed: " +++
                  reason errmsg ret +++ newline).

(** [interp->notify && notify_list] *)
Definition notifies (i : interp) (notify_list : list notify_entry) : bool :=
  is_some (notify i) && negb (is_nil notify_list).

(** The block [/* Process notify actions */] up to the clearing of
    [notify_list]; outside it the variables keep their values
    ([notify_ret] is only in scope inside it). *)
Definition notify_phase (i : interp) (notify_list : list notify_entry)
    (v : notify_vars World) : result (notify_vars World) :=
  match notify i, notify_list with
  | Some cb, _ :: _ => notify_loop i cb notify_list v
  | _, _ => Ret v
  end.

(** The block [if ((ret != SIEVE_OK) && interp->execute_err)]. *)
Definition report_error (i : interp) (lastaction : option action_t)
    (ret : Z) (errmsg : option string) (st : state) : Z * state :=
  match execute_err i with
  | Some cb =>
      if Z.eqb ret SIEVE_OK then (ret, st)
      else
        let text := execute_err_text lastaction (lastitem st) errmsg ret in
        let '(r, w) := cb text (world st) in
        (Z.lor ret r, set_world st w (EvCall (CallExecuteErr text) r))
  | None => (ret, st)
  end.

(** The [sieve_keep_context_t] of the implicit keep. *)
Definition implicit_keep_context (i : interp) (imapflags : list string)
  : sieve_keep_context_t :=
  {| keep_imapflags := imapflags;
     keep_headers := if edited_headers i
                     then match getheadersection i with
                          | Some headers => headers
                          | None => None
                          end
                     else None |}.

(** [do_sieve_error].  [fuel] bounds the depth of its recursion; the
    [actions] argument, which is only freed, is left out.  Each pass opens
    with a ghost [EvHandler] entry in the trace. *)
Fixpoint do_sieve_error (fuel : nat) (ret : Z) (i : interp)
    (imapflags : list string) (notify_list : list notify_entry)
    (lastaction : option action_t) (implicit_keep : bool)
    (errmsg : option string) (st : state) : result (Z * state) :=
  match fuel with
  | O => OutOfFuel
  | S fuel' =>
      let st := add_event st
                  (EvHandler (negb (is_nil notify_list)) implicit_keep) in
      let st := failure_line ret lastaction errmsg st in
      (* Process notify actions *)
      let notified := notifies i notify_list in
      v <- notify_phase i notify_list
             {| nv_lastaction := lastaction; nv_notify_ret := SIEVE_OK;
                nv_ret := ret; nv_errmsg := errmsg; nv_state := st |} ;;
      (* don't try any notifications again *)
      let notify_list := if notified then [] else notify_list in
      if notified && negb (Z.eqb (nv_notify_ret v) SIEVE_OK) then
        do_sieve_error fuel' (nv_ret v) i imapflags notify_list
                       (nv_lastaction v) implicit_keep (nv_errmsg v)
                       (nv_state v)
      else
        let '(ret, st) := report_error i (nv_lastaction v) (nv_ret v)
                                       (nv_errmsg v) (nv_state v) in
        if implicit_keep then
          let keep_context := implicit_keep_context i imapflags in
          (* [interp->getheadersection] and [interp->keep] are called
             without a test *)
          if edited_headers i && negb (is_some (getheadersection i)) then Fault
          else
          match keep i with
          | None => Fault
          | Some cb =>
              let res := cb keep_context (nv_errmsg v) (world st) in
              let keep_ret := cb_ret res in
              let st := set_world st (cb_world res)
                          (EvCall (CallImplicitKeep keep_context) keep_ret) in
              let ret := Z.lor ret keep_ret in
              if Z.eqb keep_ret SIEVE_OK then
                Ret (ret, add_trace st ("Kept" +++ newline))
              else
                (* don't try an implicit keep again *)
                do_sieve_error fuel' ret i imapflags notify_list
                               (Some ACTION_KEEP) false (cb_errmsg res) st
          end
        else Ret (ret, st)
  end.

(** Three nested passes are the most [do_sieve_error] ever makes: the first,
    one after a failed notification, one after a failed implicit keep. *)
Definition handler_fuel : nat := 3.

(** A call to an action callback at [site]: the call is logged with its
    return value. *)
Definition invoke {Ctx : Type} (cb : sieve_callback World Ctx)
    (site : Ctx -> call) (ctx : Ctx) (errmsg : option string) (st : state)
  : Z * option string * state :=
  let res := cb ctx errmsg (world st) in
  (cb_ret res, cb_errmsg res,
   set_world st (cb_world res) (EvCall (site ctx) (cb_ret res))).

(** [if (ret == SIEVE_OK) snprintf(..., line)] *)
Definition trace_if_ok (ret : Z) (line : string) (st : state) : state :=
  if Z.eqb ret SIEVE_OK then add_trace st line else st.

(** The [switch (a->a)] of the action loop, entered with [errmsg = NULL]
    and the [ret] of the previous pass. *)
Definition do_action (i : interp) (e : action_entry) (ret : Z) (st : state)
  : step_result World :=
  match a e with
  | ACTION_REJECT | ACTION_EREJECT =>
      match reject i with
      | None => StepReturn (SIEVE_INTERNAL_ERROR E) st
      | Some cb =>
          let '(ret, errmsg, st) := invoke cb CallReject (u_rej (u e)) None st in
          let st := set_lastitem st (Some (rej_msg (u_rej (u e)))) in
          StepBreak ret errmsg
            (trace_if_ok ret
               ((match a e with
                 | ACTION_EREJECT => "eRejected"
                 | _ => "Rejected"
                 end) +++ " with: " +++ rej_msg (u_rej (u e)) +++ newline) st)
      end
  | ACTION_FILEINTO =>
      match fileinto i with
      | None => StepReturn (SIEVE_INTERNAL_ERROR E) st
      | Some cb =>
          let '(ret, errmsg, st) :=
            invoke cb CallFileinto (u_fil (u e)) None st in
          let st := set_lastitem st (Some (mailbox (u_fil (u e)))) in
          StepBreak ret errmsg
            (trace_if_ok ret
               ("Filed into: " +++ mailbox (u_fil (u e)) +++ newline) st)
      end
  | ACTION_SNOOZE =>
      match snooze i with
      | None => StepReturn (SIEVE_INTERNAL_ERROR E) st
      | Some cb =>
          let '(ret, errmsg, st) := invoke cb CallSnooze (u_snz (u e)) None st in
          let st := set_lastitem st None in
          StepBreak ret errmsg (trace_if_ok ret ("Snoozed" +++ newline) st)
      end
  | ACTION_KEEP =>
      match keep i with
      | None => StepReturn (SIEVE_INTERNAL_ERROR E) st
      | Some cb =>
          let '(ret, errmsg, st) := invoke cb CallKeep (u_keep (u e)) None st in
          let st := set_lastitem st None in
          StepBreak ret errmsg (trace_if_ok ret ("Kept" +++ newline) st)
      end
  | ACTION_REDIRECT =>
      match redirect i with
      | None => StepReturn (SIEVE_INTERNAL_ERROR E) st
      | Some cb =>
          let '(ret, errmsg, st) :=
            invoke cb CallRedirect (u_red (u e)) None st in
          let st := set_lastitem st (Some (addr (u_red (u e)))) in
          StepBreak ret errmsg
            (trace_if_ok ret
               ("Redirected to " +++ addr (u_red (u e)) +++ newline) st)
      end
  | ACTION_DISCARD =>
      let '(ret, errmsg, st) :=
        match discard i with
        | Some cb => invoke cb (fun _ => CallDiscard) tt None st
        | None => (ret, None, st) (* discard is optional *)
        end in
      let st := set_lastitem st None in
      StepBreak ret errmsg (trace_if_ok ret ("Discarded" +++ newline) st)
  | ACTION_VACATION =>
      match vacation i with
      | None => StepReturn (SIEVE_INTERNAL_ERROR E) st
      | Some v =>
          (* first, let's figure out if we should respond to this *)
          let '(ret, errmsg, st) :=
            invoke (autorespond v) CallAutorespond (u_vac_autoresp (u e))
                   None st in
          let st := set_lastitem st None in
          if Z.eqb ret SIEVE_OK then
            (* send the response *)
            let '(ret, errmsg, st) :=
              invoke (send_response v) CallSendResponse (u_vac_send (u e))
                     errmsg st in
            StepBreak ret errmsg
              (trace_if_ok ret ("Sent vacation reply" +++ newline) st)
          else if Z.eqb ret (SIEVE_DONE E) then
            StepBreak SIEVE_OK errmsg
              (add_trace st ("Vacation reply suppressed" +++ newline))
          else StepBreak ret errmsg st
      end
  | ACTION_NONE => StepBreak ret None st
  | _ => StepBreak (SIEVE_INTERNAL_ERROR E) None st
  end.

(** The [while (a != NULL)] loop of [do_action_list]. *)
Fixpoint action_loop (i : interp) (actions : list action_entry)
    (lastaction : option action_t) (ret : Z) (implicit_keep : bool)
    (errmsg : option string) (st : state) : loop_result World :=
  match actions with
  | [] => LoopDone lastaction ret implicit_keep errmsg st
  | e :: rest =>
      let lastaction := Some (a e) in
      let implicit_keep := implicit_keep && negb (cancel_keep e) in
      match do_action i e ret st with
      | StepReturn r st' => LoopReturn r st'
      | StepBreak ret errmsg st' =>
          if Z.eqb ret SIEVE_OK then
            action_loop i rest lastaction ret implicit_keep errmsg st'
          else
            (* uh oh! better bail! *)
            LoopDone lastaction ret false errmsg st'
      end
  end.

Definition do_action_list (i : interp) (imapflags : list string)
    (actions : list action_entry) (notify_list : list notify_entry)
    (errmsg : option string) (st : state) : result (Z * state) :=
  let st := set_actions_string st ("Action(s) taken:" +++ newline) in
  match action_loop i actions None 0 true errmsg st with
  | LoopReturn r st' => Ret (r, st')
  | LoopDone lastaction ret implicit_keep errmsg st' =>
      do_sieve_error handler_fuel ret i imapflags notify_list lastaction
                     implicit_keep errmsg st'
  end.

(** The [for (d = duptrack_list; d != NULL; d = d->next)] loop; the value
    [track] returns is dropped. *)
Fixpoint track_loop (d : sieve_duplicate_t World)
    (l : list duptrack_entry) (errmsg : option string) (st : state) : state :=
  match l with
  | [] => st
  | e :: rest =>
      match id e with
      | Some ident =>
          let dc := {| dc_id := ident; dc_seconds := seconds e |} in
          let '(_, errmsg', st') := invoke (dup_track d) CallTrack dc errmsg st in
          track_loop d rest errmsg' st'
      | None => track_loop d rest errmsg st
      end
  end.

(** The closing [if (duptrack_list)] block, with the caller's [errmsg]. *)
Definition track_records (i : interp) (duptrack_list : list duptrack_entry)
    (ret : Z) (errmsg : option string) (st : state) : state :=
  match duptrack_list, duplicate i with
  | _ :: _, Some d =>
      if Z.eqb ret SIEVE_OK then track_loop d duptrack_list errmsg st else st
  | _, _ => st
  end.

(** [sieve_execute_bytecode], run from host state [w] with
    [interp->lastitem] holding [item].  The evaluator fills the lists it is
    given; [ev_actions], [ev_notify] and [ev_duptrack] are those lists when
    it returns. *)
Definition sieve_execute_bytecode (i : option interp) (w : World)
    (item : option string) : result (Z * state) :=
  let st0 := {| world := w; log := []; actions_string := "";
                lastitem := item |} in
  match i with
  | None => Ret (SIEVE_FAIL E, st0)
  | Some i =>
      let duptrack_list :=
        if is_some (duplicate i) then new_duptrack_list X else [] in
      if is_some (duplicate i) && is_nil duptrack_list then
        do_sieve_error handler_fuel (SIEVE_NOMEM E) i [] [] None false None st0
      else
        let notify_list :=
          if is_some (notify i) then new_notify_list X else [] in
        if is_some (notify i) && is_nil notify_list then
          do_sieve_error handler_fuel (SIEVE_NOMEM E) i [] [] None false None
                         st0
        else
          match new_action_list X with
          | [] =>
              r <- do_sieve_error handler_fuel (SIEVE_NOMEM E) i []
                                  notify_list None false None st0 ;;
              Ret (fst r, track_records i duptrack_list (fst r) None (snd r))
          | actions =>
              let ev := sieve_eval_bc X i actions notify_list duptrack_list
                                      w in
              let st := {| world := ev_world ev; log := [];
                           actions_string := "";
                           lastitem := ev_lastitem ev |} in
              r <- (if Z.ltb (ev_ret ev) 0 then
                      do_sieve_error handler_fuel (SIEVE_RUN_ERROR E) i
                                     (ev_imapflags ev) (ev_notify ev) None
                                     false (ev_errmsg ev) st
                    else
                      do_action_list i (ev_imapflags ev) (ev_actions ev)
                                     (ev_notify ev) (ev_errmsg ev) st) ;;
              Ret (fst r,
                   track_records i (ev_duptrack ev) (fst r) (ev_errmsg ev)
                                 (snd r))
          end
  end.

End Functions.

Arguments add_header {World} X i isenv header out.
Arguments build_loop {World} X i fuel c out.
Arguments build_notify_message {World} X i msg out.
Arguments send_notify_callback {World} E X i cb n errmsg st.
Arguments notify_loop {World} E X i cb l v.
Arguments failure_line {World} E ret lastaction errmsg st.
Arguments notifies {World} i notify_list.
Arguments notify_phase {World} E X i notify_list v.
Arguments report_error {World} E i lastaction ret errmsg st.
Arguments implicit_keep_context {World} i imapflags.
Arguments do_sieve_error {World} E X fuel ret i imapflags notify_list
  lastaction implicit_keep errmsg st.
Arguments invoke {World Ctx} cb site ctx errmsg st.
Arguments trace_if_ok {World} ret line st.
Arguments do_action {World} E i e ret st.
Arguments action_loop {World} E i actions lastaction ret implicit_keep
  errmsg st.
Arguments do_action_list {World} E X i imapflags actions notify_list
  errmsg st.
Arguments track_loop {World} d l errmsg st.
Arguments track_records {World} i duptrack_list ret errmsg st.
Arguments sieve_execute_bytecode {World} E X i w item.

(** ** Reading the trace *)

Definition is_implicit_keep (e : event) : bool :=
  match e with
  | EvCall (CallImplicitKeep _) _ => true
  | _ => false
  end.

(** A call made from the switch of the action loop. *)
Definition is_action_call (e : event) : bool :=
  match e with
  | EvCall (CallReject _) _ | EvCall (CallFileinto _) _
  | EvCall (CallSnooze _) _ | EvCall (CallKeep _) _
  | EvCall (CallRedirect _) _ | EvCall CallDiscard _
  | EvCall (CallAutorespond _) _ | EvCall (CallSendResponse _) _ => true
  | _ => false
  end.

Definition is_track_call (e : event) : bool :=
  match e with
  | EvCall (CallTrack _) _ => true
  | _ => false
  end.

Definition is_notify_call (e : event) : bool :=
  match e with
  | EvCall (CallNotify _) _ => true
  | _ => false
  end.

Definition is_handler_entry (e : event) : bool :=
  match e with
  | EvHandler _ _ => true
  | _ => false
  end.

(** What a pass of [do_sieve_error] may add to the trace. *)
Definition is_handler_event (e : event) : bool :=
  match e with
  | EvHandler _ _ | EvCall (CallNotify _) _ | EvCall (CallExecuteErr _) _
  | EvCall (CallImplicitKeep _) _ => true
  | _ => false
  end.

(** The callback behind the entry, if it is a call, returned [SIEVE_OK]. *)
Definition call_ok (e : event) : bool :=
  match e with
  | EvCall _ r => Z.eqb r SIEVE_OK
  | EvHandler _ _ => true
  end.

Definition count (f : event -> bool) (l : list event) : nat :=
  List.length (filter f l).

(** The contexts handed to the notify callback, in order. *)
Fixpoint notify_calls (l : list event) : list sieve_notify_context_t :=
  match l with
  | [] => []
  | EvCall (CallNotify nc) _ :: rest => nc :: notify_calls rest
  | _ :: rest => notify_calls rest
  end.

(** The contexts handed to the duplicate tracker, in order. *)
Fixpoint track_calls (l : list event) : list sieve_duplicate_context_t :=
  match l with
  | [] => []
  | EvCall (CallTrack dc) _ :: rest => dc :: track_calls rest
  | _ :: rest => track_calls rest
  end.

(** A position at which one of the four tests of the
    [build_notify_message] loop succeeds. *)
Definition token_start {World : Type} (i : sieve_interp_t World)
    (c : string) : bool :=
  caseprefix "$from$" c || caseprefix "$env-from$" c ||
  caseprefix "$subject$" c ||
  (is_some (getbody i) && caseprefix "$text" c &&
   (Ascii.eqb (char_at 5 c) "[" || Ascii.eqb (char_at 5 c) "$")).

(** Plain text for the loop: no position of [c] starts a token. *)
Fixpoint literal {World : Type} (i : sieve_interp_t World) (c : string)
  : bool :=
  match c with
  | EmptyString => true
  | String _ c' => negb (token_start i c) && literal i c'
  end.

(** The tokens as the specification lists them (section 4.5, letter case
    apart): [$from$], [$env-from$], [$subject$], [$text$] and [$text[N]$]
    with [N] a decimal number.  [spec_digits c] strips the digits at the
    front of [c]. *)
Fixpoint spec_digits (c : string) : string :=
  match c with
  | String x c' =>
      if andb (Nat.leb 48 (nat_of_ascii x)) (Nat.leb (nat_of_ascii x) 57)
      then spec_digits c' else c
  | EmptyString => c
  end.

Definition spec_token_start (c : string) : bool :=
  caseprefix "$from$" c || caseprefix "$env-from$" c ||
  caseprefix "$subject$" c || caseprefix "$text$" c ||
  (caseprefix "$text[" c &&
   negb (Nat.eqb (String.length (spec_digits (drop 6 c)))
                 (String.length (drop 6 c))) &&
   caseprefix "]$" (spec_digits (drop 6 c))).

(** Literal text in the specification's sense: no position of [c] starts
    one of its tokens. *)
Fixpoint spec_literal (c : string) : bool :=
  match c with
  | EmptyString => true
  | String _ c' => negb (spec_token_start c) && spec_literal c'
  end.








(** An active entry with the four fields [send_notify_callback] insists
    on: the ones for which the notify callback is reached. *)
Definition deliverable (n : notify_entry) : bool :=
  isactive n && is_some (method n) && is_some (options n) &&
  is_some (priority n) && is_some (message n).

(** The records the closing loop of [sieve_execute_bytecode] hands over. *)
Fixpoint tracked (l : list duptrack_entry) : list sieve_duplicate_context_t :=
  match l with
  | [] => []
  | e :: rest =>
      match id e with
      | Some ident => {| dc_id := ident; dc_seconds := seconds e |} :: tracked rest
      | None => tracked rest
      end
  end.

(** The action kinds whose case in the switch starts with
    [if (!interp->...) return SIEVE_INTERNAL_ERROR;], when that slot is
    empty. *)
Definition missing_capability {World : Type} (i : sieve_interp_t World)
    (k : action_t) : bool :=
  match k with
  | ACTION_REJECT | ACTION_EREJECT => negb (is_some (reject i))
  | ACTION_FILEINTO => negb (is_some (fileinto i))
  | ACTION_SNOOZE => negb (is_some (snooze i))
  | ACTION_KEEP => negb (is_some (keep i))
  | ACTION_REDIRECT => negb (is_some (redirect i))
  | ACTION_VACATION => negb (is_some (vacation i))
  | _ => false
  end.

(** The kinds the switch has a case for. *)
Definition has_case (k : action_t) : bool :=
  match k with
  | ACTION_REJECT | ACTION_EREJECT | ACTION_FILEINTO | ACTION_SNOOZE
  | ACTION_KEEP | ACTION_REDIRECT | ACTION_DISCARD | ACTION_VACATION
  | ACTION_NONE => true
  | _ => false
  end.

(** An entry the dispatcher can carry out: its kind has a case and the
    capability that case needs is registered. *)
Definition dispatchable {World : Type} (i : sieve_interp_t World)
    (e : action_entry) : bool :=
  has_case (a e) && negb (missing_capability i (a e)).

(** [do_sieve_error] never runs out of fuel on this input. *)
Definition finishes {A : Type} (m : result A) : bool :=
  match m with
  | OutOfFuel => false
  | _ => true
  end.

(** Events that are neither a pass of the handler nor an implicit keep. *)
Definition plain (e : event) : bool :=
  negb (is_handler_entry e) && negb (is_implicit_keep e).

(** A call whose status lets the action loop go on: [SIEVE_OK], or
    [SIEVE_DONE] from autorespond. *)
Definition tolerated (E : sieve_err) (e : event) : bool :=
  match e with
  | EvCall (CallAutorespond _) r =>
      Z.eqb r SIEVE_OK || Z.eqb r (SIEVE_DONE E)
  | EvCall _ r => Z.eqb r SIEVE_OK
  | EvHandler _ _ => true
  end.

(** The recursive passes [do_sieve_error] can still make: one if
    notifications are pending, one if implicit keep is enabled. *)
Definition passes_left {World : Type} (i : sieve_interp_t World)
    (notify_list : list notify_entry) (implicit_keep : bool) : nat :=
  (if notifies i notify_list then 1 else 0) +
  (if implicit_keep then 1 else 0).

(** The trace that follows an implicit keep: no second implicit keep, at
    most one further pass of the handler, entered with implicit keep
    disabled. *)
Fixpoint after_keep (l : list event) (passes : nat) : bool :=
  match l with
  | [] => true
  | EvHandler _ ik :: rest =>
      negb ik && Nat.eqb passes 0 && after_keep rest (S passes)
  | EvCall (CallImplicitKeep _) _ :: _ => false
  | _ :: rest => after_keep rest passes
  end.

(** The recursive passes recorded in a trace are well-behaved: none is
    entered with notifications pending (a notify list attached while a
    notify callback is registered), and what follows an implicit keep
    satisfies [after_keep]. *)
Fixpoint reentries_ok {World : Type} (i : sieve_interp_t World)
    (l : list event) : bool :=
  match l with
  | [] => true
  | EvHandler attached _ :: rest =>
      negb (is_some (notify i) && attached) && reentries_ok i rest
  | EvCall (CallImplicitKeep _) _ :: rest =>
      after_keep rest 0 && reentries_ok i rest
  | _ :: rest => reentries_ok i rest
  end.

(** The evaluation [sieve_execute_bytecode] performs once its three lists
    are allocated; [None] if one of the allocations it attempts returns
    NULL. *)
Definition eval_run {World : Type} (X : externals World)
    (i : sieve_interp_t World) (w : World) : option (eval_result World) :=
  let duptrack_list :=
    if is_some (duplicate i) then new_duptrack_list X else [] in
  let notify_list := if is_some (notify i) then new_notify_list X else [] in
  if is_some (duplicate i) && is_nil duptrack_list then None
  else if is_some (notify i) && is_nil notify_list then None
  else if is_nil (new_action_list X) then None
  else Some (sieve_eval_bc X i (new_action_list X) notify_list
                           duptrack_list w).

(** A call made while dispatching: from the action loop or from the error
    handler. *)
Definition is_dispatch_event (e : event) : bool :=
  is_action_call e || is_handler_event e.

(** ** More of the bytecode cache: unloading *)

(** What [sieve_script_unload] releases, in order; a mapping is named by the
    descriptor of its blob. *)
Inductive release_event :=
| RelUnmap (d : Z)
| RelClose (d : Z)
| RelFreeBlob (d : Z)
| RelFreeHandle.

(** [while (bc) { map_free(...); close(bc->fd); nextbc = bc->next;
    free(bc); bc = nextbc; }] *)
Fixpoint unload_blobs (l : list sieve_bytecode_t) : list release_event :=
  match l with
  | [] => []
  | bc :: rest =>
      RelUnmap (fd bc) :: RelClose (fd bc) :: RelFreeBlob (fd bc)
      :: unload_blobs rest
  end.

(** [sieve_script_unload(s)]; [s = None] is a NULL argument, [s = Some h]
    points at the caller's handle variable, which holds [h]. *)
Definition sieve_script_unload (E : sieve_err)
    (s : option (option sieve_execute_t))
  : Z * option (option sieve_execute_t) * list release_event :=
  match s with
  | Some (Some ex) =>
      (SIEVE_OK, Some None, unload_blobs (bc_list ex) ++ [RelFreeHandle])
  | _ => (SIEVE_FAIL E, s, [])
  end.

(** The descriptors a list of releases closes, and the mappings it frees. *)
Fixpoint closes (l : list release_event) : list Z :=
  match l with
  | [] => []
  | RelClose d :: rest => d :: closes rest
  | _ :: rest => closes rest
  end.

Fixpoint unmaps (l : list release_event) : list Z :=
  match l with
  | [] => []
  | RelUnmap d :: rest => d :: unmaps rest
  | _ :: rest => unmaps rest
  end.

(** In the system calls of the loader: the descriptors [open] returned
    (each is passed to [fstat] at once), those mapped and kept, and those
    closed again. *)
Fixpoint obtained (l : list io_event) : list Z :=
  match l with
  | [] => []
  | IoFstat d :: rest => d :: obtained rest
  | _ :: rest => obtained rest
  end.

Fixpoint mapped (l : list io_event) : list Z :=
  match l with
  | [] => []
  | IoMap d :: rest => d :: mapped rest
  | _ :: rest => mapped rest
  end.

Fixpoint closed (l : list io_event) : list Z :=
  match l with
  | [] => []
  | IoClose d :: rest => d :: closed rest
  | _ :: rest => closed rest
  end.

(** A caller that loads the files [names] one after the other under one
    handle variable, whatever each call returns: the handle variable and the
    system calls at the end. *)
Fixpoint load_all (E : sieve_err) (fs : filesystem) (names : list string)
    (h : option sieve_execute_t)
  : option sieve_execute_t * list io_event :=
  match names with
  | [] => (h, [])
  | f :: rest =>
      let '(_, ret, evs) := sieve_script_load E fs (Some f) (Some h) in
      let h' := match ret with Some h' => h' | None => h end in
      let '(h'', evs') := load_all E fs rest h' in
      (h'', evs ++ evs')
  end.

(** [stat] and [fstat] agree on the inode of a file that can be opened. *)
Definition coherent (fs : filesystem) : Prop :=
  forall f sbuf d sbuf',
    fs_stat fs f = Some sbuf -> fs_open fs f = Some d ->
    fs_fstat fs d = Some sbuf' -> st_ino sbuf' = st_ino sbuf.

(** The handle invariant: the cursor of a non-NULL handle names a blob of
    its list, and no two blobs have the same inode. *)
Definition handle_ok (h : option sieve_execute_t) : Prop :=
  NoDup (map inode (handle_blobs h)) /\
  match h with
  | None => True
  | Some ex => exists bc, handle_cur h = Some bc /\ In bc (bc_list ex)
  end.

(** ** More vocabulary for the notification builder *)

(** No ['$'] in [c]. *)
Fixpoint dollar_free (c : string) : bool :=
  match c with
  | EmptyString => true
  | String x c' => negb (Ascii.eqb x "$") && dollar_free c'
  end.

Fixpoint all_digits (c : string) : bool :=
  match c with
  | EmptyString => true
  | String x c' =>
      Nat.leb 48 (nat_of_ascii x) && Nat.leb (nat_of_ascii x) 57 &&
      all_digits c'
  end.

(** The number a string of decimal digits denotes, continuing from [acc]. *)
Fixpoint decimal_from (c : string) (acc : Z) : Z :=
  match c with
  | EmptyString => acc
  | String x c' => decimal_from c' (acc * 10 + (Z.of_nat (nat_of_ascii x) - 48))
  end.

Definition decimal (c : string) : Z := decimal_from c 0.

(** The number of bytes of a body of [len] bytes that [$text[N]$] lets
    through: all of them for [N = 0], at most [N] otherwise. *)
Definition text_limit (n : Z) (len : nat) : nat :=
  if Z.eqb n 0 then len else Nat.min (Z.to_nat n) len.


(** [t] is [tok] up to letter case. *)
Definition same_token (tok t : string) : bool :=
  caseprefix tok t && Nat.eqb (String.length t) (String.length tok).


(** The body placeholders the loop consumes, each with the byte count it
    asks for: [$text$] (no limit, 0) and [$text[] followed by decimal digits,
    a [']'] and one more byte, whatever it is. *)
Inductive text_token : string -> Z -> Prop :=
| tok_text (w : string) :
    same_token "$text$" w = true -> text_token w 0
| tok_text_n (w ds : string) (y : ascii) :
    same_token "$text[" w = true -> all_digits ds = true ->
    decimal ds < 2 ^ 64 ->
    text_token (w +++ ds +++ String "]" (String y "")) (decimal ds).

(** What a body placeholder stands for: the decoded body of the first
    ["text"] part, nothing if there is none. *)
Definition body_text (getb : list string -> option (list sieve_bodypart_t))
  : string :=
  match getb ["text"] with
  | Some (part :: _) =>
      match decoded_body part with
      | Some body => body
      | None => ""
      end
  | _ => ""
  end.

(** ** More vocabulary for the dispatcher *)

Definition is_execute_err (e : event) : bool :=
  match e with
  | EvCall (CallExecuteErr _) _ => true
  | _ => false
  end.

(** The text of a report fits the [char buf[ERR_BUF_SIZE]] it was built
    in. *)
Definition short_report (e : event) : bool :=
  match e with
  | EvCall (CallExecuteErr text) _ =>
      Nat.ltb (String.length text) ERR_BUF_SIZE
  | _ => true
  end.

(** A trace entry that leaves the overall status at [SIEVE_OK]: a call
    the action loop tolerates, or a call to the duplicate tracker, whose
    return value is dropped. *)
Definition accepted (E : sieve_err) (e : event) : bool :=
  is_track_call e || tolerated E e.

(** [s], with its terminating NUL, fits [char actions_string[ACTIONS_STRING_LEN]]. *)
Definition fits (s : string) : Prop :=
  (String.length s < ACTIONS_STRING_LEN)%nat.

(** [s'] is [s] with text appended, still fitting the buffer if [s] did. *)
Definition extends (s s' : string) : Prop :=
  (exists t, s' = s +++ t) /\ (fits s -> fits s').

(** ** The parse front end *)

(** What the generated parser reads: [sieverestart(stream)] or
    [sieve_scan_string(s)] selects it before [sieveparse] runs. *)
Inductive scanner_input :=
| FromStream (contents : string)
| FromString (s : string).

(** [sieve_script_t], without the opaque [script_context] pointer and the
    [sieveerr] buffer, which the front end only stores and frees.  [cmds] is
    the command tree, [None] for NULL. *)
Record sieve_script_t (World Tree : Type) := {
  script_interp : sieve_interp_t World;
  support : Z;
  cmds : option Tree;
  err : Z
}.
Arguments script_interp {World Tree} _.
Arguments support {World Tree} _.
Arguments cmds {World Tree} _.
Arguments err {World Tree} _.

(** [sieveparse(s)]: its return value, the script structure as it leaves
    it, and the text its error reports left in the buffer handed over as
    script context. *)
Record parsed (World Tree : Type) := {
  p_ret : Z;
  p_script : sieve_script_t World Tree;
  p_errors : string
}.
Arguments p_ret {World Tree} _.
Arguments p_script {World Tree} _.
Arguments p_errors {World Tree} _.

(** What the front end takes from sieve.y, interp.c and lib/util.c:
    the parser, [interp_verify], [extension_isactive], the interpreter
    [sieve_build_nonexec_interp] fills with its stubs together with what
    [sieve_register_vacation] and [sieve_register_duplicate] answer for
    them, and [buf_release]. *)
Record frontend (World Tree : Type) := {
  interp_verify : sieve_interp_t World -> Z;
  SIEVE_CAPA_BASE : Z;
  extension_isactive : sieve_interp_t World -> string -> Z;
  sieveparse : scanner_input -> sieve_script_t World Tree -> parsed World Tree;
  stub_interp : sieve_interp_t World;
  register_stub_vacation : Z;
  register_stub_duplicate : Z;
  buf_release : string -> option string
}.
Arguments interp_verify {World Tree} _ _.
Arguments SIEVE_CAPA_BASE {World Tree} _.
Arguments extension_isactive {World Tree} _ _ _.
Arguments sieveparse {World Tree} _ _ _.
Arguments stub_interp {World Tree} _.
Arguments register_stub_vacation {World Tree} _.
Arguments register_stub_duplicate {World Tree} _.
Arguments buf_release {World Tree} _ _.

(** Ghost record of the heap objects the front end creates and destroys:
    the script structure ([xzmalloc] / [free]), the command tree (built by
    the parser, [free_tree]), the disposable interpreter
    ([sieve_interp_alloc] / [sieve_interp_free]) and the scanner buffer
    ([sieve_scan_string] / [sieve_delete_buffer]). *)
Inductive mem_event :=
| MAllocScript
| MFreeScript
| MParse (tree_built : bool)
| MFreeTree
| MAllocInterp
| MFreeInterp
| MScanString
| MDeleteBuffer.

(** The result of [_sieve_script_parse]: its return value, [*ret], the
    error text, the heap events. *)
Record parse_state (World Tree : Type) := {
  ps_res : Z;
  ps_ret : option (sieve_script_t World Tree);
  ps_errors : string;
  ps_mem : list mem_event
}.
Arguments ps_res {World Tree} _.
Arguments ps_ret {World Tree} _.
Arguments ps_errors {World Tree} _.
Arguments ps_mem {World Tree} _.

Definition crlf : string :=
  String (ascii_of_nat 13) (String (ascii_of_nat 10) EmptyString).

Section Frontend.

Context {World Tree : Type}.
Variable E : sieve_err.
Variable F : frontend World Tree.

Abbreviation script := (sieve_script_t World Tree).

(** [script_require]: the [int] it returns and the structure after it. *)
Definition script_require (s : script) (req : string) : Z * script :=
  let capa := extension_isactive F (script_interp s) req in
  (if Z.eqb capa 0 then 0 else 1,
   {| script_interp := script_interp s; support := Z.lor (support s) capa;
      cmds := cmds s; err := err s |}).

(** [free_tree(cl)]; a NULL list has nothing to free. *)
Definition free_tree (cl : option Tree) : list mem_event :=
  if is_some cl then [MFreeTree] else [].

(** [sieve_script_free(&s)]: [s] afterwards and the heap events. *)
Definition sieve_script_free (s : option script)
  : option script * list mem_event :=
  match s with
  | Some sc =>
      (None, (if is_some (cmds sc) then free_tree (cmds sc) else []) ++
             [MFreeScript])
  | None => (None, [])
  end.

(** [_sieve_script_parse], entered with [*ret] holding [ret]. *)
Definition _sieve_script_parse (input : scanner_input)
    (interp : sieve_interp_t World) (ret : option script)
  : parse_state World Tree :=
  let res := interp_verify F interp in
  if negb (Z.eqb res SIEVE_OK) then
    {| ps_res := res; ps_ret := ret; ps_errors := ""; ps_mem := [] |}
  else
    (* xzmalloc zeroes the structure *)
    let s0 := {| script_interp := interp; support := SIEVE_CAPA_BASE F;
                 cmds := None; err := 0 |} in
    let p := sieveparse F input s0 in
    let s := p_script p in
    let '(s, m1) :=
      if negb (Z.eqb (p_ret p) 0) then
        ({| script_interp := script_interp s; support := support s;
            cmds := None; err := err s |}, free_tree (cmds s))
      else (s, []) in
    let '(sp, res, m2) :=
      if Z.ltb 0 (err s) then
        let '(sp, m) := sieve_script_free (Some s) in
        (sp, SIEVE_PARSE_ERROR E, m)
      else (Some s, res, []) in
    {| ps_res := res; ps_ret := sp; ps_errors := p_errors p;
       ps_mem := MAllocScript :: MParse (is_some (cmds (p_script p))) ::
                 m1 ++ m2 |}.

Definition sieve_script_parse (interp : sieve_interp_t World)
    (stream : string) (ret : option script) : parse_state World Tree :=
  _sieve_script_parse (FromStream stream) interp ret.

(** [sieve_build_nonexec_interp]: the interpreter, [None] for NULL. *)
Definition sieve_build_nonexec_interp
  : option (sieve_interp_t World) * list mem_event :=
  if negb (Z.eqb (register_stub_vacation F) SIEVE_OK) then
    (None, [MAllocInterp; MFreeInterp])
  else if negb (Z.eqb (register_stub_duplicate F) SIEVE_OK) then
    (None, [MAllocInterp; MFreeInterp])
  else (Some (stub_interp F), [MAllocInterp]).

(** [_sieve_script_parse_only].  [out_errors] is what the caller's
    [char *] holds on entry; [out_script] is [None] for a NULL pointer and
    otherwise what the caller's [sieve_script_t *] holds.  The result is the
    return value, the two cells afterwards and the heap events. *)
Definition _sieve_script_parse_only (input : scanner_input)
    (interp : option (sieve_interp_t World)) (out_errors : option string)
    (out_script : option (option script))
  : Z * option string * option (option script) * list mem_event :=
  let '(myinterp, m0) :=
    match interp with
    | None => sieve_build_nonexec_interp
    | Some _ => (None, [])
    end in
  match (match interp with Some i => Some i | None => myinterp end) with
  | None => (SIEVE_FAIL E, out_errors, out_script, m0)
  | Some i =>
      let ps := _sieve_script_parse input i None in
      let '(out_errors, out_script, m1) :=
        if Z.eqb (ps_res ps) SIEVE_OK then
          match out_script with
          | Some _ => (None, Some (ps_ret ps), [])
          | None => (None, None, snd (sieve_script_free (ps_ret ps)))
          end
        else
          (buf_release F (ps_errors ps), out_script,
           snd (sieve_script_free (ps_ret ps))) in
      (ps_res ps, out_errors, out_script,
       m0 ++ ps_mem ps ++ m1 ++
       (if is_some myinterp then [MFreeInterp] else []))
  end.

Definition sieve_script_parse_only (stream : string)
    (out_errors : option string) (out_script : option (option script))
  : Z * option string * option (option script) * list mem_event :=
  let '(r, errors, out_script, m) :=
    _sieve_script_parse_only (FromStream stream) None out_errors out_script in
  let errors :=
    match errors with
    | Some text =>
        if negb (Z.eqb r 0) then Some ("script errors:" +++ crlf +++ text)
        else errors
    | None => None
    end in
  (r, errors, out_script, m).

Definition sieve_script_parse_string (interp : option (sieve_interp_t World))
    (s : string) (errors : option string)
    (script_arg : option (option script))
  : Z * option string * option (option script) * list mem_event :=
  (* if (!script) script = &myscript; *)
  let cell := match script_arg with None => Some None | Some c => Some c end in
  let '(res, errors, cell, m) :=
    _sieve_script_parse_only (FromString s) interp errors cell in
  let myscript :=
    match script_arg, cell with
    | None, Some c => c
    | _, _ => None
    end in
  (res, errors,
   match script_arg with None => None | Some _ => cell end,
   [MScanString] ++ m ++ snd (sieve_script_free myscript) ++ [MDeleteBuffer]).

End Frontend.

(** The heap objects live at some point: how many script structures,
    command trees, disposable interpreters and scanner buffers. *)
Record ledger := {
  scripts : nat;
  trees : nat;
  interps : nat;
  scan_buffers : nat
}.

Definition nothing_live : ledger :=
  {| scripts := 0; trees := 0; interps := 0; scan_buffers := 0 |}.

(** Replays heap events on a ledger; [None] when something is freed that
    is not live. *)
Fixpoint settle (l : list mem_event) (g : ledger) : option ledger :=
  match l with
  | [] => Some g
  | e :: rest =>
      match e with
      | MAllocScript =>
          settle rest {| scripts := S (scripts g); trees := trees g;
                         interps := interps g;
                         scan_buffers := scan_buffers g |}
      | MFreeScript =>
          match scripts g with
          | O => None
          | S k => settle rest {| scripts := k; trees := trees g;
                                  interps := interps g;
                                  scan_buffers := scan_buffers g |}
          end
      | MParse built =>
          settle rest {| scripts := scripts g;
                         trees := if built then S (trees g) else trees g;
                         interps := interps g;
                         scan_buffers := scan_buffers g |}
      | MFreeTree =>
          match trees g with
          | O => None
          | S k => settle rest {| scripts := scripts g; trees := k;
                                  interps := interps g;
                                  scan_buffers := scan_buffers g |}
          end
      | MAllocInterp =>
          settle rest {| scripts := scripts g; trees := trees g;
                         interps := S (interps g);
                         scan_buffers := scan_buffers g |}
      | MFreeInterp =>
          match interps g with
          | O => None
          | S k => settle rest {| scripts := scripts g; trees := trees g;
                                  interps := k;
                                  scan_buffers := scan_buffers g |}
          end
      | MScanString =>
          settle rest {| scripts := scripts g; trees := trees g;
                         interps := interps g;
                         scan_buffers := S (scan_buffers g) |}
      | MDeleteBuffer =>
          match scan_buffers g with
          | O => None
          | S k => settle rest {| scripts := scripts g; trees := trees g;
                                  interps := interps g; scan_buffers := k |}
          end
      end
  end.

(** What a caller that received script [sc] now owns. *)
Definition handed_over {World Tree : Type} (sc : sieve_script_t World Tree)
  : ledger :=
  {| scripts := 1; trees := if is_some (cmds sc) then 1 else 0;
     interps := 0; scan_buffers := 0 |}.

(** [script_require] for each requirement in turn. *)
Definition require_all {World Tree : Type} (F : frontend World Tree)
    (s : sieve_script_t World Tree) (reqs : list string)
  : sieve_script_t World Tree :=
  fold_left (fun s req => snd (script_require F s req)) reqs s.

Definition ledger_add (g h : ledger) : ledger :=
  {| scripts := scripts g + scripts h; trees := trees g + trees h;
     interps := interps g + interps h;
     scan_buffers := scan_buffers g + scan_buffers h |}.


(** The value a trace entry contributes to the status: what the call
    returned; nothing for the entry into a pass of the handler. *)
Definition call_status (e : event) : Z :=
  match e with
  | EvCall _ r => r
  | EvHandler _ _ => SIEVE_OK
  end.

(** [status] or-ed with what every call of [l] returned. *)
Definition or_statuses (status : Z) (l : list event) : Z :=
  fold_left Z.lor (map call_status l) status.

(** The blobs a list of releases frees. *)
Fixpoint frees (l : list release_event) : list Z :=
  match l with
  | [] => []
  | RelFreeBlob d :: rest => d :: frees rest
  | _ :: rest => frees rest
  end.

(** ** Sample data *)

(** The values compile_et derives for the error table [siev]. *)
Definition cyrus_err : sieve_err :=
  {| SIEVE_FAIL := -1237848064;
     SIEVE_NOT_FINALIZED := -1237848063;
     SIEVE_PARSE_ERROR := -1237848062;
     SIEVE_RUN_ERROR := -1237848061;
     SIEVE_INTERNAL_ERROR := -1237848060;
     SIEVE_NOMEM := -1237848059;
     SIEVE_DONE := -1237848058;
     SIEVE_SCRIPT_RELOADED := -1237848057 |}.

(** A directory with one compiled script, [a.bc] (inode 7, descriptor 3),
    and one file that can be stat'ed but not opened, [locked.bc]. *)
Definition sample_fs : filesystem :=
  {| fs_stat := fun f =>
       if String.eqb f "a.bc" then Some {| st_ino := 7; st_size := 4 |}
       else if String.eqb f "locked.bc"
            then Some {| st_ino := 9; st_size := 4 |}
       else None;
     fs_open := fun f => if String.eqb f "a.bc" then Some 3 else None;
     fs_fstat := fun d =>
       if Z.eqb d 3 then Some {| st_ino := 7; st_size := 4 |} else None;
     fs_map := fun _ _ => "CYRU" |}.

Definition sample_blob : sieve_bytecode_t :=
  {| inode := 7; data := "CYRU"; len := 4; fd := 3 |}.

Definition sample_handle : sieve_execute_t :=
  {| bc_list := [sample_blob]; bc_cur := Some 0%nat |}.

(** A host whose state is trivial and whose callbacks return [r]. *)
Definition const_cb {Ctx : Type} (r : Z) : sieve_callback unit Ctx :=
  fun _ errmsg w => {| cb_ret := r; cb_errmsg := errmsg; cb_world := w |}.

(** Every capability registered, every callback returning [SIEVE_OK]; the
    message has From, Subject, an envelope sender and one text part. *)
Definition sample_host : sieve_interp_t unit :=
  {| redirect := Some (const_cb 0);
     discard := Some (const_cb 0);
     reject := Some (const_cb 0);
     fileinto := Some (const_cb 0);
     snooze := Some (const_cb 0);
     keep := Some (const_cb 0);
     notify := Some (const_cb 0);
     vacation := Some {| autorespond := const_cb 0;
                         send_response := const_cb 0 |};
     duplicate := Some {| dup_check := const_cb 0; dup_track := const_cb 0 |};
     execute_err := Some (fun _ w => (0, w));
     getheader := Some (fun h =>
       if String.eqb h "From" then Some ["a@b"]
       else if String.eqb h "Subject" then Some ["Hello World"]
       else None);
     getenvelope := Some (fun h =>
       if String.eqb h "From" then Some ["env@b"] else None);
     getbody := Some (fun _ => Some [{| decoded_body := Some "Hello World" |}]);
     getfname := None;
     getheadersection := None;
     edited_headers := false |}.

(** [sample_host] with some slots replaced. *)
Definition with_actions (i : sieve_interp_t unit)
    (fil : option (sieve_callback unit sieve_fileinto_context_t))
    (dis : option (sieve_callback unit unit))
    (vac : option (sieve_vacation_t unit)) : sieve_interp_t unit :=
  {| redirect := redirect i; discard := dis; reject := reject i;
     fileinto := fil; snooze := snooze i; keep := keep i;
     notify := notify i; vacation := vac; duplicate := duplicate i;
     execute_err := execute_err i; getheader := getheader i;
     getenvelope := getenvelope i; getbody := getbody i;
     getfname := getfname i; getheadersection := getheadersection i;
     edited_headers := edited_headers i |}.

Definition with_keep (i : sieve_interp_t unit)
    (k : option (sieve_callback unit sieve_keep_context_t))
  : sieve_interp_t unit :=
  {| redirect := redirect i; discard := discard i; reject := reject i;
     fileinto := fileinto i; snooze := snooze i; keep := k;
     notify := notify i; vacation := vacation i; duplicate := duplicate i;
     execute_err := execute_err i; getheader := getheader i;
     getenvelope := getenvelope i; getbody := getbody i;
     getfname := getfname i; getheadersection := getheadersection i;
     edited_headers := edited_headers i |}.


(** [sample_host] without a fileinto callback. *)
Definition host_no_fileinto : sieve_interp_t unit :=
  with_actions sample_host None (discard sample_host) (vacation sample_host).

(** [sample_host] without a discard callback. *)
Definition host_no_discard : sieve_interp_t unit :=
  with_actions sample_host (fileinto sample_host) None (vacation sample_host).

(** [sample_host] whose autorespond answers [SIEVE_DONE]. *)
Definition host_vacation_done : sieve_interp_t unit :=
  with_actions sample_host (fileinto sample_host) (discard sample_host)
    (Some {| autorespond := const_cb (SIEVE_DONE cyrus_err);
             send_response := const_cb 0 |}).

(** [sample_host] whose fileinto fails with 5. *)
Definition host_fileinto_fails : sieve_interp_t unit :=
  with_actions sample_host (Some (const_cb 5)) (discard sample_host)
    (vacation sample_host).

Definition sample_union : action_union :=
  {| u_rej := {| rej_msg := "no" |};
     u_fil := {| mailbox := "INBOX/x"; fil_imapflags := [] |};
     u_snz := {| snz_mailbox := None |};
     u_keep := {| keep_imapflags := []; keep_headers := None |};
     u_red := {| addr := "c@d" |};
     u_vac_autoresp := {| ar_hash := "h"; ar_seconds := 60 |};
     u_vac_send := {| sr_addr := "a@b"; sr_subj := "Away"; sr_msg := "Back soon" |} |}.

Definition entry (k : action_t) (cancel : bool) : action_entry :=
  {| a := k; cancel_keep := cancel; u := sample_union |}.

(** The head node [new_action_list] returns. *)
Definition head_entry : action_entry := entry ACTION_NONE false.

Definition sample_notify : notify_entry :=
  {| isactive := true; method := Some "mailto"; from := None;
     options := Some ["x@y"]; priority := Some "normal";
     message := Some "From: $from$" |}.

(** The head node [new_notify_list] returns. *)
Definition head_notify : notify_entry :=
  {| isactive := false; method := None; from := None; options := None;
     priority := None; message := None |}.

Definition head_duptrack : duptrack_entry := {| id := None; seconds := 0 |}.

(** An evaluator that returns [r] after recording [acts], one notification
    and one duplicate-tracking record. *)
Definition sample_externals (r : Z) (acts : list action_entry)
  : externals unit :=
  {| charset_parse_mimeheader := fun s => s;
     new_action_list := [head_entry];
     new_notify_list := [head_notify];
     new_duptrack_list := [head_duptrack];
     sieve_eval_bc := fun _ actions nl dl w =>
       {| ev_ret := r;
          ev_actions := actions ++ acts;
          ev_notify := nl ++ [sample_notify];
          ev_duptrack := dl ++ [{| id := Some "msg-1"; seconds := 60 |}];
          ev_errmsg := None;
          ev_imapflags := [];
          ev_lastitem := None;
          ev_world := w |} |}.

Definition state0 : dstate unit :=
  {| world := tt; log := []; actions_string := ""; lastitem := None |}.

(** Case analysis on the capability slot the goal mentions. *)
Ltac slot_cases i :=
  try (match goal with |- context [reject i] => destruct (reject i) end);
  try (match goal with |- context [fileinto i] => destruct (fileinto i) end);
  try (match goal with |- context [snooze i] => destruct (snooze i) end);
  try (match goal with |- context [keep i] => destruct (keep i) end);
  try (match goal with |- context [redirect i] => destruct (redirect i) end);
  try (match goal with |- context [discard i] => destruct (discard i) end);
  try (match goal with |- context [vacation i] => destruct (vacation i) end).

(** [sample_externals] on a host where [new_action_list] returns NULL. *)
Definition externals_no_memory : externals unit :=
  {| charset_parse_mimeheader := fun s => s;
     new_action_list := [];
     new_notify_list := [head_notify];
     new_duptrack_list := [head_duptrack];
     sieve_eval_bc := sieve_eval_bc (sample_externals 0 []) |}.

(** A front end whose parser accepts the script [keep;] and reports one
    error on anything else, leaving a partial tree behind; its stub
    interpreter registers without error and the extension [fileinto] is
    active. *)
Definition sample_frontend : frontend unit unit :=
  {| interp_verify := fun _ => 0;
     SIEVE_CAPA_BASE := 1;
     extension_isactive := fun _ req =>
       if String.eqb req "fileinto" then 2 else 0;
     sieveparse := fun input s =>
       let text := match input with
                   | FromStream c => c
                   | FromString c => c
                   end in
       if String.eqb text "keep;" then
         {| p_ret := 0;
            p_script := {| script_interp := script_interp s;
                           support := support s; cmds := Some tt; err := 0 |};
            p_errors := "" |}
       else
         {| p_ret := 1;
            p_script := {| script_interp := script_interp s;
                           support := support s; cmds := Some tt; err := 1 |};
            p_errors := "line 1: syntax error" +++ crlf |};
     stub_interp := sample_host;
     register_stub_vacation := 0;
     register_stub_duplicate := 0;
     buf_release := fun text => Some text |}.

(** * Properties *)

(** ** Bytecode cache *)

Section CacheProperties.

Variable E : sieve_err.

Lemma find_inode_some (ino : Z) (l : list sieve_bytecode_t) (k : nat) :
  find_inode ino l = Some k ->
  exists bc, nth_error l k = Some bc /\ inode bc = ino.
Proof.
  revert k. induction l as [|b l IH]; intros k H; simpl in H.
  - discriminate.
  - destruct (Z.eqb_spec ino (inode b)) as [Heq|Hne].
    + injection H as <-. exists b. split; [reflexivity | now symmetry].
    + destruct (find_inode ino l) as [k'|] eqn:Hf; [|discriminate].
      injection H as <-. simpl. apply IH. reflexivity.
Qed.

Lemma find_inode_none (ino : Z) (l : list sieve_bytecode_t) :
  find_inode ino l = None <-> (forall bc, In bc l -> inode bc <> ino).
Proof.
  induction l as [|b l IH]; simpl.
  - split; [intros _ bc [] | reflexivity].
  - destruct (Z.eqb_spec ino (inode b)) as [Heq|Hne].
    + split; [discriminate|]. intros H. exfalso.
      apply (H b); [now left | now symmetry].
    + destruct (find_inode ino l) as [k|]; simpl.
      * split; [discriminate|]. intros H.
        destruct IH as [_ IH]. discriminate IH.
        intros bc Hin. apply H. now right.
      * split; [|reflexivity]. intros _ bc [<-|Hin].
        -- intros Hb. apply Hne. now symmetry.
        -- destruct IH as [IH _]. now apply IH.
Qed.

(** C2.  A file whose inode is already in the handle's blob list: the call
    returns [SIEVE_SCRIPT_RELOADED], the list is the same, the cursor names a
    blob of the list with that inode, and [stat] is the only system call (no
    descriptor opened, nothing mapped).  A file whose inode is not in the
    list, and which is opened and fstat'ed: the call returns [SIEVE_OK], a
    new blob for that descriptor, holding the mapping, is at the front of
    the list and is the current one. *)
Theorem load_reloaded_or_prepended (fs : filesystem) (fname : string)
    (h : option sieve_execute_t) (sbuf : stat_t) :
  fs_stat fs fname = Some sbuf ->
  ((exists bc, In bc (handle_blobs h) /\ inode bc = st_ino sbuf) ->
   exists h' bc,
     sieve_script_load E fs (Some fname) (Some h)
       = (SIEVE_SCRIPT_RELOADED E, Some (Some h'), [IoStat fname]) /\
     bc_list h' = handle_blobs h /\
     handle_cur (Some h') = Some bc /\
     In bc (handle_blobs h) /\ inode bc = st_ino sbuf)
  /\
  ((forall bc, In bc (handle_blobs h) -> inode bc <> st_ino sbuf) ->
   forall (d : Z) (sbuf' : stat_t),
     fs_open fs fname = Some d -> fs_fstat fs d = Some sbuf' ->
     exists h' bc evs,
       sieve_script_load E fs (Some fname) (Some h)
         = (SIEVE_OK, Some (Some h'), evs) /\
       bc_list h' = bc :: handle_blobs h /\
       handle_cur (Some h') = Some bc /\
       bc = {| inode := st_ino sbuf'; data := fs_map fs d (st_size sbuf');
               len := st_size sbuf'; fd := d |} /\
       filter is_mapping evs = [IoOpen fname; IoMap d]).
Proof.
  intros Hstat. split.
  - intros (bc & Hin & Hino).
    destruct h as [ex|]; [|destruct Hin].
    simpl in Hin.
    destruct (find_inode (st_ino sbuf) (bc_list ex)) as [k|] eqn:Hf.
    + destruct (find_inode_some _ _ _ Hf) as (bc' & Hnth & Hino').
      exists {| bc_list := bc_list ex; bc_cur := Some k |}, bc'.
      unfold sieve_script_load. rewrite Hstat, Hf. simpl.
      repeat split; try assumption.
      eapply nth_error_In; eassumption.
    + exfalso. rewrite find_inode_none in Hf. exact (Hf bc Hin Hino).
  - intros Habs d sbuf' Hopen Hfstat.
    apply find_inode_none in Habs.
    unfold sieve_script_load. rewrite Hstat.
    destruct h as [ex|]; simpl in Habs |- *; rewrite ?Habs, Hopen, Hfstat;
      eexists _, _, _; repeat split; reflexivity.
Qed.

(** Loading a file into a handle that does not hold its inode, then loading
    it again under the handle the first call left: the second call reports
    the reload, changes nothing and only calls [stat]. *)
Lemma load_twice (fs : filesystem) (fname : string)
    (h : option sieve_execute_t) (sbuf sbuf' : stat_t) (d : Z) :
  fs_stat fs fname = Some sbuf ->
  find_inode (st_ino sbuf) (handle_blobs h) = None ->
  fs_open fs fname = Some d -> fs_fstat fs d = Some sbuf' ->
  st_ino sbuf' = st_ino sbuf ->
  let first := sieve_script_load E fs (Some fname) (Some h) in
  let second := sieve_script_load E fs (Some fname) (snd (fst first)) in
  fst (fst first) = SIEVE_OK /\
  second = (SIEVE_SCRIPT_RELOADED E, snd (fst first), [IoStat fname]).
Proof.
  intros Hstat Hf Hopen Hfstat Hino. cbv zeta.
  assert (H1 : exists evs,
            sieve_script_load E fs (Some fname) (Some h)
            = (SIEVE_OK,
               Some (Some {| bc_list :=
                               {| inode := st_ino sbuf';
                                  data := fs_map fs d (st_size sbuf');
                                  len := st_size sbuf'; fd := d |}
                               :: handle_blobs h;
                             bc_cur := Some 0%nat |}), evs)).
  { unfold sieve_script_load. rewrite Hstat.
    destruct h as [ex|]; simpl in Hf |- *; rewrite ?Hf, Hopen, Hfstat; eauto. }
  destruct H1 as (evs & H1). rewrite H1. cbn [fst snd].
  split; [reflexivity|].
  unfold sieve_script_load. rewrite Hstat. cbn [bc_list find_inode inode].
  rewrite Hino, Z.eqb_refl. reflexivity.
Qed.

(** C10.  A call that returns [SIEVE_FAIL] leaves the caller's handle
    variable as it was and maps nothing; and each of the five failures (NULL
    path, NULL out-pointer, [stat], [open], [fstat]) does return
    [SIEVE_FAIL]. *)
Theorem load_fail_leaves_handle (fs : filesystem) (fname : option string)
    (ret : option (option sieve_execute_t)) :
  SIEVE_FAIL E <> SIEVE_OK ->
  SIEVE_FAIL E <> SIEVE_SCRIPT_RELOADED E ->
  let '(r, ret', evs) := sieve_script_load E fs fname ret in
  (r = SIEVE_FAIL E ->
   ret' = ret /\ forall d, ~ In (IoMap d) evs) /\
  (r = SIEVE_FAIL E <->
   fname = None \/ ret = None \/
   exists f h, fname = Some f /\ ret = Some h /\
     (fs_stat fs f = None \/
      exists sbuf, fs_stat fs f = Some sbuf /\
        find_inode (st_ino sbuf) (handle_blobs h) = None /\
        (fs_open fs f = None \/
         exists d, fs_open fs f = Some d /\ fs_fstat fs d = None))).
Proof.
  intros Hok Hrel.
  destruct fname as [f|].
  2:{ simpl. split; [intros _; split; [reflexivity | intros d []] |].
      split; auto. }
  destruct ret as [h|].
  2:{ simpl. split; [intros _; split; [reflexivity | intros d []] |].
      split; auto. }
  unfold sieve_script_load.
  destruct (fs_stat fs f) as [sbuf|] eqn:Hstat.
  2:{ split; [intros _; split; [reflexivity|] |].
      - intros d [H|[]]; discriminate H.
      - split; [intros _ | reflexivity]. right; right. exists f, h. auto. }
  set (ex := match h with
             | Some ex => ex
             | None => {| bc_list := []; bc_cur := None |}
             end).
  assert (Hblobs : bc_list ex = handle_blobs h) by (destruct h; reflexivity).
  assert (Hshape : forall (T : Type)
            (k : sieve_execute_t -> bool -> list io_event -> T),
            (let '(ex0, dofree, ev0) :=
               match h with
               | Some ex0 => (ex0, false, [IoStat f])
               | None => ({| bc_list := []; bc_cur := None |}, true,
                          [IoStat f; IoAllocHandle])
               end in k ex0 dofree ev0)
            = k ex (is_nil (handle_blobs h) && negb (is_some h))
                (IoStat f :: if is_some h then [] else [IoAllocHandle])).
  { intros T k. destruct h as [e0|]; simpl; [|reflexivity].
    subst ex. simpl. destruct (bc_list e0); reflexivity. }
  rewrite (Hshape _ (fun ex0 dofree ev0 =>
    match find_inode (st_ino sbuf) (bc_list ex0) with
    | Some k => _
    | None => _
    end)).
  clear Hshape. rewrite Hblobs.
  set (ev0 := IoStat f :: _).
  assert (Hev0 : forall d, ~ In (IoMap d) ev0).
  { intros d [H|H]; [discriminate H|].
    destruct (is_some h); [destruct H|]. destruct H as [H|[]]. discriminate H. }
  destruct (find_inode (st_ino sbuf) (handle_blobs h)) as [k|] eqn:Hf.
  { split; [intros H; exfalso; now apply Hrel|].
    split; [intros H; exfalso; now apply Hrel|].
    intros [H|[H|(f' & h' & Hf' & Hh' & H)]]; try discriminate.
    injection Hf' as <-. injection Hh' as <-.
    destruct H as [H|(sb & Hs & Hfi & _)]; congruence. }
  destruct (fs_open fs f) as [d|] eqn:Hopen.
  2:{ split.
      - intros _. split; [reflexivity|]. intros d H.
        apply in_app_or in H. destruct H as [H|H]; [exact (Hev0 d H)|].
        destruct H as [H|H]; [discriminate H|].
        destruct (_ && _); [destruct H as [H|[]]; discriminate H | destruct H].
      - split; [intros _ | reflexivity]. right; right. exists f, h.
        split; [reflexivity|]. split; [reflexivity|]. right. exists sbuf. auto. }
  destruct (fs_fstat fs d) as [sbuf'|] eqn:Hfstat.
  - split; [intros H; exfalso; now apply Hok|].
    split; [intros H; exfalso; now apply Hok|].
    intros [H|[H|(f' & h' & Hf' & Hh' & H)]]; try discriminate.
    injection Hf' as <-. injection Hh' as <-.
    destruct H as [H|(sb & Hs & Hfi & [H|(d' & Ho & Hfs)])]; congruence.
  - split.
    + intros _. split; [reflexivity|]. intros d' H.
      apply in_app_or in H. destruct H as [H|H]; [exact (Hev0 d' H)|].
      simpl in H.
      repeat (destruct H as [H|H]; [discriminate H|]).
      destruct (_ && _); [destruct H as [H|[]]; discriminate H | destruct H].
    + split; [intros _ | reflexivity]. right; right. exists f, h.
      split; [reflexivity|]. split; [reflexivity|]. right. exists sbuf.
      split; [assumption|]. split; [assumption|]. right. exists d. auto.
Qed.

End CacheProperties.

(** ** Notification builder *)

Section BuilderProperties.

Context {World : Type}.
Variable X : externals World.
Variable i : sieve_interp_t World.

Lemma append_nil_r (s : string) : s +++ "" = s.
Proof. induction s as [|x s IH]; simpl; [reflexivity | now rewrite IH]. Qed.

Lemma append_assoc3 (s t w : string) : (s +++ t) +++ w = s +++ t +++ w.
Proof. induction s as [|x s IH]; simpl; [reflexivity | now rewrite IH]. Qed.

Lemma take_drop (n : nat) (c : string) : take n c +++ drop n c = c.
Proof.
  revert c. induction n as [|n IH]; intros [|x c]; simpl; try reflexivity.
  now rewrite IH.
Qed.

Lemma length_drop (n : nat) (c : string) :
  String.length (drop n c) = (String.length c - n)%nat.
Proof.
  revert c. induction n as [|n IH]; intros [|x c]; simpl; auto with arith.
Qed.

Lemma scan_count_suffix (c : string) (n m : Z) (c' : string) :
  scan_count c n = Ret (m, c') ->
  (String.length c' <= String.length c)%nat.
Proof.
  revert n. induction c as [|x c IH]; intros n H; simpl in H.
  - discriminate.
  - destruct (Ascii.eqb x "]").
    + injection H as _ <-. simpl. lia.
    + apply IH in H. simpl. lia.
Qed.

Lemma scan_count_finishes (c : string) (n : Z) :
  finishes (scan_count c n) = true.
Proof.
  revert n. induction c as [|x c IH]; intros n; simpl.
  - reflexivity.
  - destruct (Ascii.eqb x "]"); [reflexivity | apply IH].
Qed.

(** [add_header] faults on a NULL accessor and otherwise returns. *)
Lemma add_header_cases (isenv : bool) (header : string) (out : buf) :
  add_header X i isenv header out = Fault \/
  exists o, add_header X i isenv header out = Ret o.
Proof.
  unfold add_header.
  destruct (if isenv then getenvelope i else getheader i) as [get|];
    [|now left].
  right. destruct (get header) as [[|h0 hs]|]; eauto.
Qed.

(** The loop never exhausts [fuel = strlen(msg)]: every pass moves [c]
    forward. *)
Lemma build_loop_finishes (fuel : nat) (c : string) (out : buf) :
  (String.length c <= fuel)%nat ->
  finishes (build_loop X i fuel c out) = true.
Proof.
  revert c out. induction fuel as [|fuel IH]; intros c out Hlen.
  - destruct c; [reflexivity | simpl in Hlen; lia].
  - destruct c as [|x c]; [reflexivity|].
    cbn [build_loop].
    assert (Hdrop : forall n out', (1 <= n)%nat ->
              finishes (build_loop X i fuel (drop n (String x c)) out') = true).
    { intros n out' Hn. apply IH. rewrite length_drop.
      cbn [String.length] in *. lia. }
    assert (Hhdr : forall isenv header n, (1 <= n)%nat ->
              finishes (out' <- add_header X i isenv header out ;;
                        build_loop X i fuel (drop n (String x c)) out')
              = true).
    { intros isenv header n Hn.
      destruct (add_header_cases isenv header out) as [Hf|(o & Ho)];
        rewrite ?Hf, ?Ho; cbn [bind]; [reflexivity | now apply Hdrop]. }
    destruct (caseprefix "$from$" (String x c)); [now apply Hhdr; lia|].
    destruct (caseprefix "$env-from$" (String x c)); [now apply Hhdr; lia|].
    destruct (caseprefix "$subject$" (String x c)); [now apply Hhdr; lia|].
    destruct (getbody i) as [getb|]; [|now apply Hdrop; lia].
    destruct (caseprefix "$text" (String x c) && _); [|now apply Hdrop; lia].
    destruct (Ascii.eqb (char_at 5 (String x c)) "["); [|now apply Hdrop; lia].
    destruct (scan_count (drop 6 (String x c)) 0) as [[n c']| |] eqn:Hs.
    + destruct c' as [|y [|z c'']]; try reflexivity.
      apply IH. apply scan_count_suffix in Hs.
      rewrite length_drop in Hs. cbn [String.length] in *. lia.
    + reflexivity.
    + pose proof (scan_count_finishes (drop 6 (String x c)) 0) as Hf.
      rewrite Hs in Hf. discriminate.
Qed.

Lemma literal_drop (n : nat) (c : string) :
  literal i c = true -> literal i (drop n c) = true.
Proof.
  revert c. induction n as [|n IH]; intros [|x c] H; simpl; auto.
  apply IH. simpl in H. apply andb_true_iff in H. apply H.
Qed.

Lemma build_loop_literal (fuel : nat) (c : string) (out : buf) :
  (String.length c <= fuel)%nat -> literal i c = true ->
  exists out', build_loop X i fuel c out = Ret out' /\
               buf_s out' = buf_s out +++ c.
Proof.
  revert c out. induction fuel as [|fuel IH]; intros c out Hlen Hlit.
  - destruct c; [|simpl in Hlen; lia].
    exists out. split; [reflexivity | now rewrite append_nil_r].
  - destruct c as [|x c].
    { exists out. split; [reflexivity | now rewrite append_nil_r]. }
    pose proof Hlit as Hlit'.
    cbn [literal] in Hlit. apply andb_true_iff in Hlit.
    destruct Hlit as [Htok Hrest]. apply negb_true_iff in Htok.
    unfold token_start in Htok.
    repeat (apply orb_false_iff in Htok; destruct Htok as [Htok ?]).
    cbn [build_loop].
    rewrite Htok.
    match goal with H : caseprefix "$env-from$" _ = false |- _ => rewrite H end.
    match goal with H : caseprefix "$subject$" _ = false |- _ => rewrite H end.
    set (n := S (strcspn_dollar (drop 1 (String x c)))).
    assert (Hstep : exists out',
              build_loop X i fuel (drop n (String x c))
                         (buf_appendmap out (String x c) n) = Ret out' /\
              buf_s out' = buf_s out +++ String x c).
    { destruct (IH (drop n (String x c)) (buf_appendmap out (String x c) n))
        as (out' & Hb & Hs).
      - rewrite length_drop. subst n. cbn [String.length] in *. lia.
      - now apply literal_drop.
      - exists out'. split; [exact Hb|]. rewrite Hs.
        unfold buf_appendmap; cbn [buf_s].
        now rewrite append_assoc3, take_drop. }
    destruct (getbody i) as [getb|]; [|exact Hstep].
    simpl is_some in *.
    match goal with H : true && _ && _ = false |- _ =>
      rewrite andb_true_l in H; rewrite H end.
    exact Hstep.
Qed.

(** X18: plain text is copied as it is: for a template in which no position
    matches one of the loop's tests, the buffer ends up holding the template,
    terminated. *)
Lemma build_notify_message_literal (msg : string) :
  literal i msg = true ->
  build_notify_message X i (Some msg) BUF_INITIALIZER
    = Ret (SIEVE_OK, {| buf_s := msg; buf_terminated := true |}).
Proof.
  intros Hlit. unfold build_notify_message.
  destruct (build_loop_literal (String.length msg) msg BUF_INITIALIZER
              (le_n _) Hlit) as (out' & Hb & Hs).
  rewrite Hb. simpl. unfold buf_cstring. rewrite Hs. reflexivity.
Qed.

(** Whatever a template expands to, the buffer the builder hands back has
    had its terminating NUL written; the builder itself never runs out of
    fuel, and without a body accessor it cannot fault. *)
Lemma build_notify_message_terminated (msg : string) (out : buf) :
  finishes (build_notify_message X i (Some msg) out) = true /\
  (forall r out', build_notify_message X i (Some msg) out = Ret (r, out') ->
                  r = SIEVE_OK /\ buf_terminated out' = true).
Proof.
  unfold build_notify_message.
  pose proof (build_loop_finishes (String.length msg) msg out (le_n _)) as Hf.
  destruct (build_loop X i (String.length msg) msg out) as [o| |];
    simpl in *; try discriminate; split; try reflexivity.
  - intros r out' H. injection H as <- <-. split; reflexivity.
  - intros r out' H. discriminate.
Qed.

(** A header placeholder whose header the message lacks adds nothing. *)
Lemma add_header_absent (isenv : bool) (header : string) (out : buf)
    (get : string -> option (list string)) :
  (if isenv then getenvelope i else getheader i) = Some get ->
  get header = None \/ get header = Some [] ->
  add_header X i isenv header out = Ret out.
Proof.
  unfold add_header. intros -> [H|H]; rewrite H; reflexivity.
Qed.







End BuilderProperties.

(** C7, at the inputs where it fails.  Neither template contains one of
    the documented tokens, and the interpreter has a body accessor.  A
    template ending in an unclosed [$text[] sends the digit loop past the end
    of the string: there is no output at all.  And [$text[5]!] is not
    copied: the two bytes after the digits are skipped whatever they are,
    and the first five bytes of the body come out instead. *)
Example build_notify_message_unclosed_text :
  (spec_literal "$text[" = true /\
   build_notify_message (sample_externals 0 []) sample_host (Some "$text[")
                        BUF_INITIALIZER = Fault) /\
  (spec_literal "$text[5]!" = true /\
   build_notify_message (sample_externals 0 []) sample_host
                        (Some "$text[5]!") BUF_INITIALIZER
     = Ret (SIEVE_OK, {| buf_s := "Hello"; buf_terminated := true |})).
Proof. repeat split. Qed.

(** ** Action dispatcher *)

Section DispatchProperties.

Context {World : Type}.
Variable E : sieve_err.
Variable X : externals World.

Implicit Types (i : sieve_interp_t World) (st : dstate World).

Lemma count_app (f : event -> bool) (l1 l2 : list event) :
  count f (l1 ++ l2) = (count f l1 + count f l2)%nat.
Proof. unfold count. now rewrite filter_app, length_app. Qed.

Lemma notify_calls_app (l1 l2 : list event) :
  notify_calls (l1 ++ l2) = notify_calls l1 ++ notify_calls l2.
Proof.
  induction l1 as [|e l1 IH]; simpl; [reflexivity|].
  destruct e as [[] r|]; simpl; now rewrite ?IH.
Qed.

(** [ret |= x] keeps the bits of [ret]. *)
Lemma lor_absorb (p q : Z) : Z.lor p (Z.lor p q) = Z.lor p q.
Proof. now rewrite Z.lor_assoc, Z.lor_diag. Qed.

Lemma lor_trans (p q r : Z) :
  Z.lor p q = q -> Z.lor q r = r -> Z.lor p r = r.
Proof. intros H1 H2. rewrite <- H2, Z.lor_assoc, H1. reflexivity. Qed.

Lemma send_notify_callback_ret i cb n errmsg st r errmsg' st' :
  send_notify_callback E X i cb n errmsg st = Ret (r, errmsg', st') ->
  actions_string st' = actions_string st /\
  lastitem st' = lastitem st /\
  ((deliverable n = true /\
    exists nc, log st' = log st ++ [EvCall (CallNotify nc) r] /\
               method n = Some (nc_method nc))
   \/
   (deliverable n = false /\ isactive n = true /\ st' = st /\
    r = SIEVE_RUN_ERROR E)).
Proof.
  unfold send_notify_callback, deliverable.
  destruct (isactive n); cbn [negb andb]; [|discriminate].
  destruct (method n) as [m|], (options n) as [o|], (priority n) as [p|],
           (message n) as [msg|]; cbn [is_some andb];
    try (intros H; inversion H; subst; repeat split; right; auto).
  destruct (if String.eqb m "mailto" && first_is_env_from o then _ else _)
    as [opts'| |]; cbn [bind]; try discriminate.
  destruct (build_notify_message X i (Some msg) BUF_INITIALIZER)
    as [r0| |]; cbn [bind]; try discriminate.
  intros H. inversion H; subst. cbn [set_world log actions_string lastitem].
  repeat split. left. split; [reflexivity|]. eexists. split; reflexivity.
Qed.

Lemma notify_loop_ret i cb l v v' :
  notify_loop E X i cb l v = Ret v' ->
  exists evs,
    log (nv_state v') = log (nv_state v) ++ evs /\
    forallb is_notify_call evs = true /\
    map (fun nc => Some (nc_method nc)) (notify_calls evs)
      = map method (filter deliverable l) /\
    Z.lor (nv_ret v) (nv_ret v') = nv_ret v' /\
    actions_string (nv_state v') = actions_string (nv_state v) /\
    lastitem (nv_state v') = lastitem (nv_state v).
Proof.
  revert v. induction l as [|n l IH]; intros v H; simpl in H.
  - injection H as <-. exists []. rewrite app_nil_r, Z.lor_diag. repeat split; reflexivity.
  - destruct (isactive n) eqn:Hact.
    + destruct (send_notify_callback E X i cb n (nv_errmsg v) (nv_state v))
        as [[[r em] st1]| |] eqn:Hs; simpl in H; try discriminate.
      apply send_notify_callback_ret in Hs.
      destruct Hs as (Has & Hli & Hs).
      apply IH in H. destruct H as (evs & Hlog & Hall & Hmap & Hlor & Has' & Hli').
      simpl in Hlog, Hlor, Has', Hli'.
      assert (Hlor' : Z.lor (nv_ret v) (nv_ret v') = nv_ret v').
      { eapply lor_trans; [|exact Hlor]. apply lor_absorb. }
      destruct Hs as [(Hd & nc & Hl1 & Hm)|(Hd & _ & -> & _)].
      * exists (EvCall (CallNotify nc) r :: evs).
        rewrite Hlog, Hl1, <- app_assoc. simpl. rewrite Hd. simpl.
        rewrite Hmap, Hm. repeat split; auto; congruence.
      * exists evs. simpl. rewrite Hd. repeat split; auto; congruence.
    + apply IH in H. destruct H as (evs & H). exists evs.
      simpl. unfold deliverable at 1. rewrite Hact. simpl. exact H.
Qed.

Lemma notify_phase_ret i nl v v' :
  notify_phase E X i nl v = Ret v' ->
  (notifies i nl = false -> v' = v) /\
  exists evs,
    log (nv_state v') = log (nv_state v) ++ evs /\
    forallb is_notify_call evs = true /\
    map (fun nc => Some (nc_method nc)) (notify_calls evs)
      = (if notifies i nl then map method (filter deliverable nl) else []) /\
    Z.lor (nv_ret v) (nv_ret v') = nv_ret v' /\
    actions_string (nv_state v') = actions_string (nv_state v) /\
    lastitem (nv_state v') = lastitem (nv_state v).
Proof.
  unfold notify_phase, notifies.
  destruct (notify i) as [cb|]; cbn [is_some andb].
  - destruct nl as [|n nl]; cbn [is_nil negb].
    + intros H. injection H as <-. split; [reflexivity|].
      exists []. rewrite app_nil_r, Z.lor_diag. repeat split; reflexivity.
    + intros H. split; [discriminate|]. now apply notify_loop_ret in H.
  - intros H. injection H as <-. split; [reflexivity|].
    exists []. rewrite app_nil_r, Z.lor_diag. repeat split; reflexivity.
Qed.

Lemma report_error_ret i lastaction ret errmsg st r st' :
  report_error E i lastaction ret errmsg st = (r, st') ->
  Z.lor ret r = r /\
  actions_string st' = actions_string st /\
  ((r = ret /\ st' = st) \/
   exists text x, ret <> SIEVE_OK /\
     log st' = log st ++ [EvCall (CallExecuteErr text) x]).
Proof.
  unfold report_error.
  destruct (execute_err i) as [cb|].
  - destruct (Z.eqb_spec ret SIEVE_OK) as [Heq|Hne].
    + intros H. injection H as <- <-. rewrite Z.lor_diag. auto.
    + destruct (cb _ (world st)) as [x w] eqn:Hcb.
      intros H. injection H as <- <-. simpl.
      split; [apply lor_absorb|]. split; [reflexivity|].
      right. eauto.
  - intros H. injection H as <- <-. rewrite Z.lor_diag. auto.
Qed.

Lemma failure_line_log ret lastaction errmsg st :
  log (failure_line E ret lastaction errmsg st) = log st.
Proof.
  unfold failure_line. destruct (Z.eqb ret SIEVE_OK); [reflexivity|].
  destruct (never_acted lastaction); reflexivity.
Qed.

Lemma forallb_weaken (f g : event -> bool) (l : list event) :
  (forall e, f e = true -> g e = true) ->
  forallb f l = true -> forallb g l = true.
Proof.
  intros Hfg. rewrite !forallb_forall. auto.
Qed.

Lemma count_none (f g : event -> bool) (l : list event) :
  (forall e, g e = true -> f e = false) ->
  forallb g l = true -> count f l = 0%nat.
Proof.
  intros Hgf. unfold count. induction l as [|e l IH]; simpl; [reflexivity|].
  intros H. apply andb_true_iff in H. destruct H as [He Hl].
  rewrite (Hgf e He). auto.
Qed.

Lemma notify_calls_none (g : event -> bool) (l : list event) :
  (forall e, g e = true -> is_notify_call e = false) ->
  forallb g l = true -> notify_calls l = [].
Proof.
  intros Hg. induction l as [|e l IH]; simpl; [reflexivity|].
  intros H. apply andb_true_iff in H. destruct H as [He Hl].
  specialize (Hg e He). destruct e as [[] r|]; simpl in *; auto; discriminate.
Qed.

Lemma notifies_cleared i nl :
  notifies i (if notifies i nl then [] else nl) = false.
Proof.
  destruct (notifies i nl) eqn:H; [|exact H].
  unfold notifies. simpl. apply andb_false_r.
Qed.

(** What one call of [do_sieve_error] adds to the trace, when it returns:
    only handler events; one implicit keep if it was entered with implicit
    keep enabled and none otherwise; the notify callback once for each
    deliverable entry, in list order, if notifications were pending and not
    at all otherwise; and a status that keeps the bits of the one it was
    entered with. *)
Lemma do_sieve_error_ret (fuel : nat) :
  forall ret i flags nl la ik em st r st',
  do_sieve_error E X fuel ret i flags nl la ik em st = Ret (r, st') ->
  exists evs,
    log st' = log st ++ evs /\
    forallb is_handler_event evs = true /\
    count is_implicit_keep evs = (if ik then 1 else 0)%nat /\
    map (fun nc => Some (nc_method nc)) (notify_calls evs)
      = (if notifies i nl then map method (filter deliverable nl) else []) /\
    Z.lor ret r = r.
Proof.
  induction fuel as [|fuel IH]; intros ret i flags nl la ik em st r st' H;
    [discriminate|].
  cbn [do_sieve_error] in H.
  set (st1 := failure_line E ret la em _) in H.
  assert (Hst1 : log st1 = log st ++ [EvHandler (negb (is_nil nl)) ik]).
  { subst st1. now rewrite failure_line_log. }
  clearbody st1.
  destruct (notify_phase E X i nl _) as [v| |] eqn:Hn; cbn [bind] in H;
    try discriminate.
  apply notify_phase_ret in Hn.
  destruct Hn as (_ & evn & Hlogn & Halln & Hmapn & Hlorn & _ & _).
  cbn [nv_state nv_ret] in Hlogn, Hlorn.
  assert (Hn_h : forallb is_handler_event evn = true).
  { revert Halln. apply forallb_weaken. intros [[] ?|]; simpl; auto. }
  assert (Hn_k : count is_implicit_keep evn = 0%nat).
  { revert Halln. apply count_none. intros [[] ?|]; simpl; auto; discriminate. }
  destruct (notifies i nl && negb (Z.eqb (nv_notify_ret v) SIEVE_OK)) eqn:Hre.
  - apply IH in H. destruct H as (ev2 & Hlog2 & Hall2 & Hk2 & Hmap2 & Hlor2).
    rewrite notifies_cleared in Hmap2.
    exists (EvHandler (negb (is_nil nl)) ik :: evn ++ ev2).
    rewrite Hlog2, Hlogn, Hst1, <- !app_assoc. simpl.
    split; [reflexivity|].
    rewrite forallb_app, Hn_h, Hall2.
    split; [reflexivity|].
    change (count is_implicit_keep (EvHandler (negb (is_nil nl)) ik :: evn ++ ev2))
      with (count is_implicit_keep (evn ++ ev2)).
    rewrite count_app, Hn_k, Hk2.
    split; [reflexivity|].
    rewrite notify_calls_app, map_app, Hmapn.
    apply map_eq_nil in Hmap2. rewrite Hmap2, app_nil_r.
    split; [reflexivity|].
    eapply lor_trans; eassumption.
  - destruct (report_error E i (nv_lastaction v) (nv_ret v) (nv_errmsg v)
                (nv_state v)) as [ret2 st2] eqn:Hrep.
    apply report_error_ret in Hrep. destruct Hrep as (Hlorr & _ & Hrep).
    assert (Hrep' : exists eve, log st2 = log (nv_state v) ++ eve /\
              forallb is_handler_event eve = true /\
              count is_implicit_keep eve = 0%nat /\ notify_calls eve = []).
    { destruct Hrep as [(_ & ->)|(text & x & _ & Hl)].
      - exists []. rewrite app_nil_r. repeat split; reflexivity.
      - exists [EvCall (CallExecuteErr text) x]. repeat split; auto. }
    clear Hrep. destruct Hrep' as (eve & Hloge & Halle & Hke & Hne).
    assert (Hlor02 : Z.lor ret ret2 = ret2) by (eapply lor_trans; eassumption).
    destruct ik.
    + destruct (edited_headers i && negb (is_some (getheadersection i)));
        [discriminate|].
      destruct (keep i) as [cb|]; [|discriminate].
      set (kc := implicit_keep_context i flags) in H.
      set (res := cb kc (nv_errmsg v) (world st2)) in H.
      destruct (Z.eqb (cb_ret res) SIEVE_OK) eqn:Hkr.
      * injection H as <- <-.
        exists (EvHandler (negb (is_nil nl)) true :: evn ++ eve ++
                [EvCall (CallImplicitKeep kc) (cb_ret res)]).
        cbn [add_trace set_world log].
        rewrite Hloge, Hlogn, Hst1, <- !app_assoc. simpl.
        split; [reflexivity|].
        rewrite !forallb_app, Hn_h, Halle. split; [reflexivity|].
        change (count is_implicit_keep
                  (EvHandler (negb (is_nil nl)) true :: evn ++ eve ++
                   [EvCall (CallImplicitKeep kc) (cb_ret res)]))
          with (count is_implicit_keep
                  (evn ++ eve ++ [EvCall (CallImplicitKeep kc) (cb_ret res)])).
        rewrite !count_app, Hn_k, Hke. split; [reflexivity|].
        rewrite !notify_calls_app, Hne. simpl. rewrite app_nil_r, Hmapn.
        split; [reflexivity|].
        eapply lor_trans; [exact Hlor02 | apply lor_absorb].
      * apply IH in H. destruct H as (ev2 & Hlog2 & Hall2 & Hk2 & Hmap2 & Hlor2).
        rewrite notifies_cleared in Hmap2. apply map_eq_nil in Hmap2.
        exists (EvHandler (negb (is_nil nl)) true :: evn ++ eve ++
                EvCall (CallImplicitKeep kc) (cb_ret res) :: ev2).
        cbn [set_world log] in Hlog2.
        rewrite Hlog2, Hloge, Hlogn, Hst1, <- !app_assoc. simpl.
        split; [reflexivity|].
        rewrite !forallb_app, Hn_h, Halle. simpl. rewrite Hall2.
        split; [reflexivity|].
        change (count is_implicit_keep
                  (EvHandler (negb (is_nil nl)) true :: evn ++ eve ++
                   EvCall (CallImplicitKeep kc) (cb_ret res) :: ev2))
          with (count is_implicit_keep
                  (evn ++ eve ++
                   [EvCall (CallImplicitKeep kc) (cb_ret res)] ++ ev2)).
        rewrite !count_app, Hn_k, Hke, Hk2. split; [reflexivity|].
        rewrite !notify_calls_app, Hne. simpl. rewrite Hmap2, app_nil_r, Hmapn.
        split; [reflexivity|].
        eapply lor_trans; [exact Hlor02|].
        eapply lor_trans; [apply lor_absorb | exact Hlor2].
    + injection H as <- <-.
      exists (EvHandler (negb (is_nil nl)) false :: evn ++ eve).
      rewrite Hloge, Hlogn, Hst1, <- !app_assoc. simpl.
      split; [reflexivity|].
      rewrite !forallb_app, Hn_h, Halle. split; [reflexivity|].
      change (count is_implicit_keep
                (EvHandler (negb (is_nil nl)) false :: evn ++ eve))
        with (count is_implicit_keep (evn ++ eve)).
      rewrite !count_app, Hn_k, Hke. split; [reflexivity|].
      rewrite !notify_calls_app, Hne, app_nil_r, Hmapn.
      split; [reflexivity | exact Hlor02].
Qed.

Lemma reentries_ok_plain i (l1 l2 : list event) :
  forallb plain l1 = true ->
  reentries_ok i (l1 ++ l2) = reentries_ok i l2.
Proof.
  induction l1 as [|e l1 IH]; simpl; [reflexivity|].
  intros H. apply andb_true_iff in H. destruct H as [He Hl].
  destruct e as [[] r|]; simpl in *; try discriminate; auto.
Qed.

Lemma after_keep_plain (l : list event) (p : nat) :
  forallb plain l = true -> after_keep l p = true.
Proof.
  revert p. induction l as [|e l IH]; simpl; [reflexivity|].
  intros p H. apply andb_true_iff in H. destruct H as [He Hl].
  destruct e as [[] r|]; simpl in *; try discriminate; auto.
Qed.

Lemma count_plain (f : event -> bool) (l : list event) :
  (forall e, f e = true -> plain e = false) ->
  forallb plain l = true -> count f l = 0%nat.
Proof.
  intros Hf. apply count_none. intros e He.
  destruct (f e) eqn:Hfe; [|reflexivity].
  apply Hf in Hfe. congruence.
Qed.

Lemma plain_of_counts (l : list event) :
  count is_handler_entry l = 0%nat -> count is_implicit_keep l = 0%nat ->
  forallb plain l = true.
Proof.
  unfold count, plain. induction l as [|e l IH]; simpl; [reflexivity|].
  destruct (is_handler_entry e); simpl; [discriminate|].
  destruct (is_implicit_keep e); simpl; [discriminate|]. exact IH.
Qed.

(** The passes of one call, when it returns: the trace opens with the entry
    of the first pass; the passes that follow are at most [passes_left] and
    satisfy [reentries_ok]; and with implicit keep disabled no implicit keep
    is made. *)
Lemma do_sieve_error_passes (fuel : nat) :
  forall ret i flags nl la ik em st r st',
  do_sieve_error E X fuel ret i flags nl la ik em st = Ret (r, st') ->
  exists evs,
    log st' = log st ++ EvHandler (negb (is_nil nl)) ik :: evs /\
    reentries_ok i evs = true /\
    (count is_handler_entry evs <= passes_left i nl ik)%nat /\
    (ik = false -> count is_implicit_keep evs = 0%nat).
Proof.
  induction fuel as [|fuel IH]; intros ret i flags nl la ik em st r st' H;
    [discriminate|].
  cbn [do_sieve_error] in H.
  set (st1 := failure_line E ret la em _) in H.
  assert (Hst1 : log st1 = log st ++ [EvHandler (negb (is_nil nl)) ik]).
  { subst st1. now rewrite failure_line_log. }
  clearbody st1.
  destruct (notify_phase E X i nl _) as [v| |] eqn:Hn; cbn [bind] in H;
    try discriminate.
  apply notify_phase_ret in Hn.
  destruct Hn as (_ & evn & Hlogn & Halln & _).
  cbn [nv_state] in Hlogn.
  assert (Hpn : forallb plain evn = true).
  { revert Halln. apply forallb_weaken. intros [[] ?|]; simpl; auto. }
  destruct (notifies i nl && negb (Z.eqb (nv_notify_ret v) SIEVE_OK)) eqn:Hre.
  - apply andb_true_iff in Hre. destruct Hre as [Hnf _].
    rewrite Hnf in H. apply IH in H.
    destruct H as (ev2 & Hlog2 & Hok2 & Hc2 & Hk2).
    exists (evn ++ EvHandler false ik :: ev2).
    rewrite Hlog2, Hlogn, Hst1, <- !app_assoc. simpl. split; [reflexivity|].
    rewrite reentries_ok_plain by assumption. simpl.
    rewrite andb_false_r, Hok2. split; [reflexivity|].
    unfold passes_left in *. rewrite Hnf.
    change (notifies i []) with (is_some (notify i) && false) in Hc2.
    rewrite andb_false_r in Hc2.
    rewrite !count_app.
    rewrite (count_plain is_handler_entry evn), (count_plain is_implicit_keep evn);
      try assumption; try (intros [[] ?|]; simpl; auto; discriminate).
    change (count is_handler_entry (EvHandler false ik :: ev2))
      with (S (count is_handler_entry ev2)).
    change (count is_implicit_keep (EvHandler false ik :: ev2))
      with (count is_implicit_keep ev2).
    split; [simpl in *; lia | exact Hk2].
  - destruct (report_error E i (nv_lastaction v) (nv_ret v) (nv_errmsg v)
                (nv_state v)) as [ret2 st2] eqn:Hrep.
    apply report_error_ret in Hrep. destruct Hrep as (_ & _ & Hrep).
    assert (Hrep' : exists eve, log st2 = log (nv_state v) ++ eve /\
                                forallb plain eve = true).
    { destruct Hrep as [(_ & ->)|(text & x & _ & Hl)].
      - exists []. now rewrite app_nil_r.
      - exists [EvCall (CallExecuteErr text) x]. auto. }
    clear Hrep. destruct Hrep' as (eve & Hloge & Hpe).
    assert (Hpne : forallb plain (evn ++ eve) = true)
      by (rewrite forallb_app, Hpn, Hpe; reflexivity).
    assert (Hcne : forall f, (forall e, f e = true -> plain e = false) ->
                             count f (evn ++ eve) = 0%nat)
      by (intros f Hf; now apply count_plain).
    assert (Hh0 : count is_handler_entry (evn ++ eve) = 0%nat)
      by (apply Hcne; intros [[] ?|]; simpl; auto; discriminate).
    assert (Hk0 : count is_implicit_keep (evn ++ eve) = 0%nat)
      by (apply Hcne; intros [[] ?|]; simpl; auto; discriminate).
    destruct ik.
    + destruct (edited_headers i && negb (is_some (getheadersection i)));
        [discriminate|].
      destruct (keep i) as [cb|]; [|discriminate].
      set (kc := implicit_keep_context i flags) in H.
      set (res := cb kc (nv_errmsg v) (world st2)) in H.
      destruct (Z.eqb (cb_ret res) SIEVE_OK) eqn:Hkr.
      * injection H as <- <-.
        exists ((evn ++ eve) ++ [EvCall (CallImplicitKeep kc) (cb_ret res)]).
        cbn [add_trace set_world log].
        rewrite Hloge, Hlogn, Hst1, <- !app_assoc. simpl.
        split; [reflexivity|].
        rewrite app_assoc, reentries_ok_plain by assumption. simpl.
        split; [reflexivity|].
        rewrite count_app, Hh0. unfold passes_left, count.
        split; [destruct (notifies i nl); simpl; lia | discriminate].
      * apply IH in H. destruct H as (ev2 & Hlog2 & Hok2 & Hc2 & Hk2).
        specialize (Hk2 eq_refl).
        unfold passes_left in Hc2. rewrite notifies_cleared in Hc2.
        assert (Hh2 : count is_handler_entry ev2 = 0%nat) by (simpl in Hc2; lia).
        set (nl' := if notifies i nl then [] else nl) in *.
        exists ((evn ++ eve) ++
                EvCall (CallImplicitKeep kc) (cb_ret res) ::
                EvHandler (negb (is_nil nl')) false :: ev2).
        cbn [set_world log] in Hlog2.
        rewrite Hlog2, Hloge, Hlogn, Hst1, <- !app_assoc. simpl.
        split; [reflexivity|].
        rewrite app_assoc, reentries_ok_plain by assumption.
        cbn [reentries_ok after_keep negb andb Nat.eqb].
        rewrite (after_keep_plain ev2) by (now apply plain_of_counts).
        rewrite Hok2.
        assert (Hnl' : is_some (notify i) && negb (is_nil nl') = false)
          by (subst nl'; apply notifies_cleared).
        rewrite Hnl'. split; [reflexivity|].
        rewrite count_app, Hh0.
        change (count is_handler_entry
                  (EvCall (CallImplicitKeep kc) (cb_ret res)
                   :: EvHandler (negb (is_nil nl')) false :: ev2))
          with (S (count is_handler_entry ev2)).
        rewrite Hh2. unfold passes_left.
        split; [destruct (notifies i nl); simpl; lia | discriminate].
    + injection H as <- <-.
      exists (evn ++ eve).
      rewrite Hloge, Hlogn, Hst1, <- !app_assoc. simpl.
      split; [reflexivity|].
      rewrite <- (app_nil_r (evn ++ eve)), reentries_ok_plain by assumption.
      rewrite app_nil_r, Hh0, Hk0.
      split; [reflexivity|]. split; [lia | reflexivity].
Qed.

Lemma send_notify_callback_finishes i cb n errmsg st :
  finishes (send_notify_callback E X i cb n errmsg st) = true.
Proof.
  unfold send_notify_callback.
  destruct (isactive n); cbn [negb]; [|reflexivity].
  destruct (method n) as [m|], (options n) as [opts|], (priority n),
           (message n) as [msg|];
    try reflexivity.
  destruct (build_notify_message_terminated X i msg BUF_INITIALIZER) as [Hf _].
  assert (Hopts : forall k : strarray_t -> result (Z * option string
                                                   * dstate World),
            (forall o, finishes (k o) = true) ->
            finishes (bind (if String.eqb m "mailto" && first_is_env_from opts
                            then match getenvelope i with
                                 | Some get =>
                                     Ret {| sa_count := 0;
                                            sa_data := get "From" |}
                                 | None => Fault
                                 end
                            else Ret (strarray_of opts)) k) = true).
  { intros k Hk. destruct (String.eqb m "mailto" && first_is_env_from opts);
      [destruct (getenvelope i)|]; cbn [bind]; auto. }
  apply Hopts. intros o.
  destruct (build_notify_message X i (Some msg) BUF_INITIALIZER);
    [reflexivity | reflexivity | discriminate].
Qed.

Lemma notify_loop_finishes i cb l v :
  finishes (notify_loop E X i cb l v) = true.
Proof.
  revert v. induction l as [|n l IH]; intros v; cbn [notify_loop].
  - reflexivity.
  - destruct (isactive n); [|apply IH].
    pose proof (send_notify_callback_finishes i cb n (nv_errmsg v) (nv_state v))
      as Hf.
    destruct (send_notify_callback E X i cb n (nv_errmsg v) (nv_state v))
      as [[[r em] st1]| |]; cbn [bind]; [apply IH | reflexivity | discriminate].
Qed.

Lemma notify_phase_finishes i nl v :
  finishes (notify_phase E X i nl v) = true.
Proof.
  unfold notify_phase. destruct (notify i); [|reflexivity].
  destruct nl; [reflexivity | apply notify_loop_finishes].
Qed.

(** Fuel beyond [passes_left] is never used: the result does not depend on
    it, and it is not [OutOfFuel]. *)
Lemma do_sieve_error_fuel (fuel : nat) :
  forall fuel' ret i flags nl la ik em st,
  (passes_left i nl ik < fuel)%nat -> (passes_left i nl ik < fuel')%nat ->
  do_sieve_error E X fuel ret i flags nl la ik em st
    = do_sieve_error E X fuel' ret i flags nl la ik em st /\
  finishes (do_sieve_error E X fuel ret i flags nl la ik em st) = true.
Proof.
  induction fuel as [|fuel IH]; intros fuel' ret i flags nl la ik em st Hf Hf';
    [lia|].
  destruct fuel' as [|fuel']; [lia|].
  cbn [do_sieve_error].
  set (st1 := failure_line E ret la em _). clearbody st1.
  set (v0 := {| nv_lastaction := la; nv_notify_ret := SIEVE_OK; nv_ret := ret;
                nv_errmsg := em; nv_state := st1 |}).
  pose proof (notify_phase_finishes i nl v0) as Hnf.
  destruct (notify_phase E X i nl v0) as [v| |]; cbn [bind];
    [|split; reflexivity|discriminate].
  clear Hnf. unfold passes_left in Hf, Hf'.
  destruct (notifies i nl && negb (Z.eqb (nv_notify_ret v) SIEVE_OK)) eqn:Hre.
  - apply andb_true_iff in Hre. destruct Hre as [Hn _]. rewrite Hn in *.
    apply IH; unfold passes_left;
      change (notifies i []) with (is_some (notify i) && false);
      rewrite andb_false_r; simpl in *; lia.
  - destruct (report_error E i (nv_lastaction v) (nv_ret v) (nv_errmsg v)
                (nv_state v)) as [ret2 st2].
    destruct ik; [|split; reflexivity].
    destruct (edited_headers i && negb (is_some (getheadersection i)));
      [split; reflexivity|].
    destruct (keep i) as [cb|]; [|split; reflexivity].
    destruct (Z.eqb (cb_ret _) SIEVE_OK); [split; reflexivity|].
    apply IH; unfold passes_left; rewrite notifies_cleared;
      destruct (notifies i nl); simpl in *; lia.
Qed.

Lemma passes_left_le i nl ik : (passes_left i nl ik < handler_fuel)%nat.
Proof.
  unfold passes_left, handler_fuel.
  destruct (notifies i nl), ik; simpl; lia.
Qed.

(** A failing implicit keep, on a host whose keep callback answers 5: one
    more pass, entered with implicit keep disabled, reports the error and
    returns. *)
Example do_sieve_error_keep_failure :
  do_sieve_error cyrus_err (sample_externals 0 []) handler_fuel SIEVE_OK
                 (with_keep sample_host (Some (const_cb 5))) [] [] None true
                 None state0
  = Ret (5, {| world := tt;
               log := [EvHandler false true;
                       EvCall (CallImplicitKeep
                                 {| keep_imapflags := [];
                                    keep_headers := None |}) 5;
                       EvHandler false false;
                       EvCall (CallExecuteErr "Keep: Unknown error") 0];
               actions_string := "Keep action failed: Unknown error" +++ newline;
               lastitem := None |}).
Proof. reflexivity. Qed.

(** C5.  A call of the error handler terminates: three nested passes are
    always enough, more fuel changes nothing, and a pass needs no more than
    one level per pending cause of recursion (notifications pending,
    implicit keep enabled).  In the trace of a call that returns, the passes
    after the first are at most two, none is entered with notifications
    pending, implicit keep is called at most once, and what follows it is at
    most one pass, entered with implicit keep disabled. *)
Theorem do_sieve_error_terminates ret i flags nl la ik em st :
  finishes (do_sieve_error E X handler_fuel ret i flags nl la ik em st) = true
  /\
  (forall fuel, (passes_left i nl ik < fuel)%nat ->
     do_sieve_error E X fuel ret i flags nl la ik em st
       = do_sieve_error E X handler_fuel ret i flags nl la ik em st)
  /\
  match do_sieve_error E X handler_fuel ret i flags nl la ik em st with
  | Ret (r, st') =>
      exists evs,
        log st' = log st ++ EvHandler (negb (is_nil nl)) ik :: evs /\
        reentries_ok i evs = true /\
        (count is_handler_entry evs <= 2)%nat /\
        (count is_implicit_keep evs <= 1)%nat
  | _ => True
  end.
Proof.
  pose proof (passes_left_le i nl ik) as Hle.
  split; [|split].
  - eapply do_sieve_error_fuel; exact Hle.
  - intros fuel Hf. eapply do_sieve_error_fuel; assumption.
  - destruct (do_sieve_error E X handler_fuel ret i flags nl la ik em st)
      as [[r st']| |] eqn:H; [|exact I|exact I].
    destruct (do_sieve_error_passes _ _ _ _ _ _ _ _ _ _ _ H)
      as (evs & Hlog & Hok & Hc & _).
    destruct (do_sieve_error_ret _ _ _ _ _ _ _ _ _ _ _ H)
      as (evs' & Hlog' & _ & Hk & _).
    exists evs. repeat split; try assumption.
    + unfold handler_fuel in Hle. lia.
    + rewrite Hlog in Hlog'. apply app_inv_head in Hlog'. subst evs'.
      change (count is_implicit_keep (EvHandler (negb (is_nil nl)) ik :: evs))
        with (count is_implicit_keep evs) in Hk.
      rewrite Hk. destruct ik; lia.
Qed.

Lemma trace_if_ok_log ret line st : log (trace_if_ok ret line st) = log st.
Proof. unfold trace_if_ok. destruct (Z.eqb ret SIEVE_OK); reflexivity. Qed.

(** The [return SIEVE_INTERNAL_ERROR] inside the switch is taken exactly
    when the capability of the entry's kind is missing; nothing has been
    called or written by then. *)
Lemma do_action_return i e ret st :
  if missing_capability i (a e)
  then do_action E i e ret st = StepReturn (SIEVE_INTERNAL_ERROR E) st
  else exists ret' errmsg st', do_action E i e ret st = StepBreak ret' errmsg st'.
Proof.
  unfold do_action, missing_capability.
  destruct (a e); slot_cases i; cbn [negb is_some]; try reflexivity;
    unfold invoke; eauto.
  destruct (Z.eqb _ SIEVE_OK); eauto.
  destruct (Z.eqb _ (SIEVE_DONE E)); eauto.
Qed.

(** Falling out of the switch: the trace has grown by the calls of this
    entry's case, and if the kind has a case, the loop was in good standing
    and every one of those calls returned [SIEVE_OK], so does the step. *)
Lemma do_action_break i e ret st ret' errmsg st' :
  do_action E i e ret st = StepBreak ret' errmsg st' ->
  missing_capability i (a e) = false /\
  exists evs,
    log st' = log st ++ evs /\
    forallb is_action_call evs = true /\
    (has_case (a e) = true -> ret = SIEVE_OK ->
     forallb call_ok evs = true -> ret' = SIEVE_OK) /\
    (has_case (a e) = false -> ret' = SIEVE_INTERNAL_ERROR E /\ evs = []).
Proof.
  intros H.
  pose proof (do_action_return i e ret st) as Hr.
  destruct (missing_capability i (a e)); [congruence|]. clear Hr.
  split; [reflexivity|].
  unfold do_action, invoke in H.
  assert (Hnil : forall P : Prop, P -> log st = log st ++ [] /\
            forallb is_action_call [] = true /\ P).
  { intros P HP. rewrite app_nil_r. auto. }
  destruct (a e); cbn [has_case];
    try (injection H as <- <- <-; exists []; apply Hnil;
         split; [auto; discriminate | auto; discriminate]).
  - (* reject *)
    destruct (reject i) as [cb|]; [|discriminate].
    injection H as <- <- <-. eexists [_].
    rewrite trace_if_ok_log. cbn [set_lastitem set_world log].
    split; [reflexivity|]. split; [reflexivity|]. split; [|discriminate].
    intros _ _ Hc. simpl in Hc. rewrite andb_true_r in Hc.
    now apply Z.eqb_eq.
  - (* ereject *)
    destruct (reject i) as [cb|]; [|discriminate].
    injection H as <- <- <-. eexists [_].
    rewrite trace_if_ok_log. cbn [set_lastitem set_world log].
    split; [reflexivity|]. split; [reflexivity|]. split; [|discriminate].
    intros _ _ Hc. simpl in Hc. rewrite andb_true_r in Hc.
    now apply Z.eqb_eq.
  - (* fileinto *)
    destruct (fileinto i) as [cb|]; [|discriminate].
    injection H as <- <- <-. eexists [_].
    rewrite trace_if_ok_log. cbn [set_lastitem set_world log].
    split; [reflexivity|]. split; [reflexivity|]. split; [|discriminate].
    intros _ _ Hc. simpl in Hc. rewrite andb_true_r in Hc.
    now apply Z.eqb_eq.
  - (* snooze *)
    destruct (snooze i) as [cb|]; [|discriminate].
    injection H as <- <- <-. eexists [_].
    rewrite trace_if_ok_log. cbn [set_lastitem set_world log].
    split; [reflexivity|]. split; [reflexivity|]. split; [|discriminate].
    intros _ _ Hc. simpl in Hc. rewrite andb_true_r in Hc.
    now apply Z.eqb_eq.
  - (* keep *)
    destruct (keep i) as [cb|]; [|discriminate].
    injection H as <- <- <-. eexists [_].
    rewrite trace_if_ok_log. cbn [set_lastitem set_world log].
    split; [reflexivity|]. split; [reflexivity|]. split; [|discriminate].
    intros _ _ Hc. simpl in Hc. rewrite andb_true_r in Hc.
    now apply Z.eqb_eq.
  - (* redirect *)
    destruct (redirect i) as [cb|]; [|discriminate].
    injection H as <- <- <-. eexists [_].
    rewrite trace_if_ok_log. cbn [set_lastitem set_world log].
    split; [reflexivity|]. split; [reflexivity|]. split; [|discriminate].
    intros _ _ Hc. simpl in Hc. rewrite andb_true_r in Hc.
    now apply Z.eqb_eq.
  - (* discard *)
    destruct (discard i) as [cb|]; injection H as <- <- <-.
    + eexists [_]. rewrite trace_if_ok_log. cbn [set_lastitem set_world log].
      split; [reflexivity|]. split; [reflexivity|]. split; [|discriminate].
      intros _ _ Hc. simpl in Hc. rewrite andb_true_r in Hc.
      now apply Z.eqb_eq.
    + exists []. rewrite trace_if_ok_log. cbn [set_lastitem log].
      rewrite app_nil_r. repeat split; auto; discriminate.
  - (* vacation *)
    destruct (vacation i) as [v|]; [|discriminate].
    set (r1 := autorespond v _ None (world st)) in H.
    destruct (Z.eqb_spec (cb_ret r1) SIEVE_OK) as [Hok|Hnok].
    + injection H as <- <- <-. eexists [_; _].
      rewrite trace_if_ok_log. cbn [set_lastitem set_world log].
      rewrite <- app_assoc.
      split; [reflexivity|]. split; [reflexivity|]. split; [|discriminate].
      intros _ _ Hc. simpl in Hc. rewrite andb_true_r in Hc.
      apply andb_true_iff in Hc. destruct Hc as [_ Hc]. now apply Z.eqb_eq.
    + destruct (Z.eqb (cb_ret r1) (SIEVE_DONE E));
        injection H as <- <- <-; eexists [_];
        cbn [add_trace set_lastitem set_world log];
        (split; [reflexivity|]); (split; [reflexivity|]);
        (split; [|discriminate]); intros _ _ Hc; [reflexivity|].
      simpl in Hc. rewrite andb_true_r in Hc. now apply Z.eqb_eq.
Qed.

(** When the dispatch of an entry fails: its kind has no case in the
    switch, or one of the callbacks called for it returned a status other
    than [SIEVE_OK], autorespond's [SIEVE_DONE] not counting. *)
Lemma do_action_fails_iff i e st ret errmsg st' :
  SIEVE_INTERNAL_ERROR E <> SIEVE_OK ->
  do_action E i e SIEVE_OK st = StepBreak ret errmsg st' ->
  exists evs,
    log st' = log st ++ evs /\
    (ret = SIEVE_OK <->
     has_case (a e) = true /\ forallb (tolerated E) evs = true).
Proof.
  intros Hie H.
  pose proof (do_action_return i e SIEVE_OK st) as Hr.
  destruct (missing_capability i (a e)) eqn:Hm; [congruence|]. clear Hr.
  unfold do_action, invoke in H. unfold missing_capability in Hm.
  assert (Hsingle : forall r, r = SIEVE_OK <->
                              true = true /\ Z.eqb r SIEVE_OK && true = true).
  { intros r. rewrite andb_true_r, Z.eqb_eq. tauto. }
  destruct (a e); cbn [has_case];
    try (injection H as <- _ <-; exists []; rewrite app_nil_r;
         split; [reflexivity|]; split;
         [intros Hr; try contradiction; auto | intros [Hc _];
          try discriminate; reflexivity]).
  - destruct (reject i) as [cb|]; [|discriminate].
    injection H as <- _ <-. eexists [_]. rewrite trace_if_ok_log.
    split; [reflexivity | apply Hsingle].
  - destruct (reject i) as [cb|]; [|discriminate].
    injection H as <- _ <-. eexists [_]. rewrite trace_if_ok_log.
    split; [reflexivity | apply Hsingle].
  - destruct (fileinto i) as [cb|]; [|discriminate].
    injection H as <- _ <-. eexists [_]. rewrite trace_if_ok_log.
    split; [reflexivity | apply Hsingle].
  - destruct (snooze i) as [cb|]; [|discriminate].
    injection H as <- _ <-. eexists [_]. rewrite trace_if_ok_log.
    split; [reflexivity | apply Hsingle].
  - destruct (keep i) as [cb|]; [|discriminate].
    injection H as <- _ <-. eexists [_]. rewrite trace_if_ok_log.
    split; [reflexivity | apply Hsingle].
  - destruct (redirect i) as [cb|]; [|discriminate].
    injection H as <- _ <-. eexists [_]. rewrite trace_if_ok_log.
    split; [reflexivity | apply Hsingle].
  - destruct (discard i) as [cb|]; injection H as <- _ <-.
    + eexists [_]. rewrite trace_if_ok_log.
      split; [reflexivity | apply Hsingle].
    + exists []. rewrite trace_if_ok_log. cbn [set_lastitem log].
      rewrite app_nil_r. split; [reflexivity|]. split; auto.
  - destruct (vacation i) as [v|]; [|discriminate].
    set (r1 := autorespond v _ None (world st)) in H.
    destruct (Z.eqb (cb_ret r1) SIEVE_OK) eqn:Hok.
    + injection H as <- _ <-. eexists [_; _]. rewrite trace_if_ok_log.
      cbn [set_lastitem set_world log]. rewrite <- app_assoc.
      split; [reflexivity|]. cbn [forallb tolerated]. fold r1.
      rewrite Hok. cbn [orb andb]. apply Hsingle.
    + destruct (Z.eqb (cb_ret r1) (SIEVE_DONE E)) eqn:Hdone;
        injection H as <- _ <-; eexists [_];
        cbn [add_trace set_lastitem set_world log];
        (split; [reflexivity|]); cbn [forallb tolerated]; fold r1;
        rewrite Hok, Hdone; cbn [orb andb].
      * split; auto.
      * apply Z.eqb_neq in Hok. split; [contradiction|].
        intros [_ Hf]. discriminate.
Qed.

(** The loop over a list that starts with entries dispatched with
    [SIEVE_OK] continues on the rest from where those left it. *)
Lemma action_loop_app i pre rest la0 ret0 ik0 em0 st0 la ik em st1 :
  action_loop E i pre la0 ret0 ik0 em0 st0 = LoopDone la SIEVE_OK ik em st1 ->
  action_loop E i (pre ++ rest) la0 ret0 ik0 em0 st0
    = action_loop E i rest la SIEVE_OK ik em st1.
Proof.
  revert la0 ret0 ik0 em0 st0.
  induction pre as [|e pre IH]; intros la0 ret0 ik0 em0 st0 H.
  - cbn [action_loop] in H. injection H as <- <- <- <- <-. reflexivity.
  - cbn [action_loop app] in H |- *.
    destruct (do_action E i e ret0 st0) as [r s|ret' em' st']; [discriminate|].
    destruct (Z.eqb_spec ret' SIEVE_OK) as [->|Hne].
    + now apply IH.
    + injection H as _ Hr _ _ _. congruence.
Qed.

(** How the loop ends and what it has added to the trace: only calls from
    the switch.  If it ends with implicit keep still enabled, it started
    so, no entry had [cancel_keep] set and no entry failed.  If every entry
    is dispatchable and every call returned [SIEVE_OK], it ran to the end of
    the list with [SIEVE_OK]. *)
Lemma action_loop_ret i acts :
  forall la0 ret0 ik0 em0 st0,
  exists evs st',
    forallb is_action_call evs = true /\
    log st' = log st0 ++ evs /\
    ((exists r, action_loop E i acts la0 ret0 ik0 em0 st0 = LoopReturn r st' /\
                r = SIEVE_INTERNAL_ERROR E /\
                forallb (dispatchable i) acts = false)
     \/
     (exists la ret ik em,
        action_loop E i acts la0 ret0 ik0 em0 st0 = LoopDone la ret ik em st' /\
        (ik = true ->
         ik0 = true /\ forallb (fun e => negb (cancel_keep e)) acts = true) /\
        (ik0 = true ->
         forallb (fun e => negb (cancel_keep e)) acts = true ->
         (acts = [] \/ ret = SIEVE_OK) -> ik = true) /\
        (forallb (dispatchable i) acts = true -> ret0 = SIEVE_OK ->
         forallb call_ok evs = true -> ret = SIEVE_OK))).
Proof.
  induction acts as [|e acts IH]; intros la0 ret0 ik0 em0 st0.
  - exists [], st0. rewrite app_nil_r. split; [reflexivity|].
    split; [reflexivity|]. right. exists la0, ret0, ik0, em0.
    cbn. repeat split; auto.
  - cbn [action_loop forallb].
    pose proof (do_action_return i e ret0 st0) as Hr.
    unfold dispatchable at 1 3.
    destruct (missing_capability i (a e)) eqn:Hm.
    + rewrite Hr. exists [], st0. rewrite app_nil_r.
      split; [reflexivity|]. split; [reflexivity|]. left.
      exists (SIEVE_INTERNAL_ERROR E). rewrite andb_false_r. auto.
    + destruct Hr as (ret' & em' & st1 & Hs). rewrite Hs.
      apply do_action_break in Hs.
      destruct Hs as (_ & ev1 & Hlog1 & Hall1 & Hok1 & Hbad1).
      rewrite andb_true_r.
      destruct (Z.eqb_spec ret' SIEVE_OK) as [->|Hne].
      * destruct (IH (Some (a e)) SIEVE_OK (ik0 && negb (cancel_keep e)) em' st1)
          as (ev2 & st' & Hall2 & Hlog2 & Hcases).
        exists (ev1 ++ ev2), st'.
        rewrite forallb_app, Hall1, Hall2, Hlog2, Hlog1, <- app_assoc.
        split; [reflexivity|]. split; [reflexivity|].
        destruct Hcases as [(r & Hl & Hr' & Hd)|(la & ret & ik & em & Hl & Hik & Hik' & Hret)].
        -- left. exists r. rewrite Hd, andb_false_r. auto.
        -- right. exists la, ret, ik, em. split; [exact Hl|].
           split; [|split].
           ++ intros Hk. destruct (Hik Hk) as [Hk0 Hc].
              apply andb_true_iff in Hk0. destruct Hk0 as [-> ->].
              rewrite Hc. auto.
           ++ intros -> Hc Hend. apply andb_true_iff in Hc.
              destruct Hc as [Hc1 Hc2]. apply Hik'; auto.
              destruct Hend as [Hend|Hend]; [discriminate | auto].
           ++ intros Hd _ Hc. apply andb_true_iff in Hd. destruct Hd as [_ Hd].
              rewrite forallb_app in Hc. apply andb_true_iff in Hc.
              destruct Hc as [_ Hc]. auto.
      * exists ev1, st1. split; [exact Hall1|]. split; [exact Hlog1|].
        right. exists (Some (a e)), ret', false, em'.
        split; [reflexivity|]. split; [discriminate|]. split; [|].
        -- intros _ _ [Hend|Hend]; [discriminate | contradiction].
        -- intros Hd Hr0 Hc. apply andb_true_iff in Hd. destruct Hd as [Hd _].
           exfalso. apply Hne. destruct (has_case (a e)) eqn:Hhc.
           ++ apply Hok1; auto.
           ++ discriminate.
Qed.

Lemma forallb_exists_false (acts : list action_entry) :
  (exists e, In e acts /\ cancel_keep e = true) ->
  forallb (fun e => negb (cancel_keep e)) acts = false.
Proof.
  intros (e & Hin & Hc).
  destruct (forallb _ acts) eqn:H; [|reflexivity].
  rewrite forallb_forall in H. specialize (H e Hin). rewrite Hc in H.
  discriminate.
Qed.

Lemma do_sieve_error_finishes ret i flags nl la ik em st :
  finishes (do_sieve_error E X handler_fuel ret i flags nl la ik em st) = true.
Proof. eapply do_sieve_error_fuel; apply passes_left_le. Qed.

Lemma do_action_list_finishes i flags acts nl em st :
  finishes (do_action_list E X i flags acts nl em st) = true.
Proof.
  unfold do_action_list.
  destruct (action_loop E i acts None 0 true em _); [reflexivity|].
  apply do_sieve_error_finishes.
Qed.





(** C1, as the code has it.  A run of the dispatcher that returns adds to
    the trace the calls of the action loop and then the events of the error
    handler.  If some entry of the list has [cancel_keep] set, the keep
    callback is not called for an implicit keep.  If no entry has it set,
    every entry is dispatchable (its kind has a case in the switch and the
    capability that case needs is registered) and every callback invoked
    returned [SIEVE_OK], the implicit keep is made exactly once, by the
    handler, hence after every call of the action loop. *)
Theorem implicit_keep_policy i flags acts nl em st r st' :
  do_action_list E X i flags acts nl em st = Ret (r, st') ->
  exists aevs hevs,
    log st' = log st ++ aevs ++ hevs /\
    forallb is_action_call aevs = true /\
    forallb is_handler_event hevs = true /\
    ((exists e, In e acts /\ cancel_keep e = true) ->
     count is_implicit_keep (aevs ++ hevs) = 0%nat) /\
    (forallb (fun e => negb (cancel_keep e)) acts = true ->
     forallb (dispatchable i) acts = true ->
     forallb call_ok (aevs ++ hevs) = true ->
     count is_implicit_keep aevs = 0%nat /\
     count is_implicit_keep hevs = 1%nat).
Proof.
  unfold do_action_list. intros H.
  set (st0 := set_actions_string st _) in H.
  destruct (action_loop_ret i acts None 0 true em st0)
    as (aevs & st1 & Hall & Hlog & Hcases).
  change (log st0) with (log st) in Hlog.
  assert (Hka : count is_implicit_keep aevs = 0%nat).
  { revert Hall. apply count_none. intros [[] ?|]; simpl; auto; discriminate. }
  destruct Hcases as [(r' & Hl & Hr & Hd)
                     |(la & ret & ik & em1 & Hl & Hik & Hik' & Hret)];
    rewrite Hl in H.
  - injection H as <- <-. exists aevs, []. rewrite app_nil_r.
    repeat split; auto; congruence.
  - apply do_sieve_error_ret in H.
    destruct H as (hevs & Hlogh & Hallh & Hk & _).
    exists aevs, hevs. rewrite Hlogh, Hlog, <- app_assoc.
    split; [reflexivity|]. split; [assumption|]. split; [assumption|].
    split.
    + intros Hc. apply forallb_exists_false in Hc.
      rewrite count_app, Hka, Hk.
      destruct ik; [|reflexivity].
      destruct (Hik eq_refl) as [_ Hc']. congruence.
    + intros Hc Hd Hok. split; [assumption|].
      rewrite forallb_app in Hok. apply andb_true_iff in Hok.
      destruct Hok as [Hok _].
      rewrite Hk, Hik'; auto.
Qed.

(** C4, as the code has it.  Let the entries before [e] have been
    dispatched with [SIEVE_OK] and let the dispatch of [e] fall out of the
    switch with a status other than [SIEVE_OK]: a callback's own status, but
    never autorespond's [SIEVE_DONE], which the switch turns into
    [SIEVE_OK], or [SIEVE_INTERNAL_ERROR] for a kind with no case.  Then
    the dispatcher goes straight to the error handler with that status and
    implicit keep disabled; it terminates; and when it returns, the status
    is not [SIEVE_OK], nothing after [e] was dispatched, no implicit keep was
    made, and, if a notify callback is registered and a list attached, the
    notify callback was called once for each deliverable entry, in order. *)
Theorem action_failure_aborts_dispatch i flags pre e post nl em st
    la ik em1 st1 ret em2 st2 :
  action_loop E i pre None SIEVE_OK true em
      (set_actions_string st ("Action(s) taken:" +++ newline))
    = LoopDone la SIEVE_OK ik em1 st1 ->
  do_action E i e SIEVE_OK st1 = StepBreak ret em2 st2 ->
  ret <> SIEVE_OK ->
  do_action_list E X i flags (pre ++ e :: post) nl em st
    = do_sieve_error E X handler_fuel ret i flags nl (Some (a e)) false em2 st2
  /\
  finishes (do_action_list E X i flags (pre ++ e :: post) nl em st) = true /\
  forall r st',
    do_action_list E X i flags (pre ++ e :: post) nl em st = Ret (r, st') ->
    r <> SIEVE_OK /\
    exists evs,
      log st' = log st2 ++ evs /\
      count is_action_call evs = 0%nat /\
      count is_implicit_keep evs = 0%nat /\
      map (fun nc => Some (nc_method nc)) (notify_calls evs)
        = (if notifies i nl then map method (filter deliverable nl) else []).
Proof.
  intros Hpre Hstep Hne.
  assert (Heq : do_action_list E X i flags (pre ++ e :: post) nl em st
                = do_sieve_error E X handler_fuel ret i flags nl (Some (a e))
                                 false em2 st2).
  { unfold do_action_list. change 0 with SIEVE_OK.
    rewrite (action_loop_app _ _ _ _ _ _ _ _ _ _ _ _ Hpre).
    cbn [action_loop]. rewrite Hstep.
    destruct (Z.eqb_spec ret SIEVE_OK); [contradiction | reflexivity]. }
  split; [exact Heq|]. split; [apply do_action_list_finishes|].
  intros r st' H. rewrite Heq in H.
  apply do_sieve_error_ret in H.
  destruct H as (evs & Hlog & Hall & Hk & Hn & Hlor).
  split.
  - intros ->. unfold SIEVE_OK in *. rewrite Z.lor_0_r in Hlor. contradiction.
  - exists evs. repeat split; try assumption.
    revert Hall. apply count_none. intros [[] ?|]; simpl; auto; discriminate.
Qed.

(** C6.  A Vacation entry, with the vacation capability registered:
    [autorespond] is called first.  If it returns [SIEVE_OK],
    [send_response] is called and its status is the status of the action;
    when that is [SIEVE_OK] the line [Sent vacation reply] is written behind
    the trace text, as far as the array has room, and otherwise the trace is
    left as it is.  If it returns [SIEVE_DONE], [send_response] is not
    called, the line [Vacation reply suppressed] is written behind the trace
    in the same way and the status of the action is [SIEVE_OK].  Any other
    status is the status of the action, [send_response] is not called, the
    trace is left as it is, and the loop stops there with implicit keep
    disabled.  Where a line is written and the trace has room for all of
    it, the trace afterwards is the trace before followed by that line. *)
Theorem vacation_two_phase i e ret st v :
  a e = ACTION_VACATION -> vacation i = Some v ->
  let r1 := autorespond v (u_vac_autoresp (u e)) None (world st) in
  let ev1 := EvCall (CallAutorespond (u_vac_autoresp (u e))) (cb_ret r1) in
  let r2 := send_response v (u_vac_send (u e)) (cb_errmsg r1) (cb_world r1) in
  let ev2 := EvCall (CallSendResponse (u_vac_send (u e))) (cb_ret r2) in
  let room := (ACTIONS_STRING_LEN - 1 - String.length (actions_string st))%nat in
  exists ret' em' st',
    do_action E i e ret st = StepBreak ret' em' st' /\
    lastitem st' = None /\
    (if Z.eqb (cb_ret r1) SIEVE_OK then
       ret' = cb_ret r2 /\ log st' = log st ++ [ev1; ev2] /\
       world st' = cb_world r2 /\
       actions_string st'
         = (if Z.eqb (cb_ret r2) SIEVE_OK
            then actions_string st +++
                 take room ("Sent vacation reply" +++ newline)
            else actions_string st) /\
       ((String.length ("Sent vacation reply" +++ newline) <= room)%nat ->
        cb_ret r2 = SIEVE_OK ->
        actions_string st'
          = actions_string st +++ "Sent vacation reply" +++ newline)
     else if Z.eqb (cb_ret r1) (SIEVE_DONE E) then
       ret' = SIEVE_OK /\ log st' = log st ++ [ev1] /\
       world st' = cb_world r1 /\
       actions_string st'
         = actions_string st +++
           take room ("Vacation reply suppressed" +++ newline) /\
       ((String.length ("Vacation reply suppressed" +++ newline) <= room)%nat ->
        actions_string st'
          = actions_string st +++ "Vacation reply suppressed" +++ newline)
     else
       ret' = cb_ret r1 /\ log st' = log st ++ [ev1] /\
       world st' = cb_world r1 /\
       actions_string st' = actions_string st /\
       forall rest la ik em0,
         action_loop E i (e :: rest) la ret ik em0 st
           = LoopDone (Some ACTION_VACATION) ret' false em' st').
Proof.
  intros Ha Hv r1 ev1 r2 ev2 room.
  assert (Hfull : forall n line,
            (String.length line <= n)%nat -> take n line = line).
  { intros n line. revert n.
    induction line as [|x line IH]; intros [|n] Hn; cbn in *;
      try reflexivity; try lia.
    rewrite IH; [reflexivity | lia]. }
  unfold do_action. rewrite Ha, Hv. unfold invoke.
  fold r1. cbn [set_lastitem set_world world].
  destruct (Z.eqb (cb_ret r1) SIEVE_OK) eqn:Hok.
  - fold r2. eexists _, _, _. split; [reflexivity|].
    unfold trace_if_ok.
    destruct (Z.eqb_spec (cb_ret r2) SIEVE_OK) as [Hz|Hnz];
      cbn [add_trace set_world set_lastitem lastitem log world
             actions_string];
      unfold trace_append; fold room;
      cbn [add_trace set_world set_lastitem lastitem log world
             actions_string];
      rewrite <- app_assoc.
    + repeat split; try reflexivity.
      intros Hroom _. now rewrite (Hfull _ _ Hroom).
    + repeat split; try reflexivity.
      intros _ Hz. contradiction.
  - destruct (Z.eqb (cb_ret r1) (SIEVE_DONE E)) eqn:Hdone.
    + eexists _, _, _. split; [reflexivity|].
      cbn [add_trace set_world set_lastitem lastitem log world
             actions_string].
      unfold trace_append; fold room.
      repeat split; try reflexivity.
      intros Hroom. now rewrite (Hfull _ _ Hroom).
    + eexists _, _, _. split; [reflexivity|]. cbn.
      repeat split; try reflexivity.
      intros rest la ik em0. unfold do_action. rewrite Ha, Hv. unfold invoke.
      fold r1. cbn [set_lastitem set_world world]. rewrite Hok, Hdone, Hok.
      reflexivity.
Qed.

(** C8, as the code has it.  Reject, eReject, FileInto, Snooze, Keep,
    Redirect and Vacation: when the loop reaches such an entry and its
    capability is not registered, the dispatcher returns
    [SIEVE_INTERNAL_ERROR] on the spot, with nothing called for the entry
    and the error handler not entered.  Discard is the exception: without a
    discard callback the entry succeeds, [Discarded] is added to the trace
    text and the loop goes on. *)
Theorem missing_capability_internal_error i flags pre e post nl em st
    la ik em1 st1 :
  action_loop E i pre None SIEVE_OK true em
      (set_actions_string st ("Action(s) taken:" +++ newline))
    = LoopDone la SIEVE_OK ik em1 st1 ->
  (missing_capability i (a e) = true ->
   do_action E i e SIEVE_OK st1 = StepReturn (SIEVE_INTERNAL_ERROR E) st1 /\
   do_action_list E X i flags (pre ++ e :: post) nl em st
     = Ret (SIEVE_INTERNAL_ERROR E, st1))
  /\
  (a e = ACTION_DISCARD -> discard i = None ->
   missing_capability i (a e) = false /\
   do_action E i e SIEVE_OK st1
     = StepBreak SIEVE_OK None
         (add_trace (set_lastitem st1 None) ("Discarded" +++ newline)) /\
   action_loop E i (pre ++ e :: post) None SIEVE_OK true em
       (set_actions_string st ("Action(s) taken:" +++ newline))
     = action_loop E i post (Some ACTION_DISCARD) SIEVE_OK
         (ik && negb (cancel_keep e)) None
         (add_trace (set_lastitem st1 None) ("Discarded" +++ newline))).
Proof.
  intros Hpre. split.
  - intros Hm. pose proof (do_action_return i e SIEVE_OK st1) as Hr.
    rewrite Hm in Hr. split; [exact Hr|].
    unfold do_action_list. change 0 with SIEVE_OK.
    rewrite (action_loop_app _ _ _ _ _ _ _ _ _ _ _ _ Hpre).
    cbn [action_loop]. rewrite Hr. reflexivity.
  - intros Ha Hd.
    assert (Hs : do_action E i e SIEVE_OK st1
                 = StepBreak SIEVE_OK None
                     (add_trace (set_lastitem st1 None)
                                ("Discarded" +++ newline))).
    { unfold do_action. rewrite Ha, Hd. reflexivity. }
    split; [unfold missing_capability; now rewrite Ha|].
    split; [exact Hs|].
    rewrite (action_loop_app _ _ _ _ _ _ _ _ _ _ _ _ Hpre).
    cbn [action_loop]. rewrite Hs, Ha. reflexivity.
Qed.

Lemma do_action_list_log i flags acts nl em st r st' :
  do_action_list E X i flags acts nl em st = Ret (r, st') ->
  exists evs, log st' = log st ++ evs /\
              forallb is_dispatch_event evs = true.
Proof.
  unfold do_action_list. intros H.
  set (st0 := set_actions_string st _) in H.
  destruct (action_loop_ret i acts None 0 true em st0)
    as (aevs & st1 & Hall & Hlog & Hcases).
  change (log st0) with (log st) in Hlog.
  assert (Ha : forallb is_dispatch_event aevs = true).
  { revert Hall. apply forallb_weaken. intros e He.
    unfold is_dispatch_event. now rewrite He. }
  destruct Hcases as [(r' & Hl & _)|(la & ret & ik & em1 & Hl & _)];
    rewrite Hl in H.
  - injection H as <- <-. exists aevs. auto.
  - apply do_sieve_error_ret in H. destruct H as (hevs & Hlogh & Hallh & _).
    exists (aevs ++ hevs). rewrite Hlogh, Hlog, <- app_assoc.
    split; [reflexivity|]. rewrite forallb_app, Ha.
    revert Hallh. apply forallb_weaken. intros e He.
    unfold is_dispatch_event. rewrite He. apply orb_true_r.
Qed.

Lemma track_loop_log d l em st :
  exists tr, log (track_loop d l em st) = log st ++ tr /\
             forallb is_track_call tr = true /\
             track_calls tr = tracked l.
Proof.
  revert em st. induction l as [|e l IH]; intros em st; cbn [track_loop tracked].
  - exists []. now rewrite app_nil_r.
  - destruct (id e) as [ident|]; [|apply IH].
    unfold invoke.
    match goal with |- context [track_loop d l ?em' ?st'] =>
      destruct (IH em' st') as (tr & Hlog & Hall & Htr) end.
    cbn [set_world log] in Hlog.
    eexists (_ :: tr). rewrite Hlog, <- app_assoc.
    split; [reflexivity|]. split; [exact Hall|]. simpl. now rewrite Htr.
Qed.

Lemma track_records_log i dl ret em st :
  exists tr, log (track_records i dl ret em st) = log st ++ tr /\
             forallb is_track_call tr = true /\
             (ret <> SIEVE_OK -> tr = []) /\
             (ret = SIEVE_OK ->
              track_calls tr = if is_some (duplicate i) then tracked dl else []).
Proof.
  assert (Hnil : exists tr, log st = log st ++ tr /\
            forallb is_track_call tr = true /\ tr = []).
  { exists []. now rewrite app_nil_r. }
  unfold track_records.
  destruct dl as [|d0 dl].
  { destruct Hnil as (tr & H1 & H2 & ->). exists []. repeat split; auto.
    intros _. now destruct (is_some (duplicate i)). }
  destruct (duplicate i) as [d|].
  2:{ destruct Hnil as (tr & H1 & H2 & ->). exists []. repeat split; auto. }
  destruct (Z.eqb_spec ret SIEVE_OK) as [Heq|Hne].
  - destruct (track_loop_log d (d0 :: dl) em st) as (tr & Hlog & Hall & Htr).
    exists tr. repeat split; auto. intros Hne. contradiction.
  - destruct Hnil as (tr & H1 & H2 & ->). exists []. repeat split; auto.
    intros Heq. contradiction.
Qed.

Lemma execute_eval i w item ev :
  eval_run X i w = Some ev ->
  sieve_execute_bytecode E X (Some i) w item
    = (r <- (if Z.ltb (ev_ret ev) 0 then
               do_sieve_error E X handler_fuel (SIEVE_RUN_ERROR E) i
                 (ev_imapflags ev) (ev_notify ev) None false (ev_errmsg ev)
                 {| world := ev_world ev; log := []; actions_string := "";
                    lastitem := ev_lastitem ev |}
             else
               do_action_list E X i (ev_imapflags ev) (ev_actions ev)
                 (ev_notify ev) (ev_errmsg ev)
                 {| world := ev_world ev; log := []; actions_string := "";
                    lastitem := ev_lastitem ev |}) ;;
       Ret (fst r,
            track_records i (ev_duptrack ev) (fst r) (ev_errmsg ev) (snd r))).
Proof.
  unfold eval_run, sieve_execute_bytecode.
  destruct (is_some (duplicate i) && is_nil _); [discriminate|].
  destruct (is_some (notify i) && is_nil _); [discriminate|].
  destruct (new_action_list X) as [|a0 al] eqn:Hal; [discriminate|].
  cbn [is_nil]. intros H. injection H as <-. reflexivity.
Qed.

(** Every run of [sieve_execute_bytecode] with an interpreter: it does not
    run out of fuel, and if it returns, its trace is dispatch events
    followed by the tracking calls, which are made only with [SIEVE_OK] and
    are then the records of [dl], the list the tracker reads. *)
Lemma execute_trace i w item :
  match sieve_execute_bytecode E X (Some i) w item with
  | Ret (r, st') =>
      exists pre tr,
        log st' = pre ++ tr /\
        forallb is_dispatch_event pre = true /\
        forallb is_track_call tr = true /\
        (r <> SIEVE_OK -> tr = []) /\
        (forall ev, eval_run X i w = Some ev -> r = SIEVE_OK ->
           track_calls tr
             = if is_some (duplicate i) then tracked (ev_duptrack ev) else [])
  | Fault => True
  | OutOfFuel => False
  end.
Proof.
  assert (Hh : forall evs, forallb is_handler_event evs = true ->
                           forallb is_dispatch_event evs = true).
  { intros evs. apply forallb_weaken. intros e He. unfold is_dispatch_event.
    rewrite He. apply orb_true_r. }
  assert (Hnomem : forall nl st, log st = [] ->
    match do_sieve_error E X handler_fuel (SIEVE_NOMEM E) i [] nl None false
                         None st with
    | Ret (r, st') =>
        exists pre, log st' = pre /\ forallb is_dispatch_event pre = true
    | Fault => True
    | OutOfFuel => False
    end).
  { intros nl st Hst.
    pose proof (do_sieve_error_finishes (SIEVE_NOMEM E) i [] nl None false
                  None st) as Hf.
    destruct (do_sieve_error E X handler_fuel _ i [] nl None false None st)
      as [[r st']| |] eqn:H; [|exact I|discriminate].
    apply do_sieve_error_ret in H. destruct H as (evs & Hlog & Hall & _).
    rewrite Hst in Hlog. exists evs. auto. }
  destruct (eval_run X i w) as [ev|] eqn:Hev.
  - rewrite (execute_eval i w item ev Hev).
    set (st := {| world := ev_world ev; log := []; actions_string := "";
                  lastitem := ev_lastitem ev |}).
    assert (Hd : match (if Z.ltb (ev_ret ev) 0 then
                   do_sieve_error E X handler_fuel (SIEVE_RUN_ERROR E) i
                     (ev_imapflags ev) (ev_notify ev) None false
                     (ev_errmsg ev) st
                 else do_action_list E X i (ev_imapflags ev) (ev_actions ev)
                        (ev_notify ev) (ev_errmsg ev) st) with
                 | Ret (r, st') => forallb is_dispatch_event (log st') = true
                 | Fault => True
                 | OutOfFuel => False
                 end).
    { destruct (Z.ltb (ev_ret ev) 0).
      - pose proof (do_sieve_error_finishes (SIEVE_RUN_ERROR E) i
                      (ev_imapflags ev) (ev_notify ev) None false
                      (ev_errmsg ev) st) as Hf.
        destruct (do_sieve_error E X handler_fuel _ i _ _ None false _ st)
          as [[r st']| |] eqn:H; [|exact I|discriminate].
        apply do_sieve_error_ret in H. destruct H as (evs & Hlog & Hall & _).
        rewrite Hlog. simpl. auto.
      - pose proof (do_action_list_finishes i (ev_imapflags ev)
                      (ev_actions ev) (ev_notify ev) (ev_errmsg ev) st) as Hf.
        destruct (do_action_list E X i _ _ _ _ st) as [[r st']| |] eqn:H;
          [|exact I|discriminate].
        apply do_action_list_log in H. destruct H as (evs & Hlog & Hall).
        rewrite Hlog. simpl. auto. }
    destruct (if Z.ltb (ev_ret ev) 0 then _ else _) as [[r st1]| |];
      cbn [bind fst snd]; [|exact I|exact Hd].
    destruct (track_records_log i (ev_duptrack ev) r (ev_errmsg ev) st1)
      as (tr & Hlog & Hall & Hne & Hok).
    exists (log st1), tr. repeat split; auto.
    intros ev' Hev' Hr. injection Hev' as <-. auto.
  - unfold eval_run in Hev. unfold sieve_execute_bytecode.
    set (st0 := {| world := w; log := []; actions_string := "";
                   lastitem := item |}).
    assert (Hdirect : forall nl,
      match do_sieve_error E X handler_fuel (SIEVE_NOMEM E) i [] nl None false
                           None st0 with
      | Ret (r, st') =>
          exists pre tr,
            log st' = pre ++ tr /\
            forallb is_dispatch_event pre = true /\
            forallb is_track_call tr = true /\
            (r <> SIEVE_OK -> tr = []) /\
            (forall ev : eval_result World, None = Some ev -> r = SIEVE_OK ->
               track_calls tr
                 = if is_some (duplicate i) then tracked (ev_duptrack ev)
                   else [])
      | Fault => True
      | OutOfFuel => False
      end).
    { intros nl. specialize (Hnomem nl st0 eq_refl).
      destruct (do_sieve_error E X handler_fuel _ i [] nl None false None st0)
        as [[r st']| |]; auto.
      destruct Hnomem as (pre & Hlog & Hall). exists pre, [].
      rewrite app_nil_r. repeat split; auto. discriminate. }
    destruct (is_some (duplicate i) && is_nil _); [apply Hdirect|].
    destruct (is_some (notify i) && is_nil _); [apply Hdirect|].
    destruct (new_action_list X) as [|a0 al]; [|discriminate].
    specialize (Hnomem (if is_some (notify i) then new_notify_list X else [])
                       st0 eq_refl).
    destruct (do_sieve_error E X handler_fuel _ i [] _ None false None st0)
      as [[r st1]| |]; cbn [bind fst snd]; auto.
    destruct Hnomem as (pre & Hlog & Hall).
    destruct (track_records_log i
                (if is_some (duplicate i) then new_duptrack_list X else [])
                r None st1) as (tr & Hlogt & Hallt & Hne & _).
    exists pre, tr. rewrite Hlogt, Hlog. repeat split; auto. discriminate.
Qed.

(** C9.  In every run of [sieve_execute_bytecode] that returns, the trace
    is the calls made while dispatching (action callbacks, notifications,
    [execute_err], implicit keep), none of which is a tracking call,
    followed by the tracking calls and nothing else.  With a result other
    than [SIEVE_OK] there is no tracking call at all; with [SIEVE_OK] after
    an evaluation, the tracker is called for each record that has an id, in
    list order, if it is registered.  A run never exhausts the handler's
    fuel. *)
Theorem duptrack_last_and_only_on_ok i w item :
  match sieve_execute_bytecode E X (Some i) w item with
  | Ret (r, st') =>
      exists pre tr,
        log st' = pre ++ tr /\
        forallb is_dispatch_event pre = true /\
        count is_track_call pre = 0%nat /\
        forallb is_track_call tr = true /\
        count is_dispatch_event tr = 0%nat /\
        (r <> SIEVE_OK -> count is_track_call (log st') = 0%nat) /\
        (forall ev, eval_run X i w = Some ev -> r = SIEVE_OK ->
           track_calls tr
             = if is_some (duplicate i) then tracked (ev_duptrack ev) else [])
  | Fault => True
  | OutOfFuel => False
  end.
Proof.
  pose proof (execute_trace i w item) as H.
  destruct (sieve_execute_bytecode E X (Some i) w item) as [[r st']| |];
    [|exact I|exact H].
  destruct H as (pre & tr & Hlog & Hpre & Htr & Hne & Hok).
  assert (Hc : count is_track_call pre = 0%nat).
  { revert Hpre. apply count_none. intros [[] ?|]; simpl; auto; discriminate. }
  exists pre, tr. repeat split; try assumption.
  - revert Htr. apply count_none. intros [[] ?|]; simpl; auto; discriminate.
  - intros Hr. rewrite Hlog, (Hne Hr), app_nil_r. exact Hc.
Qed.

Lemma or_statuses_app (x : Z) (l1 l2 : list event) :
  or_statuses x (l1 ++ l2) = or_statuses (or_statuses x l1) l2.
Proof. unfold or_statuses. now rewrite map_app, fold_left_app. Qed.

Lemma or_statuses_keeps (p x : Z) (l : list event) :
  Z.lor p x = x -> Z.lor p (or_statuses x l) = or_statuses x l.
Proof.
  unfold or_statuses. revert x.
  induction l as [|e l IH]; intros x Hx; cbn [map fold_left]; [exact Hx|].
  apply IH. now rewrite Z.lor_assoc, Hx.
Qed.

Lemma or_statuses_nonzero (x : Z) (l : list event) :
  x <> SIEVE_OK -> or_statuses x l <> SIEVE_OK.
Proof.
  unfold or_statuses. revert x.
  induction l as [|e l IH]; intros x Hx; cbn [map fold_left]; [exact Hx|].
  apply IH. intros Hz. apply Z.lor_eq_0_iff in Hz. now destruct Hz.
Qed.

(** The notification loop entered with a status that already holds the
    bits of [SIEVE_RUN_ERROR]: the status it leaves is the one it was
    entered with, or-ed with what each notify call returned. *)
Lemma notify_loop_statuses i cb l v v' :
  notify_loop E X i cb l v = Ret v' ->
  Z.lor (SIEVE_RUN_ERROR E) (nv_ret v) = nv_ret v ->
  exists evs,
    log (nv_state v') = log (nv_state v) ++ evs /\
    forallb is_notify_call evs = true /\
    nv_ret v' = or_statuses (nv_ret v) evs.
Proof.
  revert v. induction l as [|n l IH]; intros v H Hrun; cbn [notify_loop] in H.
  - injection H as <-. exists []. rewrite app_nil_r. auto.
  - destruct (isactive n) eqn:Hact; [|now apply IH].
    destruct (send_notify_callback E X i cb n (nv_errmsg v) (nv_state v))
      as [[[r em] st1]| |] eqn:Hs; cbn [bind] in H; try discriminate.
    apply send_notify_callback_ret in Hs. destruct Hs as (_ & _ & Hs).
    apply IH in H; cbn [nv_ret nv_state] in *.
    2:{ now rewrite Z.lor_assoc, Hrun. }
    destruct H as (evs & Hlog & Hall & Hret).
    destruct Hs as [(_ & nc & Hl1 & _)|(_ & _ & -> & ->)].
    + exists (EvCall (CallNotify nc) r :: evs).
      rewrite Hlog, Hl1, <- app_assoc. cbn [app forallb is_notify_call andb].
      repeat split; auto.
    + exists evs. repeat split; auto.
      rewrite Hret. f_equal. now rewrite Z.lor_comm.
Qed.

Lemma notify_phase_statuses i nl v v' :
  notify_phase E X i nl v = Ret v' ->
  Z.lor (SIEVE_RUN_ERROR E) (nv_ret v) = nv_ret v ->
  exists evs,
    log (nv_state v') = log (nv_state v) ++ evs /\
    forallb is_notify_call evs = true /\
    nv_ret v' = or_statuses (nv_ret v) evs.
Proof.
  unfold notify_phase. intros H Hrun.
  assert (Hsame : Ret v = Ret v' ->
            exists evs,
              log (nv_state v') = log (nv_state v) ++ evs /\
              forallb is_notify_call evs = true /\
              nv_ret v' = or_statuses (nv_ret v) evs).
  { intros Hv. injection Hv as <-. exists []. rewrite app_nil_r. auto. }
  destruct (notify i) as [cb|]; [|now apply Hsame].
  destruct nl as [|n nl]; [now apply Hsame|].
  now apply notify_loop_statuses in H.
Qed.

(** The handler entered with implicit keep disabled and a status that holds
    the bits of [SIEVE_RUN_ERROR]: its trace is the notifications followed
    by the report, and its result is the status it was entered with, or-ed
    with what each of those calls returned. *)
Lemma do_sieve_error_statuses (fuel : nat) :
  forall ret i flags nl la em st r st',
  do_sieve_error E X fuel ret i flags nl la false em st = Ret (r, st') ->
  Z.lor (SIEVE_RUN_ERROR E) ret = ret ->
  exists nevs revs,
    log st' = log st ++ nevs ++ revs /\
    count is_execute_err nevs = 0%nat /\
    forallb is_execute_err revs = true /\
    r = or_statuses ret (nevs ++ revs) /\
    (ret <> SIEVE_OK ->
     List.length revs = if is_some (execute_err i) then 1%nat else 0%nat).
Proof.
  induction fuel as [|fuel IH]; intros ret i flags nl la em st r st' H Hrun;
    [discriminate|].
  cbn [do_sieve_error] in H.
  set (st1 := failure_line E ret la em _) in H.
  assert (Hst1 : log st1 = log st ++ [EvHandler (negb (is_nil nl)) false]).
  { subst st1. now rewrite failure_line_log. }
  clearbody st1.
  destruct (notify_phase E X i nl _) as [v| |] eqn:Hn; cbn [bind] in H;
    try discriminate.
  apply notify_phase_statuses in Hn; [|exact Hrun].
  destruct Hn as (evn & Hlogn & Halln & Hretn).
  cbn [nv_state nv_ret] in Hlogn, Hretn.
  assert (Hn_c : count is_execute_err evn = 0%nat).
  { revert Halln. apply count_none. intros [[] ?|]; simpl; auto; discriminate. }
  assert (Hrunv : Z.lor (SIEVE_RUN_ERROR E) (nv_ret v) = nv_ret v).
  { rewrite Hretn. now apply or_statuses_keeps. }
  assert (Hhead : forall l,
            or_statuses ret ([EvHandler (negb (is_nil nl)) false] ++ evn ++ l)
            = or_statuses (nv_ret v) l).
  { intros l. rewrite !or_statuses_app.
    replace (or_statuses ret [EvHandler (negb (is_nil nl)) false]) with ret
      by (unfold or_statuses, SIEVE_OK; cbn; now rewrite Z.lor_0_r).
    now rewrite <- Hretn. }
  destruct (notifies i nl && negb (Z.eqb (nv_notify_ret v) SIEVE_OK)) eqn:Hre.
  - apply IH in H; [|exact Hrunv].
    destruct H as (nevs & revs & Hlog & Hc & Hall & Hr & Hlen).
    exists ([EvHandler (negb (is_nil nl)) false] ++ evn ++ nevs), revs.
    rewrite Hlog, Hlogn, Hst1, <- !app_assoc.
    split; [reflexivity|].
    rewrite !count_app, Hn_c, Hc. split; [reflexivity|].
    split; [exact Hall|].
    rewrite Hhead. split; [exact Hr|].
    intros Hnz. apply Hlen. rewrite Hretn. now apply or_statuses_nonzero.
  - unfold report_error in H.
    assert (Hplain : forall r0 s0, Ret (nv_ret v, nv_state v) = Ret (r0, s0) ->
              (ret <> SIEVE_OK -> is_some (execute_err i) = false) ->
              exists nevs revs,
                log s0 = log st ++ nevs ++ revs /\
                count is_execute_err nevs = 0%nat /\
                forallb is_execute_err revs = true /\
                r0 = or_statuses ret (nevs ++ revs) /\
                (ret <> SIEVE_OK ->
                 List.length revs
                 = if is_some (execute_err i) then 1%nat else 0%nat)).
    { intros r0 s0 Heq Hreg. injection Heq as <- <-.
      exists ([EvHandler (negb (is_nil nl)) false] ++ evn), [].
      rewrite Hlogn, Hst1, <- !app_assoc, app_nil_r.
      split; [reflexivity|].
      rewrite !count_app, Hn_c. split; [reflexivity|].
      split; [reflexivity|].
      split.
      { rewrite <- (app_nil_r evn) at 1. rewrite Hhead. reflexivity. }
      intros Hnz. now rewrite (Hreg Hnz). }
    destruct (execute_err i) as [cb|]; [|now apply Hplain].
    destruct (Z.eqb_spec (nv_ret v) SIEVE_OK) as [Hz|Hnz].
    { apply Hplain; [exact H|]. intros Hne. exfalso.
      apply (or_statuses_nonzero ret evn Hne). now rewrite <- Hretn. }
    destruct (cb _ (world (nv_state v))) as [x w] eqn:Hcb.
    injection H as <- <-.
    eexists ([EvHandler (negb (is_nil nl)) false] ++ evn), [_].
    cbn [set_world log]. rewrite Hlogn, Hst1, <- !app_assoc.
    split; [reflexivity|].
    rewrite !count_app, Hn_c. split; [reflexivity|].
    split; [reflexivity|].
    split; [|reflexivity].
    rewrite Hhead. reflexivity.
Qed.

Lemma count_all (f : event -> bool) (l : list event) :
  forallb f l = true -> count f l = List.length l.
Proof.
  unfold count. induction l as [|e l IH]; cbn [forallb filter]; [reflexivity|].
  intros H. apply andb_true_iff in H. destruct H as [He Hl].
  rewrite He. cbn [List.length]. now rewrite IH.
Qed.

(** C3, as the code has it.  When the evaluator returns a negative code,
    [sieve_execute_bytecode] enters the error handler with
    [SIEVE_RUN_ERROR], no last action and implicit keep disabled, and the
    action loop is not run.  The run terminates; when it returns, its status
    keeps the bits of [SIEVE_RUN_ERROR], no action callback was called and no
    implicit keep was made.  [SIEVE_RUN_ERROR] being non-zero, the status is
    not [SIEVE_OK], no duplicate-tracking record was written, the notify
    callback was called once for each deliverable entry of the notify list
    (if a notify callback is registered), the error was then reported
    through [execute_err], once, if that callback is registered, and the
    status is [SIEVE_RUN_ERROR] or-ed with what each of these calls
    returned. *)
Theorem eval_failure_skips_dispatch i w item ev :
  eval_run X i w = Some ev -> ev_ret ev < 0 ->
  sieve_execute_bytecode E X (Some i) w item
    = (r <- do_sieve_error E X handler_fuel (SIEVE_RUN_ERROR E) i
              (ev_imapflags ev) (ev_notify ev) None false (ev_errmsg ev)
              {| world := ev_world ev; log := []; actions_string := "";
                 lastitem := ev_lastitem ev |} ;;
       Ret (fst r,
            track_records i (ev_duptrack ev) (fst r) (ev_errmsg ev) (snd r)))
  /\
  finishes (sieve_execute_bytecode E X (Some i) w item) = true /\
  forall r st',
    sieve_execute_bytecode E X (Some i) w item = Ret (r, st') ->
    Z.lor (SIEVE_RUN_ERROR E) r = r /\
    count is_action_call (log st') = 0%nat /\
    count is_implicit_keep (log st') = 0%nat /\
    (SIEVE_RUN_ERROR E <> SIEVE_OK ->
     r <> SIEVE_OK /\
     count is_track_call (log st') = 0%nat /\
     map (fun nc => Some (nc_method nc)) (notify_calls (log st'))
       = (if notifies i (ev_notify ev)
          then map method (filter deliverable (ev_notify ev)) else []) /\
     r = or_statuses (SIEVE_RUN_ERROR E) (log st') /\
     count is_execute_err (log st')
       = (if is_some (execute_err i) then 1%nat else 0%nat) /\
     exists nevs revs,
       log st' = nevs ++ revs /\
       count is_execute_err nevs = 0%nat /\
       forallb is_execute_err revs = true).
Proof.
  intros Hev Hneg.
  pose proof (execute_eval i w item ev Hev) as Heq.
  apply Z.ltb_lt in Hneg. rewrite Hneg in Heq.
  split; [exact Heq|].
  set (st := {| world := ev_world ev; log := []; actions_string := "";
                lastitem := ev_lastitem ev |}) in *.
  pose proof (do_sieve_error_finishes (SIEVE_RUN_ERROR E) i (ev_imapflags ev)
                (ev_notify ev) None false (ev_errmsg ev) st) as Hf.
  rewrite Heq.
  destruct (do_sieve_error E X handler_fuel _ i _ _ None false _ st)
    as [[r1 st1]| |] eqn:H; cbn [bind fst snd]; try discriminate.
  2:{ split; [reflexivity|]. intros r st' Hr. discriminate. }
  split; [reflexivity|].
  intros r st' Hr. injection Hr as <- <-.
  pose proof (do_sieve_error_statuses _ _ _ _ _ _ _ _ _ _ H
                (Z.lor_diag _)) as Hst.
  apply do_sieve_error_ret in H.
  destruct H as (evs & Hlog & Hall & Hk & Hn & Hlor).
  cbn [log st] in Hlog. simpl in Hlog.
  destruct (track_records_log i (ev_duptrack ev) r1 (ev_errmsg ev) st1)
    as (tr & Hlogt & Hallt & Hne & _).
  assert (Hnz : SIEVE_RUN_ERROR E <> SIEVE_OK -> r1 <> SIEVE_OK).
  { intros Hz ->. unfold SIEVE_OK in *. rewrite Z.lor_0_r in Hlor.
    contradiction. }
  assert (Hca : count is_action_call evs = 0%nat).
  { revert Hall. apply count_none. intros [[] ?|]; simpl; auto; discriminate. }
  assert (Hct : count is_track_call evs = 0%nat).
  { revert Hall. apply count_none. intros [[] ?|]; simpl; auto; discriminate. }
  assert (Hta : count is_action_call tr = 0%nat).
  { revert Hallt. apply count_none. intros [[] ?|]; simpl; auto; discriminate. }
  assert (Htk : count is_implicit_keep tr = 0%nat).
  { revert Hallt. apply count_none. intros [[] ?|]; simpl; auto; discriminate. }
  rewrite Hlogt, Hlog, !count_app, Hca, Hta, Hk, Htk.
  split; [assumption|]. split; [reflexivity|]. split; [reflexivity|].
  intros Hz. rewrite (Hne (Hnz Hz)), app_nil_r, Hct.
  split; [now apply Hnz|]. split; [reflexivity|]. split; [exact Hn|].
  destruct Hst as (nevs & revs & Hlog2 & Hc & Hrev & Hr & Hlen).
  cbn [log st app] in Hlog2. rewrite Hlog in Hlog2. subst evs.
  rewrite ?Hlog2.
  split; [exact Hr|].
  split.
  { rewrite count_app, Hc, (count_all _ _ Hrev).
    change (count is_execute_err []) with 0%nat.
    rewrite Nat.add_0_r. exact (Hlen Hz). }
  exists nevs, revs. auto.
Qed.

End DispatchProperties.

(** ** Bytecode cache: unloading, descriptors and the handle invariant *)

Section CacheLifecycle.

Variable E : sieve_err.

Lemma unload_blobs_closes (l : list sieve_bytecode_t) (tail : list release_event) :
  closes (unload_blobs l ++ tail) = map fd l ++ closes tail /\
  unmaps (unload_blobs l ++ tail) = map fd l ++ unmaps tail.
Proof.
  induction l as [|bc l [IHc IHu]]; simpl; [split; reflexivity|].
  rewrite IHc, IHu. split; reflexivity.
Qed.

(** X1: unloading a handle releases every blob exactly once, in list order
    and in the order of the loop body: for each blob its mapping is freed,
    then its descriptor closed, then the blob itself freed.  The handle is
    freed last and the caller's variable is NULL afterwards, so that
    unloading it again returns [SIEVE_FAIL] and releases nothing. *)
Theorem unload_releases_every_blob (ex : sieve_execute_t) :
  let '(r, s', evs) := sieve_script_unload E (Some (Some ex)) in
  r = SIEVE_OK /\ s' = Some None /\
  evs = flat_map (fun bc => [RelUnmap (fd bc); RelClose (fd bc);
                             RelFreeBlob (fd bc)]) (bc_list ex)
        ++ [RelFreeHandle] /\
  unmaps evs = map fd (bc_list ex) /\
  closes evs = map fd (bc_list ex) /\
  frees evs = map fd (bc_list ex) /\
  sieve_script_unload E s' = (SIEVE_FAIL E, s', []).
Proof.
  cbn [sieve_script_unload].
  assert (Hflat : unload_blobs (bc_list ex)
                  = flat_map (fun bc => [RelUnmap (fd bc); RelClose (fd bc);
                                         RelFreeBlob (fd bc)]) (bc_list ex)).
  { induction (bc_list ex) as [|bc l IH]; cbn; [reflexivity|].
    now rewrite IH. }
  assert (Hfree : forall l tail,
            frees (unload_blobs l ++ tail) = map fd l ++ frees tail).
  { induction l as [|bc l IH]; intros tail; cbn; [reflexivity|].
    now rewrite IH. }
  destruct (unload_blobs_closes (bc_list ex) [RelFreeHandle]) as [Hc Hu].
  specialize (Hfree (bc_list ex) [RelFreeHandle]).
  simpl in Hc, Hu, Hfree. rewrite app_nil_r in Hc, Hu, Hfree.
  rewrite <- Hflat. repeat split; assumption.
Qed.

Lemma load_descriptors (fs : filesystem) (fname : option string)
    (h : option sieve_execute_t) :
  let '(r, ret', evs) := sieve_script_load E fs fname (Some h) in
  obtained evs = mapped evs ++ closed evs /\
  (List.length (obtained evs) <= 1)%nat /\
  exists h',
    ret' = Some h' /\
    map fd (handle_blobs h') = mapped evs ++ map fd (handle_blobs h).
Proof.
  destruct fname as [f|]; [|simpl; repeat split; eauto].
  unfold sieve_script_load.
  destruct (fs_stat fs f) as [sbuf|]; [|simpl; repeat split; eauto].
  destruct h as [ex|]; simpl.
  - destruct (find_inode (st_ino sbuf) (bc_list ex)) as [k|];
      [simpl; repeat split; eauto|].
    destruct (fs_open fs f) as [d|]; [|simpl; repeat split; eauto].
    destruct (fs_fstat fs d) as [sbuf'|]; simpl; repeat split; eauto.
  - destruct (fs_open fs f) as [d|]; [|simpl; repeat split; eauto].
    destruct (fs_fstat fs d) as [sbuf'|]; simpl; repeat split; eauto.
Qed.

(** X2: the loader never loses a descriptor: one it obtains is either mapped
    and then found at the front of the handle's blob list, or closed before
    the call returns; and the descriptors of the handle are those it had
    plus the one mapped. *)
Theorem load_keeps_or_closes_descriptor (fs : filesystem)
    (fname : option string) (h : option sieve_execute_t) :
  let '(r, ret', evs) := sieve_script_load E fs fname (Some h) in
  obtained evs = mapped evs ++ closed evs /\
  (List.length (obtained evs) <= 1)%nat /\
  exists h',
    ret' = Some h' /\
    map fd (handle_blobs h') = mapped evs ++ map fd (handle_blobs h).
Proof. apply load_descriptors. Qed.

Lemma mapped_app (l1 l2 : list io_event) :
  mapped (l1 ++ l2) = mapped l1 ++ mapped l2.
Proof.
  induction l1 as [|e l1 IH]; simpl; [reflexivity|].
  destruct e; simpl; now rewrite ?IH.
Qed.

Lemma load_all_descriptors (fs : filesystem) (names : list string) :
  forall h,
  map fd (handle_blobs (fst (load_all E fs names h)))
    = rev (mapped (snd (load_all E fs names h))) ++ map fd (handle_blobs h).
Proof.
  induction names as [|f names IH]; intros h; [reflexivity|].
  cbn [load_all].
  pose proof (load_descriptors fs (Some f) h) as Hl.
  destruct (sieve_script_load E fs (Some f) (Some h)) as [[r ret'] evs].
  destruct Hl as (Hob & Hlen & h' & -> & Hfd).
  specialize (IH h').
  destruct (load_all E fs names h') as [h'' evs'].
  cbn [fst snd] in IH |- *.
  rewrite IH, Hfd, mapped_app, rev_app_distr, <- app_assoc.
  f_equal. f_equal.
  rewrite Hob, length_app in Hlen.
  destruct (mapped evs) as [|d [|d' l]]; try reflexivity.
  simpl in Hlen. lia.
Qed.

(** X3: loading any files under one handle variable and then unloading it: the
    descriptors [unload] closes are exactly those the loads mapped, newest
    first, followed by the ones the handle held before. *)
Theorem load_all_then_unload (fs : filesystem) (names : list string)
    (h : option sieve_execute_t) :
  let '(h', evs) := load_all E fs names h in
  closes (snd (sieve_script_unload E (Some h')))
    = rev (mapped evs) ++ map fd (handle_blobs h).
Proof.
  pose proof (load_all_descriptors fs names h) as H.
  destruct (load_all E fs names h) as [h' evs]. cbn [fst snd] in H.
  rewrite <- H. destruct h' as [ex|]; [|reflexivity].
  cbn [sieve_script_unload snd handle_blobs].
  destruct (unload_blobs_closes (bc_list ex) [RelFreeHandle]) as [Hc _].
  rewrite Hc. simpl. apply app_nil_r.
Qed.

(** X4: the handle invariant is kept by every call of the loader on a coherent
    file system, whatever it returns: the blob list keeps pairwise distinct
    inodes, the cursor of the handle names one of its blobs, and the list
    the handle had is still there, behind at most one new blob. *)
Theorem load_keeps_handle_ok (fs : filesystem) (fname : option string)
    (h : option sieve_execute_t) :
  coherent fs -> handle_ok h ->
  let '(r, ret', evs) := sieve_script_load E fs fname (Some h) in
  exists h',
    ret' = Some h' /\ handle_ok h' /\
    (handle_blobs h' = handle_blobs h \/
     exists bc, handle_blobs h' = bc :: handle_blobs h).
Proof.
  intros Hco [Hnd Hcur].
  destruct fname as [f|]; [|simpl; exists h; repeat split; auto].
  unfold sieve_script_load.
  destruct (fs_stat fs f) as [sbuf|] eqn:Hstat;
    [|exists h; repeat split; auto].
  assert (Hnew : forall d sbuf' (l : list sieve_bytecode_t),
            fs_open fs f = Some d -> fs_fstat fs d = Some sbuf' ->
            find_inode (st_ino sbuf) l = None -> NoDup (map inode l) ->
            handle_ok (Some {| bc_list :=
                                 {| inode := st_ino sbuf';
                                    data := fs_map fs d (st_size sbuf');
                                    len := st_size sbuf'; fd := d |} :: l;
                               bc_cur := Some 0%nat |})).
  { intros d sbuf' l Hopen Hfstat Hf Hl. split.
    - cbn [handle_blobs bc_list map inode]. constructor; [|exact Hl].
      rewrite (Hco f sbuf d sbuf' Hstat Hopen Hfstat).
      rewrite find_inode_none in Hf.
      intros Hin. apply in_map_iff in Hin. destruct Hin as (bc & Hi & Hin).
      exact (Hf bc Hin Hi).
    - cbn [handle_cur bc_cur bc_list nth_error]. eexists.
      split; [reflexivity | now left]. }
  destruct h as [ex|]; cbn [handle_blobs] in Hnd |- *.
  - destruct (find_inode (st_ino sbuf) (bc_list ex)) as [k|] eqn:Hf.
    + destruct (find_inode_some _ _ _ Hf) as (bc & Hn & _).
      eexists. split; [reflexivity|]. split; [|left; reflexivity].
      split; [exact Hnd|]. cbn [handle_cur bc_cur bc_list].
      exists bc. split; [exact Hn|]. eapply nth_error_In; eassumption.
    + destruct (fs_open fs f) as [d|] eqn:Hopen;
        [|eexists; split; [reflexivity|]; split; [split|left]; auto].
      destruct (fs_fstat fs d) as [sbuf'|] eqn:Hfstat;
        [|eexists; split; [reflexivity|]; split; [split|left]; auto].
      eexists. split; [reflexivity|]. split; [now apply Hnew|].
      right. eexists. reflexivity.
  - cbn [bc_list find_inode].
    destruct (fs_open fs f) as [d|] eqn:Hopen;
      [|eexists; split; [reflexivity|]; split; [split|left]; auto].
    destruct (fs_fstat fs d) as [sbuf'|] eqn:Hfstat;
      [|eexists; split; [reflexivity|]; split; [split|left]; auto].
    eexists. split; [reflexivity|]. split; [now apply Hnew|].
    right. eexists. reflexivity.
Qed.

(** X5: loading is idempotent: once a call for a file has succeeded (with
    [SIEVE_OK] or as a reload), a further call for the same file under the
    handle it left reports a reload, leaves the handle and its cursor as
    they are, and makes no system call but [stat]. *)
Theorem load_again (fs : filesystem) (f : string)
    (h : option sieve_execute_t) :
  coherent fs ->
  let first := sieve_script_load E fs (Some f) (Some h) in
  fst (fst first) <> SIEVE_FAIL E ->
  sieve_script_load E fs (Some f) (snd (fst first))
    = (SIEVE_SCRIPT_RELOADED E, snd (fst first), [IoStat f]).
Proof.
  intros Hco. cbv zeta.
  set (first := sieve_script_load E fs (Some f) (Some h)).
  assert (Hcase :
    fst (fst first) = SIEVE_FAIL E \/
    (exists sbuf ex k,
       fs_stat fs f = Some sbuf /\
       find_inode (st_ino sbuf) (bc_list ex) = Some k /\
       snd (fst first)
         = Some (Some {| bc_list := bc_list ex; bc_cur := Some k |})) \/
    (exists sbuf d sbuf' l,
       fs_stat fs f = Some sbuf /\ fs_open fs f = Some d /\
       fs_fstat fs d = Some sbuf' /\
       snd (fst first)
         = Some (Some {| bc_list :=
                           {| inode := st_ino sbuf';
                              data := fs_map fs d (st_size sbuf');
                              len := st_size sbuf'; fd := d |} :: l;
                         bc_cur := Some 0%nat |}))).
  { subst first. unfold sieve_script_load.
    destruct (fs_stat fs f) as [sbuf|] eqn:Hstat; [|now left].
    destruct h as [ex|].
    - destruct (find_inode (st_ino sbuf) (bc_list ex)) as [k|] eqn:Hf.
      + right; left. exists sbuf, ex, k. auto.
      + destruct (fs_open fs f) as [d|] eqn:Hopen; [|now left].
        destruct (fs_fstat fs d) as [sbuf'|] eqn:Hfstat; [|now left].
        right; right. exists sbuf, d, sbuf', (bc_list ex). auto.
    - cbn [bc_list find_inode].
      destruct (fs_open fs f) as [d|] eqn:Hopen; [|now left].
      destruct (fs_fstat fs d) as [sbuf'|] eqn:Hfstat; [|now left].
      right; right. exists sbuf, d, sbuf', []. auto. }
  clearbody first. intros Hne.
  destruct Hcase as [Hfail|[(sbuf & ex & k & Hstat & Hf & ->)
                           |(sbuf & d & sbuf' & l & Hstat & Hopen & Hfstat & ->)]].
  - contradiction.
  - unfold sieve_script_load. rewrite Hstat. cbn [bc_list]. rewrite Hf.
    reflexivity.
  - unfold sieve_script_load. rewrite Hstat. cbn [bc_list find_inode inode].
    rewrite (Hco f sbuf d sbuf' Hstat Hopen Hfstat), Z.eqb_refl.
    reflexivity.
Qed.

End CacheLifecycle.

(** ** Placeholder expansion *)

Section BuilderExpansion.

Context {World : Type}.
Variable X : externals World.
Variable i : sieve_interp_t World.

Lemma caseprefix_cons (t x : ascii) (tok c : string) :
  caseprefix (String t tok) (String x c)
    = Ascii.eqb (tolower t) (tolower x) && caseprefix tok c.
Proof. reflexivity. Qed.

Lemma tolower_dollar (x : ascii) : tolower "$" = tolower x -> x = "$"%char.
Proof.
  intros H.
  destruct x as [[|] [|] [|] [|] [|] [|] [|] [|]];
    vm_compute in H; try discriminate; reflexivity.
Qed.

Lemma tolower_bracket (x : ascii) : tolower "[" = tolower x -> x = "["%char.
Proof.
  intros H.
  destruct x as [[|] [|] [|] [|] [|] [|] [|] [|]];
    vm_compute in H; try discriminate; reflexivity.
Qed.

Lemma caseprefix_dollar (tok : string) (x : ascii) (c : string) :
  Ascii.eqb x "$" = false -> caseprefix (String "$" tok) (String x c) = false.
Proof.
  intros Hx. rewrite caseprefix_cons.
  destruct (Ascii.eqb (tolower "$") (tolower x)) eqn:He; [|reflexivity].
  apply Ascii.eqb_eq, tolower_dollar in He. subst x. discriminate.
Qed.

Lemma strcspn_dollar_app (p rest : string) :
  dollar_free p = true ->
  rest = "" \/ (exists r, rest = String "$" r) ->
  strcspn_dollar (p +++ rest) = String.length p.
Proof.
  intros Hp Hrest. induction p as [|x p IH]; simpl.
  - destruct Hrest as [->|[r ->]]; reflexivity.
  - simpl in Hp. apply andb_true_iff in Hp. destruct Hp as [Hx Hp].
    apply negb_true_iff in Hx. rewrite Hx. now rewrite IH.
Qed.

Lemma drop_app (p rest : string) : drop (String.length p) (p +++ rest) = rest.
Proof. induction p as [|x p IH]; simpl; [now destruct rest | exact IH]. Qed.

Lemma take_app (p rest : string) : take (String.length p) (p +++ rest) = p.
Proof.
  induction p as [|x p IH]; simpl; [now destruct rest | now rewrite IH].
Qed.

Lemma length_append (s t : string) :
  String.length (s +++ t) = (String.length s + String.length t)%nat.
Proof. induction s as [|x s IH]; simpl; [reflexivity | now rewrite IH]. Qed.

(** A run of plain text before the next ['$'] (or the end) is copied in at
    most one pass. *)
Lemma build_loop_chunk (fuel : nat) (p rest : string) (out : buf) :
  dollar_free p = true ->
  rest = "" \/ (exists r, rest = String "$" r) ->
  (String.length (p +++ rest) <= fuel)%nat ->
  exists fuel' out1,
    (String.length rest <= fuel')%nat /\
    buf_s out1 = buf_s out +++ p /\
    build_loop X i fuel (p +++ rest) out = build_loop X i fuel' rest out1.
Proof.
  intros Hp Hrest Hlen. destruct p as [|x p].
  - exists fuel, out. repeat split; [exact Hlen | now rewrite append_nil_r].
  - destruct fuel as [|fuel]; [simpl in Hlen; lia|].
    simpl in Hp. apply andb_true_iff in Hp. destruct Hp as [Hx Hp].
    apply negb_true_iff in Hx.
    exists fuel, (buf_appendmap out (String x p +++ rest)
                    (S (String.length p))).
    rewrite length_append in Hlen. cbn [String.length] in Hlen.
    split; [lia|]. split.
    + unfold buf_appendmap. cbn [buf_s]. f_equal.
      exact (take_app (String x p) rest).
    + change (String x p +++ rest) with (String x (p +++ rest)).
      cbn [build_loop].
      rewrite !(caseprefix_dollar _ x _ Hx). cbn [andb].
      cbn [drop]. rewrite (strcspn_dollar_app p rest Hp Hrest).
      rewrite drop_app.
      destruct (getbody i); reflexivity.
Qed.

(** Plain text at the end of a template. *)
Lemma build_loop_tail (fuel : nat) (q : string) (out : buf) :
  dollar_free q = true -> (String.length q <= fuel)%nat ->
  exists out', build_loop X i fuel q out = Ret out' /\
               buf_s out' = buf_s out +++ q.
Proof.
  intros Hq Hlen.
  destruct (build_loop_chunk fuel q "" out Hq (or_introl eq_refl))
    as (fuel' & out1 & _ & Hs & Hb).
  { now rewrite append_nil_r. }
  rewrite append_nil_r in Hb. exists out1. split; [|exact Hs].
  rewrite Hb. now destruct fuel'.
Qed.



Ltac split_token H :=
  unfold same_token in H; apply andb_true_iff in H;
  let Hc := fresh "Hc" in let Hl := fresh "Hl" in
  destruct H as [Hc Hl]; apply Nat.eqb_eq in Hl;
  repeat match goal with
         | t : string |- _ =>
             match type of Hl with
             | context [String.length t] =>
                 destruct t; cbn [String.length] in Hl; try discriminate Hl;
                 try (apply Nat.succ_inj in Hl)
             end
         end;
  cbn [caseprefix] in Hc;
  repeat match type of Hc with
         | _ && _ = true =>
             let Hh := fresh "Hh" in
             apply andb_true_iff in Hc; destruct Hc as [Hh Hc];
             apply Ascii.eqb_eq in Hh
         end.


Lemma decimal_from_mod (ds : string) (a : Z) :
  decimal_from ds a mod 2 ^ 64 = decimal_from ds (a mod 2 ^ 64) mod 2 ^ 64.
Proof.
  revert a. induction ds as [|x ds IH]; intros a; cbn [decimal_from].
  - now rewrite Z.mod_mod.
  - rewrite IH, (IH (a mod 2 ^ 64 * 10 + _)). f_equal. f_equal.
    rewrite (Z.add_mod (a mod 2 ^ 64 * 10)), Z.mul_mod_idemp_l,
      <- Z.add_mod by lia.
    reflexivity.
Qed.

Lemma decimal_from_nonneg (ds : string) (a : Z) :
  all_digits ds = true -> 0 <= a -> 0 <= decimal_from ds a.
Proof.
  revert a. induction ds as [|x ds IH]; intros a Hd Ha; cbn [decimal_from].
  - exact Ha.
  - cbn [all_digits] in Hd. apply andb_true_iff in Hd. destruct Hd as [Hx Hd].
    apply andb_true_iff in Hx. destruct Hx as [Hlo Hhi].
    apply Nat.leb_le in Hlo. apply IH; [exact Hd | lia].
Qed.

(** The digit loop reads a decimal number, modulo 2^64. *)
Lemma scan_count_digits (ds rest : string) (n : Z) :
  all_digits ds = true -> 0 <= n < 2 ^ 64 ->
  scan_count (ds +++ String "]" rest) n
    = Ret (decimal_from ds n mod 2 ^ 64, String "]" rest).
Proof.
  revert n. induction ds as [|x ds IH]; intros n Hd Hn.
  - cbn. now rewrite Z.mod_small.
  - cbn [all_digits] in Hd. apply andb_true_iff in Hd. destruct Hd as [Hx Hd].
    cbn [append scan_count decimal_from].
    destruct (Ascii.eqb_spec x "]") as [->|_]; [discriminate Hx|].
    rewrite IH; [|exact Hd | apply Z.mod_pos_bound; lia].
    assert (Hv : char_value x = Z.of_nat (nat_of_ascii x)).
    { apply andb_true_iff in Hx. destruct Hx as [_ Hhi].
      apply Nat.leb_le in Hhi. unfold char_value.
      destruct (Z.ltb_spec (Z.of_nat (nat_of_ascii x)) 128); lia. }
    rewrite Hv. now rewrite <- decimal_from_mod.
Qed.

Lemma append_text_body (getb : list string -> option (list sieve_bodypart_t))
    (n : Z) (out : buf) :
  buf_s (append_text getb n out)
    = buf_s out +++
      take (text_limit n (String.length (body_text getb))) (body_text getb).
Proof.
  assert (Hnil : forall k, buf_s out = buf_s out +++ take k "").
  { intros [|k]; cbn [take]; now rewrite append_nil_r. }
  unfold append_text, body_text.
  destruct (getb ["text"]) as [[|part parts]|]; try apply Hnil.
  destruct (decoded_body part) as [body|]; [|apply Hnil].
  cbn [buf_appendmap buf_s]. f_equal. f_equal. unfold text_limit.
  destruct (Z.eqb_spec n 0); destruct (Z.ltb_spec n (Z.of_nat (String.length body)));
    cbn [negb andb]; lia.
Qed.

(** One pass over a body placeholder, in any letter case, when the
    interpreter has a body accessor. *)
Lemma build_loop_text (getb : list string -> option (list sieve_bodypart_t))
    (t : string) (n : Z) (q : string) (fuel : nat) (out : buf) :
  getbody i = Some getb -> text_token t n ->
  build_loop X i (S fuel) (t +++ q) out
    = build_loop X i fuel q (append_text getb n out) /\
  (exists r, t +++ q = String "$" r) /\ (6 <= String.length t)%nat.
Proof.
  intros Hgb Htok. destruct Htok as [w Hw | w ds y Hw Hds Hlt]; split_token Hw;
    repeat match goal with H : tolower "$" = tolower ?a |- _ =>
             apply tolower_dollar in H; subst a end;
    repeat match goal with H : tolower "[" = tolower ?a |- _ =>
             apply tolower_bracket in H; subst a end.
  - split; [|split; [eexists; reflexivity | cbn; lia]].
    cbn [append build_loop]; rewrite !caseprefix_cons.
    repeat match goal with H : tolower _ = tolower ?a |- _ =>
             rewrite <- H; clear H end.
    rewrite Hgb. reflexivity.
  - split; [|split; [eexists; reflexivity | cbn; lia]].
    cbn [append build_loop]; rewrite !caseprefix_cons.
    repeat match goal with H : tolower _ = tolower ?a |- _ =>
             rewrite <- H; clear H end.
    rewrite Hgb. rewrite append_assoc3. cbn [append].
    change (Ascii.eqb (tolower "$") (tolower "$")) with true.
    change (Ascii.eqb (tolower "f") (tolower "t")) with false.
    change (Ascii.eqb (tolower "e") (tolower "t")) with false.
    change (Ascii.eqb (tolower "s") (tolower "t")) with false.
    cbn [andb].
    change (Ascii.eqb (tolower "t") (tolower "t")) with true.
    change (Ascii.eqb (tolower "e") (tolower "e")) with true.
    change (Ascii.eqb (tolower "x") (tolower "x")) with true.
    cbn [andb caseprefix char_at String.get drop orb].
    change (Ascii.eqb "[" "[") with true. cbn [orb].
    rewrite scan_count_digits by (auto; lia).
    fold (decimal ds).
    rewrite Z.mod_small; [reflexivity|].
    split; [|exact Hlt]. apply decimal_from_nonneg; [exact Hds | lia].
Qed.

(** A template made of plain text, one placeholder and plain text again:
    two chunks copied around whatever the placeholder's pass appends. *)
Lemma build_notify_message_around (p t q e : string) (f : buf -> buf)
    (out : buf) :
  dollar_free p = true -> dollar_free q = true ->
  (forall fuel o,
      build_loop X i (S fuel) (t +++ q) o = build_loop X i fuel q (f o)) ->
  (exists r, t +++ q = String "$" r) -> (1 <= String.length t)%nat ->
  (forall o, buf_s (f o) = buf_s o +++ e) ->
  build_notify_message X i (Some (p +++ t +++ q)) out
    = Ret (SIEVE_OK,
           {| buf_s := buf_s out +++ p +++ e +++ q; buf_terminated := true |}).
Proof.
  intros Hp Hq Hstep Hdollar Ht Hf. unfold build_notify_message.
  destruct (build_loop_chunk (String.length (p +++ t +++ q)) p (t +++ q) out
              Hp (or_intror Hdollar) (le_n _))
    as (fuel' & out1 & Hlen & Hs1 & Hb1).
  rewrite Hb1. rewrite length_append in Hlen.
  destruct fuel' as [|fuel']; [lia|].
  rewrite Hstep.
  destruct (build_loop_tail fuel' q (f out1) Hq) as (out' & Hb2 & Hs2);
    [lia|].
  rewrite Hb2. cbn [bind]. unfold buf_cstring.
  rewrite Hs2, Hf, Hs1, !append_assoc3. reflexivity.
Qed.


(** X7: body placeholders.  With a body accessor registered, [$text$]
    and [$text[N]] followed by a [']'] and any one byte are replaced in
    place by the decoded body of the first text part: all of it for
    [$text$] and for [N = 0], its first [min(N, length)] bytes otherwise,
    nothing when there is no such part.  [N] is read as a decimal number;
    the byte after the [']'] is skipped without being looked at. *)
Theorem text_placeholder_expands
    (getb : list string -> option (list sieve_bodypart_t))
    (p t q : string) (n : Z) (out : buf) :
  getbody i = Some getb -> text_token t n ->
  dollar_free p = true -> dollar_free q = true ->
  build_notify_message X i (Some (p +++ t +++ q)) out
    = Ret (SIEVE_OK,
           {| buf_s := buf_s out +++ p +++
                       take (text_limit n (String.length (body_text getb)))
                            (body_text getb) +++ q;
              buf_terminated := true |}).
Proof.
  intros Hgb Htok Hp Hq.
  apply (build_notify_message_around p t q _ (append_text getb n));
    try assumption.
  - intros fuel o.
    exact (proj1 (build_loop_text getb t n q fuel o Hgb Htok)).
  - exact (proj1 (proj2 (build_loop_text getb t n q 0 out Hgb Htok))).
  - pose proof (proj2 (proj2 (build_loop_text getb t n q 0 out Hgb Htok))).
    lia.
  - intros o. apply append_text_body.
Qed.



End BuilderExpansion.

(** ** The dispatcher's buffers and status *)

Section DispatchAudit.

Context {World : Type}.
Variable E : sieve_err.
Variable X : externals World.

Lemma length_take (n : nat) (s : string) : (String.length (take n s) <= n)%nat.
Proof.
  revert s. induction n as [|n IH]; intros [|x s]; simpl; try lia.
  specialize (IH s). lia.
Qed.

Lemma extends_refl (s : string) : extends s s.
Proof.
  split; [|auto]. exists "". now rewrite append_nil_r.
Qed.

Lemma extends_trans (s1 s2 s3 : string) :
  extends s1 s2 -> extends s2 s3 -> extends s1 s3.
Proof.
  intros [[t1 H1] F1] [[t2 H2] F2]. split; [|auto].
  exists (t1 +++ t2). now rewrite H2, H1, append_assoc3.
Qed.

Lemma trace_append_extends (s line : string) : extends s (trace_append s line).
Proof.
  unfold trace_append. split; [eauto|].
  unfold fits, ACTIONS_STRING_LEN. intros Hs. rewrite length_append.
  pose proof (length_take (4096 - 1 - String.length s) line). lia.
Qed.

Lemma trace_if_ok_extends (ret : Z) (line : string) (st : dstate World) :
  extends (actions_string st) (actions_string (trace_if_ok ret line st)).
Proof.
  unfold trace_if_ok. destruct (Z.eqb ret SIEVE_OK);
    [apply trace_append_extends | apply extends_refl].
Qed.

Lemma failure_line_extends ret la em (st : dstate World) :
  extends (actions_string st) (actions_string (failure_line E ret la em st)).
Proof.
  unfold failure_line. destruct (Z.eqb ret SIEVE_OK); [apply extends_refl|].
  destruct (never_acted la); apply trace_append_extends.
Qed.

Lemma do_action_extends i e ret (st : dstate World) :
  match do_action E i e ret st with
  | StepReturn _ st' | StepBreak _ _ st' =>
      extends (actions_string st) (actions_string st')
  end.
Proof.
  unfold do_action, invoke.
  destruct (a e); slot_cases i; cbn [set_lastitem set_world actions_string];
    try apply extends_refl;
    try (eapply extends_trans; [|apply trace_if_ok_extends];
         apply extends_refl).
  destruct (Z.eqb (cb_ret _) SIEVE_OK).
  - eapply extends_trans; [|apply trace_if_ok_extends]. apply extends_refl.
  - destruct (Z.eqb (cb_ret _) (SIEVE_DONE E));
      [apply trace_append_extends | apply extends_refl].
Qed.

Lemma action_loop_extends i acts :
  forall la ret ik em (st : dstate World),
  match action_loop E i acts la ret ik em st with
  | LoopReturn _ st' | LoopDone _ _ _ _ st' =>
      extends (actions_string st) (actions_string st')
  end.
Proof.
  induction acts as [|e acts IH]; intros la ret ik em st; cbn [action_loop].
  - apply extends_refl.
  - pose proof (do_action_extends i e ret st) as Hd.
    destruct (do_action E i e ret st) as [r st1 | r em1 st1]; [exact Hd|].
    destruct (Z.eqb r SIEVE_OK); [|exact Hd].
    specialize (IH (Some (a e)) r (ik && negb (cancel_keep e)) em1 st1).
    destruct (action_loop E i acts _ _ _ _ st1);
      eapply extends_trans; eassumption.
Qed.

Lemma lor_zero (p q : Z) : Z.lor p q = SIEVE_OK -> p = SIEVE_OK /\ q = SIEVE_OK.
Proof. apply Z.lor_eq_0_iff. Qed.

Lemma forallb_one (f : event -> bool) (l : list event) :
  forallb is_notify_call l = true ->
  (forall nc r, f (EvCall (CallNotify nc) r) = true) ->
  forallb f l = true.
Proof.
  intros Hl Hf. revert Hl. apply forallb_weaken.
  intros [[] r|]; simpl; try discriminate. intros _. apply Hf.
Qed.

(** The notification loop: what it adds to the trace, and how the status
    it leaves relates to the calls it made. *)
Lemma notify_loop_audit i cb l (v v' : notify_vars World) :
  notify_loop E X i cb l v = Ret v' ->
  exists evs,
    log (nv_state v') = log (nv_state v) ++ evs /\
    forallb is_notify_call evs = true /\
    actions_string (nv_state v') = actions_string (nv_state v) /\
    (Z.lor (nv_notify_ret v) (nv_ret v) = nv_ret v ->
     Z.lor (nv_notify_ret v') (nv_ret v') = nv_ret v') /\
    (nv_ret v' = SIEVE_OK ->
     nv_ret v = SIEVE_OK /\ forallb call_ok evs = true).
Proof.
  revert v. induction l as [|n l IH]; intros v H; cbn [notify_loop] in H.
  - injection H as <-. exists []. rewrite app_nil_r. repeat split; auto.
  - destruct (isactive n) eqn:Hact; [|now apply IH].
    destruct (send_notify_callback E X i cb n (nv_errmsg v) (nv_state v))
      as [[[r em] st1]| |] eqn:Hs; cbn [bind] in H; try discriminate.
    apply send_notify_callback_ret in Hs. destruct Hs as (Has & _ & Hs).
    apply IH in H. destruct H as (evs & Hlog & Hall & Has' & HJ & Hok).
    cbn [nv_state nv_ret nv_notify_ret] in Hlog, Has', HJ, Hok.
    assert (HJ' : Z.lor (nv_notify_ret v') (nv_ret v') = nv_ret v').
    { apply HJ. rewrite Z.lor_comm, <- Z.lor_assoc, Z.lor_diag. reflexivity. }
    destruct Hs as [(_ & nc & Hl1 & _)|(_ & _ & -> & _)].
    + exists (EvCall (CallNotify nc) r :: evs).
      rewrite Hlog, Hl1, <- app_assoc. cbn [app forallb is_notify_call andb].
      split; [reflexivity|]. split; [exact Hall|].
      split; [congruence|]. split; [auto|].
      intros Hz. apply Hok in Hz. destruct Hz as [Hz Hc].
      apply lor_zero in Hz. destruct Hz as [Hz1 Hz2].
      split; [exact Hz1|]. cbn [forallb call_ok]. rewrite Hz2. exact Hc.
    + exists evs.
      split; [exact Hlog|]. split; [exact Hall|].
      split; [congruence|]. split; [auto|].
      intros Hz. apply Hok in Hz. destruct Hz as [Hz Hc].
      apply lor_zero in Hz. destruct Hz as [Hz1 Hz2].
      split; [exact Hz1 | exact Hc].
Qed.

Lemma notify_phase_audit i nl (v v' : notify_vars World) :
  notify_phase E X i nl v = Ret v' ->
  exists evs,
    log (nv_state v') = log (nv_state v) ++ evs /\
    forallb is_notify_call evs = true /\
    actions_string (nv_state v') = actions_string (nv_state v) /\
    (Z.lor (nv_notify_ret v) (nv_ret v) = nv_ret v ->
     Z.lor (nv_notify_ret v') (nv_ret v') = nv_ret v') /\
    (nv_ret v' = SIEVE_OK ->
     nv_ret v = SIEVE_OK /\ forallb call_ok evs = true).
Proof.
  unfold notify_phase. intros H.
  assert (Hsame : Ret v = Ret v' ->
            exists evs,
              log (nv_state v') = log (nv_state v) ++ evs /\
              forallb is_notify_call evs = true /\
              actions_string (nv_state v') = actions_string (nv_state v) /\
              (Z.lor (nv_notify_ret v) (nv_ret v) = nv_ret v ->
               Z.lor (nv_notify_ret v') (nv_ret v') = nv_ret v') /\
              (nv_ret v' = SIEVE_OK ->
               nv_ret v = SIEVE_OK /\ forallb call_ok evs = true)).
  { intros Hv. injection Hv as <-. exists []. rewrite app_nil_r.
    repeat split; auto. }
  destruct (notify i) as [cb|]; [|now apply Hsame].
  destruct nl as [|n nl]; [now apply Hsame|].
  now apply notify_loop_audit in H.
Qed.

Lemma execute_err_text_short la item em ret :
  (String.length (execute_err_text E la item em ret) < ERR_BUF_SIZE)%nat.
Proof.
  unfold execute_err_text.
  match goal with |- context [take ?n ?s] =>
    pose proof (length_take n s) as Hlen; revert Hlen;
    generalize (String.length (take n s))
  end.
  unfold ERR_BUF_SIZE. intros k Hk. lia.
Qed.

(** The report to [execute_err]: made exactly when the status is not
    [SIEVE_OK] and the callback is registered; its text fits its buffer. *)
Lemma report_error_audit i la ret em (st : dstate World) r st' :
  report_error E i la ret em st = (r, st') ->
  exists evs,
    log st' = log st ++ evs /\
    actions_string st' = actions_string st /\
    forallb short_report evs = true /\
    (r = SIEVE_OK -> ret = SIEVE_OK /\ evs = []) /\
    (ret = SIEVE_OK -> r = SIEVE_OK) /\
    (ret <> SIEVE_OK -> is_some (execute_err i) = true ->
     count is_execute_err evs = 1%nat) /\
    (count is_execute_err evs <= 1)%nat /\
    (forall e, In e evs -> is_execute_err e = true).
Proof.
  unfold report_error.
  assert (Hnone : forall r0 st0, (ret, st) = (r0, st0) ->
            ret = SIEVE_OK \/ execute_err i = None ->
            exists evs,
              log st0 = log st ++ evs /\
              actions_string st0 = actions_string st /\
              forallb short_report evs = true /\
              (r0 = SIEVE_OK -> ret = SIEVE_OK /\ evs = []) /\
              (ret = SIEVE_OK -> r0 = SIEVE_OK) /\
              (ret <> SIEVE_OK -> is_some (execute_err i) = true ->
               count is_execute_err evs = 1%nat) /\
              (count is_execute_err evs <= 1)%nat /\
              (forall e, In e evs -> is_execute_err e = true)).
  { intros r0 st0 H Hwhy. injection H as <- <-. exists [].
    rewrite app_nil_r. repeat split; auto.
    intros Hne Hsome. destruct Hwhy as [Hz|Hn]; [contradiction|].
    rewrite Hn in Hsome. discriminate. }
  destruct (execute_err i) as [cb|] eqn:Hcb; [|intros H; eapply Hnone; eauto].
  destruct (Z.eqb_spec ret SIEVE_OK) as [Hz|Hnz];
    [intros H; eapply Hnone; eauto|].
  destruct (cb _ (world st)) as [x w]. intros H. injection H as <- <-.
  eexists [_]. cbn [set_world log actions_string].
  split; [reflexivity|]. split; [reflexivity|].
  split.
  { cbn [forallb short_report]. rewrite andb_true_r. apply Nat.ltb_lt.
    apply execute_err_text_short. }
  split.
  { intros Hz. apply lor_zero in Hz. destruct Hz as [Hz _]. contradiction. }
  split; [contradiction|].
  split; [reflexivity|]. split; [cbn; lia|].
  intros e [<-|[]]. reflexivity.
Qed.

Lemma count_execute_err_handler (b1 b2 : bool) :
  count is_execute_err [EvHandler b1 b2] = 0%nat.
Proof. reflexivity. Qed.

Lemma count_execute_err_keep kc x :
  count is_execute_err [EvCall (CallImplicitKeep kc) x] = 0%nat.
Proof. reflexivity. Qed.

(** One induction over the passes of [do_sieve_error] for what the
    theorems below need: the trace buffer, the reports to [execute_err],
    and what a status of [SIEVE_OK] says about the calls made. *)
Lemma do_sieve_error_audit (fuel : nat) :
  forall ret i flags nl la ik em (st : dstate World) r st',
  do_sieve_error E X fuel ret i flags nl la ik em st = Ret (r, st') ->
  exists evs,
    log st' = log st ++ evs /\
    extends (actions_string st) (actions_string st') /\
    forallb short_report evs = true /\
    (r = SIEVE_OK ->
     ret = SIEVE_OK /\ forallb call_ok evs = true /\
     count is_execute_err evs = 0%nat) /\
    (r <> SIEVE_OK -> is_some (execute_err i) = true ->
     (1 <= count is_execute_err evs)%nat) /\
    (count is_execute_err evs <= 1 + (if ik then 1 else 0))%nat.
Proof.
  induction fuel as [|fuel IH]; intros ret i flags nl la ik em st r st' H;
    [discriminate|].
  cbn [do_sieve_error] in H.
  set (st1 := failure_line E ret la em _) in H.
  assert (Hst1 : log st1 = log st ++ [EvHandler (negb (is_nil nl)) ik]).
  { subst st1. now rewrite failure_line_log. }
  assert (Hex1 : extends (actions_string st) (actions_string st1)).
  { subst st1.
    exact (failure_line_extends ret la em
             (add_event st (EvHandler (negb (is_nil nl)) ik))). }
  clearbody st1.
  destruct (notify_phase E X i nl _) as [v| |] eqn:Hn; cbn [bind] in H;
    try discriminate.
  apply notify_phase_audit in Hn.
  destruct Hn as (evn & Hlogn & Halln & Hasn & HJ & Hokn).
  cbn [nv_state nv_ret nv_notify_ret] in Hlogn, Hasn, HJ, Hokn.
  specialize (HJ eq_refl).
  assert (Hn_s : forallb short_report evn = true)
    by (apply forallb_one; auto).
  assert (Hn_c : count is_execute_err evn = 0%nat).
  { revert Halln. apply count_none. intros [[] ?|]; simpl; auto; discriminate. }
  assert (Hex2 : extends (actions_string st) (actions_string (nv_state v))).
  { rewrite Hasn. exact Hex1. }
  destruct (notifies i nl && negb (Z.eqb (nv_notify_ret v) SIEVE_OK)) eqn:Hre.
  - apply andb_true_iff in Hre. destruct Hre as [_ Hnr].
    apply negb_true_iff, Z.eqb_neq in Hnr.
    assert (Hvnz : nv_ret v <> SIEVE_OK).
    { intros Hz. rewrite Hz in HJ. apply lor_zero in HJ. tauto. }
    apply IH in H. destruct H as (ev2 & Hlog2 & Hex & Hs2 & Hok2 & Hrep2 & Hc2).
    exists ([EvHandler (negb (is_nil nl)) ik] ++ evn ++ ev2).
    rewrite Hlog2, Hlogn, Hst1, <- !app_assoc.
    split; [reflexivity|].
    split; [eapply extends_trans; eassumption|].
    rewrite !forallb_app, !count_app, count_execute_err_handler, Hn_c, Hn_s, Hs2.
    split; [reflexivity|].
    split; [intros Hz; apply Hok2 in Hz; tauto|].
    split; [intros Hnz Hreg; simpl; auto | simpl; lia].
  - destruct (report_error E i (nv_lastaction v) (nv_ret v) (nv_errmsg v)
                (nv_state v)) as [ret2 st2] eqn:Hrep.
    apply report_error_audit in Hrep.
    destruct Hrep as (eve & Hloge & Hase & Hse & Hoke & Hzz & Hone & Hle & Hin).
    assert (Hex3 : extends (actions_string st) (actions_string st2)).
    { rewrite Hase. exact Hex2. }
    destruct ik.
    + destruct (edited_headers i && negb (is_some (getheadersection i)));
        [discriminate|].
      destruct (keep i) as [cb|]; [|discriminate].
      set (kc := implicit_keep_context i flags) in H.
      set (res := cb kc (nv_errmsg v) (world st2)) in H.
      destruct (Z.eqb_spec (cb_ret res) SIEVE_OK) as [Hkz|Hknz].
      * injection H as <- <-.
        exists ([EvHandler (negb (is_nil nl)) true] ++ evn ++ eve ++
                [EvCall (CallImplicitKeep kc) (cb_ret res)]).
        cbn [add_trace set_world log actions_string].
        rewrite Hloge, Hlogn, Hst1, <- !app_assoc.
        split; [reflexivity|].
        split; [eapply extends_trans;
                  [exact Hex3 | apply trace_append_extends]|].
        rewrite !forallb_app, !count_app, count_execute_err_handler,
          count_execute_err_keep, Hn_c, Hn_s, Hse.
        split; [reflexivity|].
        rewrite Hkz, Z.lor_0_r.
        split.
        { intros Hz. apply Hoke in Hz. destruct Hz as [Hz ->].
          apply Hokn in Hz. destruct Hz as [Hz Hc]. rewrite Hc.
          repeat split; auto. }
        split; [|simpl; lia].
        intros Hnz Hreg. rewrite Hone; auto.
      * apply IH in H.
        destruct H as (ev2 & Hlog2 & Hex & Hs2 & Hok2 & Hrep2 & Hc2).
        exists ([EvHandler (negb (is_nil nl)) true] ++ evn ++ eve ++
                [EvCall (CallImplicitKeep kc) (cb_ret res)] ++ ev2).
        cbn [set_world log actions_string] in Hlog2, Hex.
        rewrite Hlog2, Hloge, Hlogn, Hst1, <- !app_assoc.
        split; [reflexivity|].
        split; [eapply extends_trans; eassumption|].
        rewrite !forallb_app, !count_app, count_execute_err_handler,
          count_execute_err_keep, Hn_c, Hn_s, Hse, Hs2.
        split; [reflexivity|].
        split.
        { intros Hz. apply Hok2 in Hz. destruct Hz as [Hz _].
          apply lor_zero in Hz. tauto. }
        split; [intros Hnz Hreg; specialize (Hrep2 Hnz Hreg); simpl; lia|].
        simpl in *. lia.
    + injection H as <- <-.
      exists ([EvHandler (negb (is_nil nl)) false] ++ evn ++ eve).
      rewrite Hloge, Hlogn, Hst1, <- !app_assoc.
      split; [reflexivity|].
      split; [exact Hex3|].
      rewrite !forallb_app, !count_app, count_execute_err_handler,
        Hn_c, Hn_s, Hse.
      split; [reflexivity|].
      split.
      { intros Hz. apply Hoke in Hz. destruct Hz as [Hz ->].
        apply Hokn in Hz. destruct Hz as [Hz Hc]. rewrite Hc.
        repeat split; auto. }
      split; [|simpl; lia].
      intros Hnz Hreg. rewrite Hone; auto.
Qed.

Lemma call_ok_tolerated (evs : list event) :
  forallb call_ok evs = true -> forallb (tolerated E) evs = true.
Proof.
  apply forallb_weaken. intros [[] r|]; simpl; auto.
  intros ->. reflexivity.
Qed.

Lemma tolerated_accepted (evs : list event) :
  forallb (tolerated E) evs = true -> forallb (accepted E) evs = true.
Proof.
  apply forallb_weaken. intros e He. unfold accepted. rewrite He.
  apply orb_true_r.
Qed.

Lemma track_accepted (evs : list event) :
  forallb is_track_call evs = true -> forallb (accepted E) evs = true.
Proof.
  apply forallb_weaken. intros e He. unfold accepted. now rewrite He.
Qed.

Lemma action_call_short (evs : list event) :
  forallb is_action_call evs = true -> forallb short_report evs = true.
Proof. apply forallb_weaken. intros [[] r|]; simpl; auto; discriminate. Qed.

(** The action loop entered with [SIEVE_OK]: it stops on a missing
    capability with [SIEVE_INTERNAL_ERROR], and it ends with [SIEVE_OK] only
    if every entry could be dispatched and every call was tolerated. *)
Lemma action_loop_ok i acts :
  SIEVE_INTERNAL_ERROR E <> SIEVE_OK ->
  forall la0 ik0 em0 (st0 : dstate World),
  exists evs,
    forallb is_action_call evs = true /\
    match action_loop E i acts la0 SIEVE_OK ik0 em0 st0 with
    | LoopReturn r st' =>
        log st' = log st0 ++ evs /\ r = SIEVE_INTERNAL_ERROR E
    | LoopDone la ret ik em st' =>
        log st' = log st0 ++ evs /\
        (ret = SIEVE_OK ->
         forallb (dispatchable i) acts = true /\
         forallb (tolerated E) evs = true)
    end.
Proof.
  intros Hint. induction acts as [|e acts IH]; intros la0 ik0 em0 st0.
  - exists []. cbn. rewrite app_nil_r. auto.
  - cbn [action_loop].
    pose proof (do_action_return E i e SIEVE_OK st0) as Hret.
    destruct (missing_capability i (a e)) eqn:Hmiss.
    { rewrite Hret. exists []. rewrite app_nil_r. auto. }
    destruct Hret as (ret & em & st1 & Hd). rewrite Hd.
    destruct (do_action_break E i e SIEVE_OK st0 ret em st1 Hd)
      as (_ & evs1 & Hlog1 & Hact1 & _).
    destruct (do_action_fails_iff E i e st0 ret em st1 Hint Hd)
      as (evs1' & Hlog1' & Hiff).
    assert (evs1' = evs1) as ->.
    { rewrite Hlog1 in Hlog1'. now apply app_inv_head in Hlog1'. }
    destruct (Z.eqb_spec ret SIEVE_OK) as [Hz|Hnz].
    + subst ret.
      destruct (IH (Some (a e)) (ik0 && negb (cancel_keep e)) em st1)
        as (evs2 & Hact2 & Hrest).
      destruct (proj1 Hiff eq_refl) as [Hcase Htol1].
      exists (evs1 ++ evs2). rewrite forallb_app, Hact1, Hact2.
      split; [reflexivity|].
      destruct (action_loop E i acts _ SIEVE_OK _ em st1)
        as [r st' | la ret ik em' st'].
      * destruct Hrest as [Hlog2 Hr]. rewrite Hlog2, Hlog1, app_assoc. auto.
      * destruct Hrest as [Hlog2 Hok]. rewrite Hlog2, Hlog1, app_assoc.
        split; [reflexivity|]. intros Hz. destruct (Hok Hz) as [Hd2 Ht2].
        cbn [forallb]. unfold dispatchable at 1.
        rewrite Hcase, Hmiss, Hd2, forallb_app, Htol1, Ht2. auto.
    + exists evs1. split; [exact Hact1|]. split; [exact Hlog1|].
      intros Hz. contradiction.
Qed.

(** [do_action_list]: the trace buffer starts with the banner and never
    outgrows its array; a result of [SIEVE_OK] means that every entry could
    be dispatched and that no call failed. *)
Lemma do_action_list_audit i flags acts nl em (st : dstate World) r st' :
  do_action_list E X i flags acts nl em st = Ret (r, st') ->
  exists evs,
    log st' = log st ++ evs /\
    extends ("Action(s) taken:" +++ newline) (actions_string st') /\
    forallb short_report evs = true /\
    (SIEVE_INTERNAL_ERROR E <> SIEVE_OK -> r = SIEVE_OK ->
     forallb (dispatchable i) acts = true /\
     forallb (tolerated E) evs = true).
Proof.
  unfold do_action_list. intros H.
  set (st0 := set_actions_string st ("Action(s) taken:" +++ newline)) in H.
  pose proof (action_loop_extends i acts None 0 true em st0) as Hext.
  destruct (action_loop_ret E i acts None 0 true em st0)
    as (evs & st1 & Hact & Hlog & Hcases).
  destruct Hcases as [(r0 & Hl & Hr0 & Hdisp)|(la & ret & ik & em1 & Hl & _)];
    rewrite Hl in H, Hext.
  - injection H as <- <-. exists evs.
    split; [exact Hlog|]. split; [exact Hext|].
    split; [now apply action_call_short|].
    intros Hint Hz. rewrite Hr0 in Hz. contradiction.
  - apply do_sieve_error_audit in H.
    destruct H as (hevs & Hlogh & Hexth & Hsh & Hokh & _ & _).
    exists (evs ++ hevs). rewrite Hlogh, Hlog, app_assoc.
    split; [reflexivity|].
    split; [eapply extends_trans; eassumption|].
    rewrite forallb_app, Hsh, (action_call_short evs Hact).
    split; [reflexivity|].
    intros Hint Hz. destruct (Hokh Hz) as (Hretz & Hcall & _).
    destruct (action_loop_ok i acts Hint None true em st0) as (evs' & _ & Hm).
    change (action_loop E i acts None SIEVE_OK true em st0)
      with (action_loop E i acts None 0 true em st0) in Hm.
    rewrite Hl in Hm. destruct Hm as [Hlog' Hok].
    assert (evs' = evs) as ->.
    { rewrite Hlog in Hlog'. now apply app_inv_head in Hlog'. }
    destruct (Hok Hretz) as [Hd Ht]. split; [exact Hd|].
    rewrite forallb_app, Ht. now apply call_ok_tolerated.
Qed.

Lemma track_loop_string d l em (st : dstate World) :
  actions_string (track_loop d l em st) = actions_string st.
Proof.
  revert em st. induction l as [|e l IH]; intros em st; cbn [track_loop].
  - reflexivity.
  - destruct (id e); [|apply IH]. unfold invoke. rewrite IH. reflexivity.
Qed.

Lemma track_records_string i dl ret em (st : dstate World) :
  actions_string (track_records i dl ret em st) = actions_string st.
Proof.
  unfold track_records. destruct dl; [reflexivity|].
  destruct (duplicate i); [|reflexivity].
  destruct (Z.eqb ret SIEVE_OK); [apply track_loop_string | reflexivity].
Qed.

(** When one of the three lists cannot be allocated, the run is the error
    handler entered with [SIEVE_NOMEM] and implicit keep disabled. *)
Lemma execute_nomem i w item :
  eval_run X i w = None ->
  exists nl dl,
    (nl = [] \/ nl = new_notify_list X) /\
    sieve_execute_bytecode E X (Some i) w item
      = (r <- do_sieve_error E X handler_fuel (SIEVE_NOMEM E) i [] nl None
                false None
                {| world := w; log := []; actions_string := "";
                   lastitem := item |} ;;
         Ret (fst r, track_records i dl (fst r) None (snd r))).
Proof.
  unfold eval_run, sieve_execute_bytecode.
  set (st0 := {| world := w; log := []; actions_string := "";
                 lastitem := item |}).
  assert (Hdirect : forall nl,
            do_sieve_error E X handler_fuel (SIEVE_NOMEM E) i [] nl None false
                           None st0
            = (r <- do_sieve_error E X handler_fuel (SIEVE_NOMEM E) i [] nl
                      None false None st0 ;;
               Ret (fst r, track_records i [] (fst r) None (snd r)))).
  { intros nl. now destruct (do_sieve_error E X handler_fuel _ i [] nl None
                               false None st0) as [[r s]| |]. }
  destruct (is_some (duplicate i) && is_nil _); [intros _; eauto|].
  destruct (is_some (notify i) && is_nil _); [intros _; eauto|].
  destruct (new_action_list X) as [|a0 al]; [|discriminate].
  intros _. eexists _, _. split; [|reflexivity].
  destruct (is_some (notify i)); auto.
Qed.

(** X9: the reports to [execute_err].  In a run of the error handler the
    host's error callback is called at most twice, each time with a text
    that fits the [ERR_BUF_SIZE] buffer it was formatted in; it is never
    called when the handler returns [SIEVE_OK], and, when it is registered,
    it is called at least once whenever the handler returns anything else. *)
Theorem execute_err_hears_failures ret i flags nl la ik em (st : dstate World) :
  match do_sieve_error E X handler_fuel ret i flags nl la ik em st with
  | Ret (r, st') =>
      exists evs,
        log st' = log st ++ evs /\
        forallb short_report evs = true /\
        (count is_execute_err evs <= 2)%nat /\
        (r = SIEVE_OK -> count is_execute_err evs = 0%nat) /\
        (r <> SIEVE_OK -> is_some (execute_err i) = true ->
         (1 <= count is_execute_err evs)%nat)
  | Fault => True
  | OutOfFuel => False
  end.
Proof.
  pose proof (do_sieve_error_finishes E X ret i flags nl la ik em st) as Hf.
  destruct (do_sieve_error E X handler_fuel ret i flags nl la ik em st)
    as [[r st']| |] eqn:H; [|exact I|discriminate].
  apply do_sieve_error_audit in H.
  destruct H as (evs & Hlog & _ & Hs & Hok & Hrep & Hc).
  exists evs. repeat split; auto.
  - destruct ik; simpl in Hc; lia.
  - intros Hz. now apply Hok in Hz.
Qed.

(** X10: the trace buffer.  Whatever the script did, the action trace
    [sieve_execute_bytecode] accumulates fits, with its terminating NUL,
    the [ACTIONS_STRING_LEN] bytes of its array, and every text handed to
    [execute_err] fits [ERR_BUF_SIZE]; when the script evaluated without
    error the trace opens with the line [Action(s) taken:]. *)
Theorem trace_buffer_bounded i w item :
  match sieve_execute_bytecode E X (Some i) w item with
  | Ret (r, st') =>
      fits (actions_string st') /\
      forallb short_report (log st') = true /\
      (forall ev, eval_run X i w = Some ev -> 0 <= ev_ret ev ->
         exists t,
           actions_string st' = ("Action(s) taken:" +++ newline) +++ t)
  | Fault => True
  | OutOfFuel => False
  end.
Proof.
  pose proof (execute_trace E X i w item) as Ht.
  destruct (sieve_execute_bytecode E X (Some i) w item) as [[r st']| |] eqn:Hx;
    [clear Ht | exact I | exact Ht].
  assert (Hempty : fits "") by (unfold fits, ACTIONS_STRING_LEN; simpl; lia).
  assert (Htr : forall dl em st1,
            forallb short_report (log st1) = true ->
            forallb short_report (log (track_records i dl r em st1)) = true).
  { intros dl em st1 Hs.
    destruct (track_records_log i dl r em st1) as (tr & Hlog & Hall & _).
    rewrite Hlog, forallb_app, Hs. revert Hall. apply forallb_weaken.
    intros [[] ?|]; simpl; auto; discriminate. }
  destruct (eval_run X i w) as [ev|] eqn:Hev.
  - rewrite (execute_eval E X i w item ev Hev) in Hx.
    destruct (Z.ltb_spec (ev_ret ev) 0) as [Hneg|Hpos].
    + destruct (do_sieve_error E X handler_fuel _ i _ _ None false _ _)
        as [[r1 st1]| |] eqn:Hd; cbn [bind fst snd] in Hx; try discriminate.
      injection Hx as <- <-.
      apply do_sieve_error_audit in Hd.
      destruct Hd as (evs & Hlog & [_ Hfit] & Hs & _).
      cbn [log actions_string] in Hlog, Hfit.
      rewrite track_records_string.
      split; [auto|]. split; [apply Htr; now rewrite Hlog|].
      intros ev' Hev' Hge. injection Hev' as <-. lia.
    + destruct (do_action_list E X i _ _ _ _ _) as [[r1 st1]| |] eqn:Hd;
        cbn [bind fst snd] in Hx; try discriminate.
      injection Hx as <- <-.
      apply do_action_list_audit in Hd.
      destruct Hd as (evs & Hlog & [Hpre Hfit] & Hs & _).
      cbn [log] in Hlog. rewrite track_records_string.
      split.
      { apply Hfit. unfold fits, ACTIONS_STRING_LEN. simpl. lia. }
      split; [apply Htr; now rewrite Hlog|].
      intros _ _ _. exact Hpre.
  - destruct (execute_nomem i w item Hev) as (nl & dl & _ & Hrun).
    rewrite Hrun in Hx.
    destruct (do_sieve_error E X handler_fuel _ i [] nl None false None _)
      as [[r1 st1]| |] eqn:Hd; cbn [bind fst snd] in Hx; try discriminate.
    injection Hx as <- <-.
    apply do_sieve_error_audit in Hd.
    destruct Hd as (evs & Hlog & [_ Hfit] & Hs & _).
    cbn [log actions_string] in Hlog, Hfit.
    rewrite track_records_string.
    split; [auto|]. split; [apply Htr; now rewrite Hlog|].
    intros ev' Hev'. discriminate.
Qed.

(** X11: no failure is masked.  With error codes that differ from
    [SIEVE_OK], [sieve_execute_bytecode] returns [SIEVE_OK] only if the three
    lists were allocated, the evaluator did not report an error, every action
    it produced could be dispatched, and every callback that was called
    returned [SIEVE_OK]; the two exceptions are [autorespond] answering
    [SIEVE_DONE] and the duplicate tracker, whose status is dropped. *)
Theorem ok_means_nothing_failed i w item st' :
  SIEVE_RUN_ERROR E <> SIEVE_OK ->
  SIEVE_INTERNAL_ERROR E <> SIEVE_OK ->
  SIEVE_NOMEM E <> SIEVE_OK ->
  sieve_execute_bytecode E X (Some i) w item = Ret (SIEVE_OK, st') ->
  exists ev,
    eval_run X i w = Some ev /\
    0 <= ev_ret ev /\
    forallb (dispatchable i) (ev_actions ev) = true /\
    forallb (accepted E) (log st') = true.
Proof.
  intros Hrun Hint Hmem Hx.
  destruct (eval_run X i w) as [ev|] eqn:Hev.
  - exists ev. split; [reflexivity|].
    rewrite (execute_eval E X i w item ev Hev) in Hx.
    destruct (Z.ltb_spec (ev_ret ev) 0) as [Hneg|Hpos].
    + destruct (do_sieve_error E X handler_fuel _ i _ _ None false _ _)
        as [[r1 st1]| |] eqn:Hd; cbn [bind fst snd] in Hx; try discriminate.
      injection Hx as -> <-.
      apply do_sieve_error_audit in Hd.
      destruct Hd as (evs & _ & _ & _ & Hok & _).
      destruct (Hok eq_refl) as [Hz _]. contradiction.
    + destruct (do_action_list E X i _ _ _ _ _) as [[r1 st1]| |] eqn:Hd;
        cbn [bind fst snd] in Hx; try discriminate.
      injection Hx as -> <-.
      apply do_action_list_audit in Hd.
      destruct Hd as (evs & Hlog & _ & _ & Hok).
      destruct (Hok Hint eq_refl) as [Hdisp Htol]. cbn [log app] in Hlog.
      split; [lia|]. split; [exact Hdisp|].
      destruct (track_records_log i (ev_duptrack ev) SIEVE_OK (ev_errmsg ev)
                  st1) as (tr & Hlogt & Hall & _).
      rewrite Hlogt, Hlog, forallb_app.
      rewrite (tolerated_accepted evs Htol), (track_accepted tr Hall).
      reflexivity.
  - destruct (execute_nomem i w item Hev) as (nl & dl & _ & Hrun').
    rewrite Hrun' in Hx.
    destruct (do_sieve_error E X handler_fuel _ i [] nl None false None _)
      as [[r1 st1]| |] eqn:Hd; cbn [bind fst snd] in Hx; try discriminate.
    injection Hx as -> <-.
    apply do_sieve_error_audit in Hd.
    destruct Hd as (evs & _ & _ & _ & Hok & _).
    destruct (Hok eq_refl) as [Hz _]. contradiction.
Qed.

(** X12: allocation failure.  When one of the three lists cannot be
    allocated the run returns a status that contains [SIEVE_NOMEM]; no
    action callback is called and there is no implicit keep, so the message
    is not delivered by this run; with [SIEVE_NOMEM] different from
    [SIEVE_OK] the duplicate tracker is not called either. *)
Theorem allocation_failure_no_delivery i w item :
  eval_run X i w = None ->
  match sieve_execute_bytecode E X (Some i) w item with
  | Ret (r, st') =>
      Z.lor (SIEVE_NOMEM E) r = r /\
      count is_action_call (log st') = 0%nat /\
      count is_implicit_keep (log st') = 0%nat /\
      (SIEVE_NOMEM E <> SIEVE_OK ->
       r <> SIEVE_OK /\ count is_track_call (log st') = 0%nat)
  | Fault => True
  | OutOfFuel => False
  end.
Proof.
  intros Hev.
  destruct (execute_nomem i w item Hev) as (nl & dl & _ & Hrun).
  rewrite Hrun.
  pose proof (do_sieve_error_finishes E X (SIEVE_NOMEM E) i [] nl None false
                None {| world := w; log := []; actions_string := "";
                        lastitem := item |}) as Hf.
  destruct (do_sieve_error E X handler_fuel _ i [] nl None false None _)
    as [[r st1]| |] eqn:Hd; cbn [bind fst snd]; [|exact I|discriminate].
  apply do_sieve_error_ret in Hd.
  destruct Hd as (evs & Hlog & Hall & Hk & _ & Hlor). cbn [log app] in Hlog.
  destruct (track_records_log i dl r None st1) as (tr & Hlogt & Hallt & Hne & _).
  assert (Hnz : SIEVE_NOMEM E <> SIEVE_OK -> r <> SIEVE_OK).
  { intros Hm Hz. rewrite Hz, Z.lor_0_r in Hlor. contradiction. }
  rewrite Hlogt, Hlog, !count_app, Hk.
  split; [exact Hlor|].
  split.
  { rewrite (count_none is_action_call is_handler_event evs),
      (count_none is_action_call is_track_call tr); auto.
    - intros [[] ?|]; simpl; auto; discriminate.
    - intros [[] ?|]; simpl; auto; discriminate. }
  split.
  { rewrite (count_none is_implicit_keep is_track_call tr); auto.
    intros [[] ?|]; simpl; auto; discriminate. }
  intros Hm. split; [auto|].
  rewrite (Hne (Hnz Hm)).
  rewrite (count_none is_track_call is_handler_event evs); auto.
  intros [[] ?|]; simpl; auto; discriminate.
Qed.




End DispatchAudit.

(** ** The parse front end *)

Section FrontendProperties.

Context {World Tree : Type}.
Variable E : sieve_err.
Variable F : frontend World Tree.

Lemma require_all_interp (s : sieve_script_t World Tree) (reqs : list string) :
  script_interp (require_all F s reqs) = script_interp s /\
  cmds (require_all F s reqs) = cmds s /\
  err (require_all F s reqs) = err s.
Proof.
  revert s. induction reqs as [|r reqs IH]; intros s; [now cbn|].
  unfold require_all in *. cbn [fold_left].
  destruct (IH (snd (script_require F s r))) as (H1 & H2 & H3).
  rewrite H1, H2, H3. now cbn.
Qed.

Lemma require_all_support (s : sieve_script_t World Tree)
    (reqs : list string) :
  support (require_all F s reqs)
    = fold_left Z.lor (map (extension_isactive F (script_interp s)) reqs)
                (support s).
Proof.
  revert s. induction reqs as [|r reqs IH]; intros s; [reflexivity|].
  unfold require_all in *. cbn [fold_left map]. rewrite IH. reflexivity.
Qed.

Lemma fold_lor_acc (l : list Z) (x : Z) :
  fold_left Z.lor l x = Z.lor x (fold_left Z.lor l 0).
Proof.
  revert x. induction l as [|y l IH]; intros x; cbn [fold_left].
  - now rewrite Z.lor_0_r.
  - rewrite IH, (IH (Z.lor 0 y)), Z.lor_0_l, Z.lor_assoc. reflexivity.
Qed.

Lemma fold_lor_perm (l l' : list Z) (x : Z) :
  Permutation l l' -> fold_left Z.lor l x = fold_left Z.lor l' x.
Proof.
  intros Hp. revert x.
  induction Hp as [|y l l' _ IH|y z l|l l' l'' _ IH1 _ IH2]; intros x;
    cbn [fold_left].
  - reflexivity.
  - apply IH.
  - now rewrite <- !Z.lor_assoc, (Z.lor_comm z y).
  - now rewrite IH1.
Qed.

Lemma land_lor_keep (p q : Z) : Z.land p (Z.lor p q) = p.
Proof.
  apply Z.bits_inj'. intros n Hn.
  rewrite Z.land_spec, Z.lor_spec. now destruct (Z.testbit p n).
Qed.

(** X14: the support mask.  Recording the script's requirements through
    [script_require] never clears a capability bit, gives the same mask in
    whatever order the requirements come, and changes nothing when they are
    all recorded a second time; the command tree and the error count are
    left alone, and each call answers whether the extension is active. *)
Theorem script_require_accumulates (s : sieve_script_t World Tree)
    (reqs : list string) :
  let s' := require_all F s reqs in
  Z.land (support s) (support s') = support s /\
  (forall reqs', Permutation reqs reqs' ->
                 support (require_all F s reqs') = support s') /\
  support (require_all F s' reqs) = support s' /\
  cmds s' = cmds s /\ err s' = err s /\
  (forall req,
     fst (script_require F s req)
       = if Z.eqb (extension_isactive F (script_interp s) req) 0
         then 0 else 1).
Proof.
  cbn zeta.
  destruct (require_all_interp s reqs) as (Hi & Hc & He).
  split.
  { rewrite require_all_support, fold_lor_acc. apply land_lor_keep. }
  split.
  { intros reqs' Hp. rewrite !require_all_support.
    symmetry. apply fold_lor_perm. now apply Permutation_map. }
  split.
  { rewrite (require_all_support (require_all F s reqs)), Hi.
    rewrite require_all_support.
    rewrite (fold_lor_acc _ (fold_left _ _ _)), (fold_lor_acc _ (support s)).
    now rewrite <- Z.lor_assoc, Z.lor_diag. }
  repeat split; auto.
Qed.

Lemma settle_app (l1 l2 : list mem_event) (g : ledger) :
  settle (l1 ++ l2) g
    = match settle l1 g with
      | Some g' => settle l2 g'
      | None => None
      end.
Proof.
  revert g. induction l1 as [|e l1 IH]; intros g; [reflexivity|].
  cbn [app settle].
  destruct e; try apply IH.
  - destruct (scripts g); [reflexivity | apply IH].
  - destruct (trees g); [reflexivity | apply IH].
  - destruct (interps g); [reflexivity | apply IH].
  - destruct (scan_buffers g); [reflexivity | apply IH].
Qed.

(** What [_sieve_script_parse] leaves behind once the interpreter has
    passed [interp_verify]: a script and [SIEVE_OK], or NULL and
    [SIEVE_PARSE_ERROR] with everything it allocated freed once. *)
Lemma parse_outcome (input : scanner_input) (interp : sieve_interp_t World)
    (ret : option (sieve_script_t World Tree)) :
  interp_verify F interp = SIEVE_OK ->
  let ps := _sieve_script_parse E F input interp ret in
  let p := sieveparse F input
             {| script_interp := interp; support := SIEVE_CAPA_BASE F;
                cmds := None; err := 0 |} in
  ps_errors ps = p_errors p /\
  match ps_ret ps with
  | Some sc =>
      ps_res ps = SIEVE_OK /\ err sc <= 0 /\
      support sc = support (p_script p) /\
      cmds sc = (if Z.eqb (p_ret p) 0 then cmds (p_script p) else None) /\
      settle (ps_mem ps) nothing_live = Some (handed_over sc)
  | None =>
      ps_res ps = SIEVE_PARSE_ERROR E /\ 0 < err (p_script p) /\
      settle (ps_mem ps) nothing_live = Some nothing_live
  end.
Proof.
  intros Hv. unfold _sieve_script_parse. rewrite Hv. cbn [Z.eqb negb].
  set (p := sieveparse F input _). cbn zeta.
  destruct (p_script p) as [pi ps pc pe] eqn:Hp.
  destruct (Z.eqb (p_ret p) 0); cbn [negb err cmds support script_interp];
    destruct (Z.ltb_spec 0 pe); destruct pc as [t|];
    cbn; repeat split; auto; lia.
Qed.

(** Objects that are live throughout do not change what a sequence of
    heap events does. *)
Lemma settle_frame (l : list mem_event) (g g' h : ledger) :
  settle l g = Some g' -> settle l (ledger_add g h) = Some (ledger_add g' h).
Proof.
  revert g. induction l as [|e l IH]; intros g H; cbn [settle] in *.
  - injection H as <-. reflexivity.
  - destruct e as [| |built| | | | |];
      cbn [ledger_add scripts trees interps scan_buffers];
      try (apply IH in H; exact H).
    + destruct (scripts g) as [|k] eqn:Hk; [discriminate|].
      apply IH in H. exact H.
    + destruct built; apply IH in H; exact H.
    + destruct (trees g) as [|k] eqn:Hk; [discriminate|].
      apply IH in H. exact H.
    + destruct (interps g) as [|k] eqn:Hk; [discriminate|].
      apply IH in H. exact H.
    + destruct (scan_buffers g) as [|k] eqn:Hk; [discriminate|].
      apply IH in H. exact H.
Qed.

Lemma settle_framed (l : list mem_event) (g' h : ledger) :
  settle l nothing_live = Some g' -> settle l h = Some (ledger_add g' h).
Proof.
  intros H. apply (settle_frame l nothing_live g' h) in H.
  destruct h. exact H.
Qed.

Lemma settle_script_free (sc : sieve_script_t World Tree) (h : ledger) :
  settle (snd (sieve_script_free (Some sc))) (ledger_add (handed_over sc) h)
    = Some h.
Proof.
  destruct h, sc as [si ss [t|] se]; reflexivity.
Qed.

(** The two ways [_sieve_script_parse] can end when entered with
    [*ret == NULL]. *)
Lemma parse_cases (input : scanner_input) (interp : sieve_interp_t World) :
  SIEVE_PARSE_ERROR E <> SIEVE_OK ->
  let ps := _sieve_script_parse E F input interp None in
  (ps_res ps = SIEVE_OK /\
   exists sc, ps_ret ps = Some sc /\
              settle (ps_mem ps) nothing_live = Some (handed_over sc)) \/
  (ps_res ps <> SIEVE_OK /\ ps_ret ps = None /\
   settle (ps_mem ps) nothing_live = Some nothing_live).
Proof.
  intros Hpe. cbn zeta.
  destruct (Z.eqb_spec (interp_verify F interp) SIEVE_OK) as [Hv|Hv].
  - pose proof (parse_outcome input interp None Hv) as (_ & H).
    destruct (ps_ret (_sieve_script_parse E F input interp None)) as [sc|].
    + left. destruct H as (Hr & _ & _ & _ & Hs). eauto.
    + right. destruct H as (Hr & _ & Hs). rewrite Hr. auto.
  - right. unfold _sieve_script_parse.
    apply Z.eqb_neq in Hv. rewrite Hv. cbn. apply Z.eqb_neq in Hv. auto.
Qed.

(** [_sieve_script_parse_only]: who owns what afterwards. *)
Lemma parse_only_outcome (input : scanner_input)
    (interp : option (sieve_interp_t World)) (e0 : option string)
    (out_script : option (option (sieve_script_t World Tree))) :
  SIEVE_FAIL E <> SIEVE_OK -> SIEVE_PARSE_ERROR E <> SIEVE_OK ->
  let '(res, errors', cell', evs) :=
    _sieve_script_parse_only E F input interp e0 out_script in
  (res = SIEVE_OK ->
   errors' = None /\
   match out_script with
   | None => cell' = None /\ settle evs nothing_live = Some nothing_live
   | Some _ =>
       exists sc, cell' = Some (Some sc) /\
                  settle evs nothing_live = Some (handed_over sc)
   end) /\
  (res <> SIEVE_OK ->
   cell' = out_script /\ settle evs nothing_live = Some nothing_live).
Proof.
  intros Hfail Hpe.
  assert (Hrun : forall i pre post,
    settle pre nothing_live = Some (ledger_add nothing_live
                                      {| scripts := 0; trees := 0;
                                         interps := List.length post;
                                         scan_buffers := 0 |}) ->
    post = [] \/ post = [MFreeInterp] ->
    let ps := _sieve_script_parse E F input i None in
    let '(errors', cell', m1) :=
      if Z.eqb (ps_res ps) SIEVE_OK then
        match out_script with
        | Some _ => (None, Some (ps_ret ps), [])
        | None => (None, None, snd (sieve_script_free (ps_ret ps)))
        end
      else (buf_release F (ps_errors ps), out_script,
            snd (sieve_script_free (ps_ret ps))) in
    (ps_res ps = SIEVE_OK ->
     errors' = None /\
     match out_script with
     | None => cell' = None /\
               settle (pre ++ ps_mem ps ++ m1 ++ post) nothing_live
                 = Some nothing_live
     | Some _ =>
         exists sc, cell' = Some (Some sc) /\
                    settle (pre ++ ps_mem ps ++ m1 ++ post) nothing_live
                      = Some (handed_over sc)
     end) /\
    (ps_res ps <> SIEVE_OK ->
     cell' = out_script /\
     settle (pre ++ ps_mem ps ++ m1 ++ post) nothing_live
       = Some nothing_live)).
  { intros i pre post Hpre Hpost. cbn zeta.
    pose proof (parse_cases input i Hpe) as Hc. cbn zeta in Hc.
    set (ps := _sieve_script_parse E F input i None) in *. clearbody ps.
    assert (Hsettle : forall g m1 g',
              settle (ps_mem ps) nothing_live = Some g ->
              settle (m1 ++ post)
                     (ledger_add g {| scripts := 0; trees := 0;
                                      interps := List.length post;
                                      scan_buffers := 0 |}) = Some g' ->
              settle (pre ++ ps_mem ps ++ m1 ++ post) nothing_live = Some g').
    { intros g m1 g' Hs Hm. rewrite settle_app, Hpre.
      change (ledger_add nothing_live ?h) with h.
      rewrite settle_app.
      rewrite (settle_framed _ _ _ Hs). exact Hm. }
    destruct Hc as [(Hr & sc & Hret & Hs)|(Hr & Hret & Hs)].
    - rewrite Hr, Hret. cbn [Z.eqb].
      destruct out_script as [c|].
      + split; [|intros Hne; now elim Hne].
        intros _. split; [reflexivity|]. exists sc. split; [reflexivity|].
        apply (Hsettle _ _ _ Hs).
        destruct sc as [si ss [t|] se];
          destruct Hpost as [->| ->]; reflexivity.
      + split; [|intros Hne; now elim Hne].
        intros _. split; [reflexivity|]. split; [reflexivity|].
        apply (Hsettle _ _ _ Hs).
        destruct sc as [si ss [t|] se];
          destruct Hpost as [->| ->]; reflexivity.
    - apply Z.eqb_neq in Hr. rewrite Hr, Hret. apply Z.eqb_neq in Hr.
      split; [intros Hz; contradiction|]. intros _.
      split; [reflexivity|].
      apply (Hsettle _ _ _ Hs).
      destruct Hpost as [->| ->]; reflexivity. }
  unfold _sieve_script_parse_only, sieve_build_nonexec_interp.
  destruct interp as [i|].
  - specialize (Hrun i [] [] eq_refl (or_introl eq_refl)). cbn zeta in Hrun.
    cbn [is_some app].
    destruct (if Z.eqb (ps_res _) SIEVE_OK then _ else _) as [[e' c'] m1].
    exact Hrun.
  - assert (Hnone : (SIEVE_FAIL E = SIEVE_OK ->
              e0 = None /\
              match out_script with
              | None => out_script = None /\
                  settle [MAllocInterp; MFreeInterp] nothing_live
                    = Some nothing_live
              | Some _ =>
                  exists sc, out_script = Some (Some sc) /\
                    settle [MAllocInterp; MFreeInterp] nothing_live
                      = Some (handed_over sc)
              end) /\
             (SIEVE_FAIL E <> SIEVE_OK ->
              out_script = out_script /\
              settle [MAllocInterp; MFreeInterp] nothing_live
                = Some nothing_live)).
    { split; [intros Hz; contradiction | intros _; split; reflexivity]. }
    destruct (negb (Z.eqb (register_stub_vacation F) SIEVE_OK));
      [exact Hnone|].
    destruct (negb (Z.eqb (register_stub_duplicate F) SIEVE_OK));
      [exact Hnone|].
    specialize (Hrun (stub_interp F) [MAllocInterp] [MFreeInterp] eq_refl
                     (or_intror eq_refl)).
    cbn zeta in Hrun. cbn [is_some].
    destruct (if Z.eqb (ps_res _) SIEVE_OK then _ else _) as [[e' c'] m1].
    exact Hrun.
Qed.

(** X15: [sieve_script_parse].  When [interp_verify] rejects the
    interpreter its status is returned, the caller's [*ret] is not written
    and nothing is allocated.  Otherwise the caller gets either a script with
    [SIEVE_OK], whose command tree is the parser's when the parser succeeded
    and NULL when it failed without recording an error, or NULL with
    [SIEVE_PARSE_ERROR]; in both cases the command tree is freed at most
    once and nothing but the script handed over stays allocated. *)
Theorem sieve_script_parse_contract (interp : sieve_interp_t World)
    (stream : string) (ret : option (sieve_script_t World Tree)) :
  let ps := sieve_script_parse E F interp stream ret in
  let p := sieveparse F (FromStream stream)
             {| script_interp := interp; support := SIEVE_CAPA_BASE F;
                cmds := None; err := 0 |} in
  if Z.eqb (interp_verify F interp) SIEVE_OK then
    match ps_ret ps with
    | Some sc =>
        ps_res ps = SIEVE_OK /\ err sc <= 0 /\
        support sc = support (p_script p) /\
        cmds sc = (if Z.eqb (p_ret p) 0 then cmds (p_script p) else None) /\
        settle (ps_mem ps) nothing_live = Some (handed_over sc)
    | None =>
        ps_res ps = SIEVE_PARSE_ERROR E /\ 0 < err (p_script p) /\
        settle (ps_mem ps) nothing_live = Some nothing_live
    end
  else
    ps_res ps = interp_verify F interp /\ ps_ret ps = ret /\ ps_mem ps = [].
Proof.
  cbn zeta. unfold sieve_script_parse.
  destruct (Z.eqb_spec (interp_verify F interp) SIEVE_OK) as [Hv|Hv].
  - exact (proj2 (parse_outcome (FromStream stream) interp ret Hv)).
  - unfold _sieve_script_parse. apply Z.eqb_neq in Hv. rewrite Hv.
    cbn. auto.
Qed.

(** X16: [sieve_script_parse_string] neither leaks nor frees twice.
    With [SIEVE_FAIL] and [SIEVE_PARSE_ERROR] different from [SIEVE_OK]:
    whatever the parser does and whether or not a disposable interpreter has
    to be built, every script structure, command tree, disposable
    interpreter and scanner buffer the call creates is freed exactly once,
    except the script handed to the caller, which happens exactly when the
    caller passed a script pointer and the status is [SIEVE_OK]; on any
    other status the caller's script pointer is left as it was, and on
    [SIEVE_OK] the error pointer is NULL. *)
Theorem parse_string_memory (interp : option (sieve_interp_t World))
    (s : string) (e0 : option string)
    (script_arg : option (option (sieve_script_t World Tree))) :
  SIEVE_FAIL E <> SIEVE_OK -> SIEVE_PARSE_ERROR E <> SIEVE_OK ->
  let '(res, errors', script', evs) :=
    sieve_script_parse_string E F interp s e0 script_arg in
  match script_arg with
  | None => script' = None /\ settle evs nothing_live = Some nothing_live
  | Some c =>
      if Z.eqb res SIEVE_OK then
        exists sc, script' = Some (Some sc) /\
                   settle evs nothing_live = Some (handed_over sc)
      else script' = Some c /\ settle evs nothing_live = Some nothing_live
  end /\
  (res = SIEVE_OK -> errors' = None).
Proof.
  intros Hfail Hpe. unfold sieve_script_parse_string.
  pose proof (parse_only_outcome (FromString s) interp e0
                (match script_arg with
                 | None => Some None
                 | Some c => Some c
                 end) Hfail Hpe) as H.
  destruct (_sieve_script_parse_only E F (FromString s) interp e0 _)
    as [[[res errors'] cell'] m].
  destruct H as [Hok Hne].
  assert (Hwrap : forall g m2 g',
            settle m nothing_live = Some g ->
            settle (m2 ++ [MDeleteBuffer])
                   (ledger_add g {| scripts := 0; trees := 0; interps := 0;
                                    scan_buffers := 1 |}) = Some g' ->
            settle ([MScanString] ++ m ++ m2 ++ [MDeleteBuffer]) nothing_live
              = Some g').
  { intros g m2 g' Hm H2. cbn [app settle nothing_live scripts trees interps
                                 scan_buffers].
    rewrite settle_app, (settle_framed _ _ _ Hm). exact H2. }
  split; [|intros Hz; now apply Hok in Hz].
  destruct (Z.eqb_spec res SIEVE_OK) as [Hz|Hnz].
  - destruct (Hok Hz) as [_ Hcell].
    destruct script_arg as [c|]; destruct Hcell as (sc & -> & Hs).
    + exists sc. split; [reflexivity|]. apply (Hwrap _ _ _ Hs).
      destruct sc as [si ss [t|] se]; reflexivity.
    + split; [reflexivity|]. apply (Hwrap _ _ _ Hs).
      destruct sc as [si ss [t|] se]; reflexivity.
  - destruct (Hne Hnz) as [-> Hs].
    destruct script_arg as [c|]; (split; [reflexivity|]);
      apply (Hwrap _ _ _ Hs); reflexivity.
Qed.

(** X17: the error text of [sieve_script_parse_only].  With [SIEVE_FAIL]
    different from [SIEVE_OK]: on [SIEVE_OK] the error pointer is NULL; on a
    failed parse the caller's script pointer is not written and the error
    text is what [buf_release] gives for the parser's reports, behind the
    line [script errors:]; when the disposable interpreter cannot be built
    the status is [SIEVE_FAIL], the parser is not run, the interpreter is
    freed, and the error pointer still holds what the caller had put there,
    behind the same banner if it was not NULL. *)
Theorem parse_only_errors (stream : string) (e0 : option string)
    (out_script : option (option (sieve_script_t World Tree))) :
  SIEVE_FAIL E <> SIEVE_OK ->
  let '(r, errors', script', evs) :=
    sieve_script_parse_only E F stream e0 out_script in
  let banner := fun text => "script errors:" +++ crlf +++ text in
  match fst (sieve_build_nonexec_interp F) with
  | None =>
      r = SIEVE_FAIL E /\ script' = out_script /\
      errors' = option_map banner e0 /\
      evs = [MAllocInterp; MFreeInterp]
  | Some i =>
      let ps := _sieve_script_parse E F (FromStream stream) i None in
      r = ps_res ps /\
      if Z.eqb r SIEVE_OK then errors' = None
      else script' = out_script /\
           errors' = option_map banner (buf_release F (ps_errors ps))
  end.
Proof.
  intros Hfail.
  unfold sieve_script_parse_only, _sieve_script_parse_only,
    sieve_build_nonexec_interp.
  assert (Hnone :
    let '(r, errors', script', evs) :=
      let '(r, errors, out_script0, m) :=
        (SIEVE_FAIL E, e0, out_script, [MAllocInterp; MFreeInterp]) in
      (r,
       match errors with
       | Some text =>
           if negb (Z.eqb r 0) then Some ("script errors:" +++ crlf +++ text)
           else errors
       | None => None
       end, out_script0, m) in
    r = SIEVE_FAIL E /\ script' = out_script /\
    errors' = option_map (fun text => "script errors:" +++ crlf +++ text) e0 /\
    evs = [MAllocInterp; MFreeInterp]).
  { cbn. apply Z.eqb_neq in Hfail.
    change (SIEVE_FAIL E =? 0) with (SIEVE_FAIL E =? SIEVE_OK).
    rewrite Hfail. destruct e0; auto. }
  destruct (negb (Z.eqb (register_stub_vacation F) SIEVE_OK));
    [exact Hnone|].
  destruct (negb (Z.eqb (register_stub_duplicate F) SIEVE_OK));
    [exact Hnone|].
  cbn [fst is_some].
  set (ps := _sieve_script_parse E F (FromStream stream) (stub_interp F) None).
  clearbody ps.
  destruct (Z.eqb_spec (ps_res ps) SIEVE_OK) as [Hz|Hnz].
  - destruct out_script; cbn; rewrite Hz, Z.eqb_refl; auto.
  - cbn. apply Z.eqb_neq in Hnz.
    change (ps_res ps =? 0) with (ps_res ps =? SIEVE_OK). rewrite Hnz.
    destruct (buf_release F (ps_errors ps)); cbn; auto.
Qed.

End FrontendProperties.

(** * The properties at concrete inputs *)

(** C2 at [a.bc]: loaded into the handle that already holds inode 7, and
    loaded into an empty handle variable. *)
Lemma load_reloaded_or_prepended_witness :
  fs_stat sample_fs "a.bc" = Some {| st_ino := 7; st_size := 4 |} /\
  (exists h',
     sieve_script_load cyrus_err sample_fs (Some "a.bc")
                       (Some (Some sample_handle))
       = (SIEVE_SCRIPT_RELOADED cyrus_err, Some (Some h'), [IoStat "a.bc"]) /\
     bc_list h' = [sample_blob]) /\
  (exists h' evs,
     sieve_script_load cyrus_err sample_fs (Some "a.bc") (Some None)
       = (SIEVE_OK, Some (Some h'), evs) /\
     bc_list h' = [sample_blob]).
Proof.
  split; [reflexivity|].
  split.
  - destruct (load_reloaded_or_prepended cyrus_err sample_fs "a.bc"
                (Some sample_handle) _ eq_refl) as [H _].
    destruct H as (h' & bc & Heq & Hl & _).
    { exists sample_blob. split; [left; reflexivity | reflexivity]. }
    exists h'. split; [exact Heq | exact Hl].
  - destruct (load_reloaded_or_prepended cyrus_err sample_fs "a.bc"
                None _ eq_refl) as [_ H].
    destruct (H (fun bc (Hin : In bc []) => match Hin with end) 3
                {| st_ino := 7; st_size := 4 |} eq_refl eq_refl)
      as (h' & bc & evs & Heq & Hl & _ & Hbc & _).
    exists h', evs. split; [exact Heq|]. rewrite Hl, Hbc. reflexivity.
Defined.

(** C10 at [locked.bc], which can be stat'ed but not opened. *)
Lemma load_fail_leaves_handle_witness :
  fst (fst (sieve_script_load cyrus_err sample_fs (Some "locked.bc")
                              (Some (Some sample_handle))))
    = SIEVE_FAIL cyrus_err /\
  snd (fst (sieve_script_load cyrus_err sample_fs (Some "locked.bc")
                              (Some (Some sample_handle))))
    = Some (Some sample_handle).
Proof.
  assert (H1 : SIEVE_FAIL cyrus_err <> SIEVE_OK) by (cbv; lia).
  assert (H2 : SIEVE_FAIL cyrus_err <> SIEVE_SCRIPT_RELOADED cyrus_err)
    by (cbv; lia).
  pose proof (load_fail_leaves_handle cyrus_err sample_fs (Some "locked.bc")
                (Some (Some sample_handle)) H1 H2) as H.
  split; [reflexivity|].
  change (sieve_script_load cyrus_err sample_fs (Some "locked.bc")
            (Some (Some sample_handle)))
    with (SIEVE_FAIL cyrus_err, Some (Some sample_handle),
          [IoStat "locked.bc"; IoOpen "locked.bc"]) in H |- *.
  destruct H as [H _]. exact (proj1 (H eq_refl)).
Defined.

(** C1 fails as stated: a FileInto entry with [cancel_keep] clear, no
    fileinto callback registered.  No callback returns anything but
    [SIEVE_OK] (none is called), and there is no implicit keep. *)
Lemma implicit_keep_missing_capability :
  exists r st',
    do_action_list cyrus_err (sample_externals 0 []) host_no_fileinto []
                   [entry ACTION_FILEINTO false] [] None state0
      = Ret (r, st') /\
    forallb (fun e => negb (cancel_keep e)) [entry ACTION_FILEINTO false]
      = true /\
    forallb call_ok (log st') = true /\
    count is_implicit_keep (log st') = 0%nat.
Proof. eexists _, _. repeat split. Qed.

(** C1 (amended) at a FileInto entry with [cancel_keep] clear, with every
    capability registered, and at an explicit Keep with [cancel_keep] set. *)
Lemma implicit_keep_policy_witness :
  (exists r st',
     do_action_list cyrus_err (sample_externals 0 []) sample_host []
                    [entry ACTION_FILEINTO false] [sample_notify] None state0
       = Ret (r, st') /\
     count is_implicit_keep (log st') = 1%nat) /\
  (exists r st',
     do_action_list cyrus_err (sample_externals 0 []) sample_host []
                    [entry ACTION_KEEP true] [sample_notify] None state0
       = Ret (r, st') /\
     count is_implicit_keep (log st') = 0%nat).
Proof.
  split.
  - eexists _, _. split; [vm_compute; reflexivity|].
    match goal with |- count _ (log ?s) = _ =>
      destruct (implicit_keep_policy cyrus_err (sample_externals 0 [])
                  sample_host [] [entry ACTION_FILEINTO false] [sample_notify]
                  None state0 0 s eq_refl)
        as (aevs & hevs & Hlog & Ha & Hh & _ & Hone)
    end.
    destruct (Hone eq_refl eq_refl) as [H0 H1].
    + cbn [state0 log app] in Hlog. rewrite <- Hlog. reflexivity.
    + rewrite Hlog. cbn [state0 log app]. rewrite count_app, H0, H1.
      reflexivity.
  - eexists _, _. split; [vm_compute; reflexivity|].
    match goal with |- count _ (log ?s) = _ =>
      destruct (implicit_keep_policy cyrus_err (sample_externals 0 [])
                  sample_host [] [entry ACTION_KEEP true] [sample_notify]
                  None state0 0 s eq_refl)
        as (aevs & hevs & Hlog & Ha & Hh & Hzero & _)
    end.
    rewrite Hlog. cbn [state0 log app]. apply Hzero.
    exists (entry ACTION_KEEP true). split; [left; reflexivity | reflexivity].
Defined.

(** C3 fails as stated: the evaluator returns -1 on a host with every
    capability registered.  The pending notification is sent; the keep
    callback is not called. *)
Lemma eval_failure_no_implicit_keep :
  exists r st',
    sieve_execute_bytecode cyrus_err (sample_externals (-1) [])
                           (Some sample_host) tt None = Ret (r, st') /\
    is_some (keep sample_host) = true /\
    r = SIEVE_RUN_ERROR cyrus_err /\
    count is_notify_call (log st') = 1%nat /\
    count is_implicit_keep (log st') = 0%nat.
Proof. eexists _, _. split; [vm_compute; reflexivity|]. repeat split. Qed.

(** C3 (amended) at that run. *)
Lemma eval_failure_skips_dispatch_witness :
  exists ev r st',
    eval_run (sample_externals (-1) []) sample_host tt = Some ev /\
    ev_ret ev < 0 /\
    sieve_execute_bytecode cyrus_err (sample_externals (-1) [])
                           (Some sample_host) tt None = Ret (r, st') /\
    Z.lor (SIEVE_RUN_ERROR cyrus_err) r = r /\
    count is_action_call (log st') = 0%nat /\
    count is_implicit_keep (log st') = 0%nat /\
    r = or_statuses (SIEVE_RUN_ERROR cyrus_err) (log st') /\
    count is_execute_err (log st') = 1%nat.
Proof.
  eexists _, _, _.
  split; [vm_compute; reflexivity|].
  split; [vm_compute; reflexivity|].
  split; [vm_compute; reflexivity|].
  match goal with |- Z.lor _ ?r = _ /\ count _ (log ?s) = _ /\ _ =>
    destruct (eval_failure_skips_dispatch cyrus_err (sample_externals (-1) [])
                sample_host tt None _ eq_refl eq_refl) as (_ & _ & H);
    destruct (H r s eq_refl) as (H1 & H2 & H3 & H4)
  end.
  destruct H4 as (_ & _ & _ & H5 & H6 & _);
    [vm_compute; intros Hx; discriminate Hx|].
  repeat split; assumption.
Defined.

(** C4 fails as stated: autorespond returns [SIEVE_DONE], a status other
    than [SIEVE_OK], and the keep callback of the next entry is called all
    the same. *)
Lemma autorespond_done_continues :
  exists r st',
    do_action_list cyrus_err (sample_externals 0 []) host_vacation_done []
                   [entry ACTION_VACATION true; entry ACTION_KEEP true] []
                   None state0 = Ret (r, st') /\
    log st'
      = [EvCall (CallAutorespond (u_vac_autoresp sample_union))
                (SIEVE_DONE cyrus_err);
         EvCall (CallKeep (u_keep sample_union)) SIEVE_OK;
         EvHandler false false] /\
    Z.eqb (SIEVE_DONE cyrus_err) SIEVE_OK = false.
Proof. eexists _, _. split; [vm_compute; reflexivity|]. split; reflexivity. Qed.

(** C4 (amended) at a FileInto that fails with 5, followed by a Keep, with
    one notification pending. *)
Lemma action_failure_aborts_dispatch_witness :
  exists r st',
    do_action_list cyrus_err (sample_externals 0 []) host_fileinto_fails []
                   [entry ACTION_NONE false; entry ACTION_FILEINTO false;
                    entry ACTION_KEEP true]
                   [sample_notify] None state0 = Ret (r, st') /\
    r <> SIEVE_OK /\
    count is_implicit_keep (log st') = 0%nat /\
    count is_action_call (log st') = 1%nat /\
    count is_notify_call (log st') = 1%nat.
Proof.
  eexists _, _. split; [vm_compute; reflexivity|].
  match goal with |- ?r <> _ /\ count _ (log ?s) = _ /\ _ =>
    destruct (action_failure_aborts_dispatch cyrus_err (sample_externals 0 [])
                host_fileinto_fails [] [entry ACTION_NONE false]
                (entry ACTION_FILEINTO false) [entry ACTION_KEEP true]
                [sample_notify] None state0 _ _ _ _ 5 _ _
                eq_refl eq_refl ltac:(cbv; lia)) as (_ & _ & H);
    destruct (H r s eq_refl) as (Hr & evs & Hlog & Ha & Hk & Hn)
  end.
  split; [exact Hr|]. repeat split.
Defined.

(** C6 at an autorespond that answers [SIEVE_OK] and at one that answers
    [SIEVE_DONE], each entered with the banner already in the trace. *)
Lemma vacation_two_phase_witness :
  (exists ret' em' st',
     do_action cyrus_err sample_host (entry ACTION_VACATION true) SIEVE_OK
               (set_actions_string state0 ("Action(s) taken:" +++ newline))
       = StepBreak ret' em' st' /\
     ret' = SIEVE_OK /\
     List.length (log st') = 2%nat /\
     actions_string st' = "Action(s) taken:" +++ newline +++
                          "Sent vacation reply" +++ newline) /\
  (exists ret' em' st',
     do_action cyrus_err host_vacation_done (entry ACTION_VACATION true)
               SIEVE_OK
               (set_actions_string state0 ("Action(s) taken:" +++ newline))
       = StepBreak ret' em' st' /\
     ret' = SIEVE_OK /\
     List.length (log st') = 1%nat /\
     actions_string st' = "Action(s) taken:" +++ newline +++
                          "Vacation reply suppressed" +++ newline).
Proof.
  split.
  - destruct (vacation_two_phase cyrus_err sample_host
                (entry ACTION_VACATION true) SIEVE_OK
                (set_actions_string state0 ("Action(s) taken:" +++ newline))
                _ eq_refl eq_refl) as (ret' & em' & st' & Heq & _ & H).
    cbn in H. destruct H as (Hr & Hlog & _ & Has & _).
    exists ret', em', st'. rewrite Hlog, Has. repeat split; assumption.
  - destruct (vacation_two_phase cyrus_err host_vacation_done
                (entry ACTION_VACATION true) SIEVE_OK
                (set_actions_string state0 ("Action(s) taken:" +++ newline))
                _ eq_refl eq_refl) as (ret' & em' & st' & Heq & _ & H).
    cbn in H. destruct H as (Hr & Hlog & _ & Has & _).
    exists ret', em', st'. rewrite Hlog, Has. repeat split; assumption.
Defined.

(** C8 fails as stated: a Discard entry with no discard callback registered
    is dispatched with [SIEVE_OK]. *)
Lemma discard_without_callback_succeeds :
  discard host_no_discard = None /\
  exists st',
    do_action_list cyrus_err (sample_externals 0 []) host_no_discard []
                   [entry ACTION_DISCARD true] [] None state0
      = Ret (SIEVE_OK, st') /\
    actions_string st' = "Action(s) taken:" +++ newline +++
                         "Discarded" +++ newline /\
    Z.eqb SIEVE_OK (SIEVE_INTERNAL_ERROR cyrus_err) = false.
Proof.
  split; [reflexivity|]. eexists. split; [vm_compute; reflexivity|].
  split; reflexivity.
Qed.

(** C8 (amended) at a FileInto entry behind the head node, with no fileinto
    callback registered. *)
Lemma missing_capability_internal_error_witness :
  missing_capability host_no_fileinto ACTION_FILEINTO = true /\
  exists st',
    do_action_list cyrus_err (sample_externals 0 []) host_no_fileinto []
                   [head_entry; entry ACTION_FILEINTO false;
                    entry ACTION_KEEP true]
                   [sample_notify] None state0
      = Ret (SIEVE_INTERNAL_ERROR cyrus_err, st') /\
    log st' = [].
Proof.
  split; [reflexivity|].
  destruct (missing_capability_internal_error cyrus_err
              (sample_externals 0 []) host_no_fileinto [] [head_entry]
              (entry ACTION_FILEINTO false) [entry ACTION_KEEP true]
              [sample_notify] None state0 _ _ _ _ eq_refl) as [H _].
  destruct (H eq_refl) as [_ Heq].
  eexists. split; [exact Heq | reflexivity].
Defined.

Lemma sample_fs_coherent : coherent sample_fs.
Proof.
  intros f sbuf d sbuf' Hs Ho Hf. cbn in Hs, Ho, Hf.
  destruct (String.eqb f "a.bc"); [|discriminate].
  injection Hs as <-. injection Ho as <-. cbn in Hf. injection Hf as <-.
  reflexivity.
Qed.

Lemma sample_handle_ok : handle_ok (Some sample_handle).
Proof.
  split.
  - repeat constructor. intros [].
  - exists sample_blob. split; [reflexivity | left; reflexivity].
Qed.

Lemma load_keeps_handle_ok_witness :
  exists h',
    snd (fst (sieve_script_load cyrus_err sample_fs (Some "a.bc")
                                (Some (Some sample_handle)))) = Some h' /\
    handle_ok h' /\
    (handle_blobs h' = handle_blobs (Some sample_handle) \/
     exists bc, handle_blobs h' = bc :: handle_blobs (Some sample_handle)).
Proof.
  exact (load_keeps_handle_ok cyrus_err sample_fs (Some "a.bc")
           (Some sample_handle) sample_fs_coherent sample_handle_ok).
Defined.

Lemma load_again_witness :
  sieve_script_load cyrus_err sample_fs (Some "a.bc")
    (snd (fst (sieve_script_load cyrus_err sample_fs (Some "a.bc")
                                 (Some None))))
  = (SIEVE_SCRIPT_RELOADED cyrus_err,
     snd (fst (sieve_script_load cyrus_err sample_fs (Some "a.bc")
                                 (Some None))),
     [IoStat "a.bc"]).
Proof.
  apply (load_again cyrus_err sample_fs "a.bc" None sample_fs_coherent).
  vm_compute. intros H. discriminate H.
Defined.

Lemma build_notify_message_literal_witness :
  build_notify_message (sample_externals 0 []) sample_host
    (Some "Cost: $5.00, text included") BUF_INITIALIZER
  = Ret (SIEVE_OK, {| buf_s := "Cost: $5.00, text included";
                      buf_terminated := true |}).
Proof.
  apply (build_notify_message_literal (sample_externals 0 []) sample_host).
  reflexivity.
Defined.


Lemma text_placeholder_expands_witness :
  build_notify_message (sample_externals 0 []) sample_host
    (Some ("Body: " +++ "$Text[5]$" +++ ".")) BUF_INITIALIZER
  = Ret (SIEVE_OK, {| buf_s := "Body: Hello."; buf_terminated := true |}).
Proof.
  exact (text_placeholder_expands (sample_externals 0 []) sample_host
           (fun _ => Some [{| decoded_body := Some "Hello World" |}])
           "Body: " "$Text[5]$" "." 5 BUF_INITIALIZER eq_refl
           (tok_text_n "$Text[" "5" "$" eq_refl eq_refl eq_refl)
           eq_refl eq_refl).
Defined.


Lemma ok_means_nothing_failed_witness :
  exists st',
    sieve_execute_bytecode cyrus_err
      (sample_externals 0 [entry ACTION_FILEINTO true])
      (Some sample_host) tt None = Ret (SIEVE_OK, st') /\
    exists ev,
      eval_run (sample_externals 0 [entry ACTION_FILEINTO true])
               sample_host tt = Some ev /\
      0 <= ev_ret ev /\
      forallb (dispatchable sample_host) (ev_actions ev) = true /\
      forallb (accepted cyrus_err) (log st') = true.
Proof.
  eexists. split; [vm_compute; reflexivity|].
  apply (ok_means_nothing_failed cyrus_err
           (sample_externals 0 [entry ACTION_FILEINTO true]) sample_host tt
           None);
    try (vm_compute; intros H; discriminate H).
  vm_compute. reflexivity.
Defined.

Lemma allocation_failure_no_delivery_witness :
  eval_run externals_no_memory sample_host tt = None /\
  exists r st',
    sieve_execute_bytecode cyrus_err externals_no_memory (Some sample_host)
                           tt None = Ret (r, st') /\
    Z.lor (SIEVE_NOMEM cyrus_err) r = r /\
    count is_action_call (log st') = 0%nat /\
    count is_implicit_keep (log st') = 0%nat /\
    (SIEVE_NOMEM cyrus_err <> SIEVE_OK ->
     r <> SIEVE_OK /\ count is_track_call (log st') = 0%nat).
Proof.
  split; [reflexivity|].
  pose proof (allocation_failure_no_delivery cyrus_err externals_no_memory
                sample_host tt None eq_refl) as H.
  destruct (sieve_execute_bytecode cyrus_err externals_no_memory
              (Some sample_host) tt None) as [[r st']| |] eqn:Hrun;
    [|vm_compute in Hrun; discriminate Hrun | contradiction].
  exists r, st'. split; [reflexivity | exact H].
Defined.


Lemma parse_string_memory_witness :
  let '(res, errors', script', evs) :=
    sieve_script_parse_string cyrus_err sample_frontend None "keep;" None
                              (Some None) in
  match Some (@None (sieve_script_t unit unit)) with
  | None => script' = None /\ settle evs nothing_live = Some nothing_live
  | Some c =>
      if Z.eqb res SIEVE_OK then
        exists sc, script' = Some (Some sc) /\
                   settle evs nothing_live = Some (handed_over sc)
      else script' = Some c /\ settle evs nothing_live = Some nothing_live
  end /\
  (res = SIEVE_OK -> errors' = None).
Proof.
  apply (parse_string_memory cyrus_err sample_frontend None "keep;" None
           (Some None)); vm_compute; intros H; discriminate H.
Defined.

Lemma parse_only_errors_witness :
  sieve_script_parse_only cyrus_err sample_frontend "kep;" None (Some None)
  = (SIEVE_PARSE_ERROR cyrus_err,
     Some ("script errors:" +++ crlf +++ "line 1: syntax error" +++ crlf),
     Some None,
     [MAllocInterp; MAllocScript; MParse true; MFreeTree; MFreeScript;
      MFreeInterp]) /\
  let '(r, errors', script', evs) :=
    sieve_script_parse_only cyrus_err sample_frontend "kep;" None
                            (Some None) in
  let banner := fun text => "script errors:" +++ crlf +++ text in
  match fst (sieve_build_nonexec_interp sample_frontend) with
  | None =>
      r = SIEVE_FAIL cyrus_err /\ script' = Some None /\
      errors' = option_map banner None /\
      evs = [MAllocInterp; MFreeInterp]
  | Some i =>
      let ps := _sieve_script_parse cyrus_err sample_frontend
                  (FromStream "kep;") i None in
      r = ps_res ps /\
      if Z.eqb r SIEVE_OK then errors' = None
      else script' = Some None /\
           errors' = option_map banner
                       (buf_release sample_frontend (ps_errors ps))
  end.
Proof.
  split; [reflexivity|].
  apply (parse_only_errors cyrus_err sample_frontend "kep;" None (Some None)).
  vm_compute. intros H. discriminate H.
Defined.

